(** * bayesbow: a Naive Bayes bag-of-words corpus (bow.go)

    A shallow embedding of the [Bow] corpus of package [bayesbow] and of its
    operations [New], [Add], [Predict], [UpdatePL], [PWL], [PLD],
    [updateWords] and [Save], followed by the properties of the counters and
    of the vocabulary that the operations maintain.

    Conventions of the embedding.
    - Go's [int] is the 64-bit two's complement integer: a [Z] together with
      [wrap], which every addition of the source goes through ([int_add]).
    - [float64] is kept abstract (class [Float64]): the operations the source
      applies to floats are the fields of the class, so that every statement
      holds for whatever the hardware computes.
    - A Go map is a [gmap]; reading a missing key gives the zero value
      ([default 0 (m !! k)]), writing into a nil inner map panics.
    - [range] over a map visits the keys in an order chosen by the runtime:
      the order is an argument ([MapIter]) of every operation that ranges
      over a map, and is only known to be a permutation of the entries.
    - The receiver [dd *Bow] is mutated in place: operations are functions
      [Bow -> exec A], and a panic carries the receiver as it was left.
    - The maps held directly by a [Bow] are allocated (as [New] and the JSON
      decoder leave them); an inner map of [LWF] may be missing.
    - The package variable [conf] is a parameter of the operations that
      read it. The file system and the JSON codec are parameters of [Load]
      and [Save]. *)

From stdpp Require Import base numbers option list gmap strings fin_maps.
From Stdlib Require Import ZArith Lia.

Local Open Scope Z_scope.

(** ** Machine integers *)

Definition int_min : Z := - 2 ^ 63.
Definition int_max : Z := 2 ^ 63 - 1.

(** The value of a mathematical integer once stored in an [int]. *)
Definition wrap (z : Z) : Z := (z + 2 ^ 63) mod 2 ^ 64 - 2 ^ 63.

(** [x + y] on [int]. *)
Definition int_add (x y : Z) : Z := wrap (x + y).

(** [len(s)] of a slice. *)
Definition len {A} (s : list A) : Z := Z.of_nat (length s).

(** [s[i]] and [s[i] = v] on a slice; [None] is the index-out-of-range panic. *)
Definition slice_get {A} (s : list A) (i : Z) : option A :=
  if decide (0 ≤ i) then s !! Z.to_nat i else None.

Definition slice_set {A} (s : list A) (i : Z) (v : A) : option (list A) :=
  if decide (0 ≤ i < len s) then Some (<[Z.to_nat i := v]> s) else None.

(** [m[k]] on a [map[_]int]: the zero value when the key is missing. *)
Definition map_get `{Countable K} (m : gmap K Z) (k : K) : Z := default 0 (m !! k).

(** [m[k] = m[k] + d] *)
Definition bump `{Countable K} (m : gmap K Z) (k : K) (d : Z) : gmap K Z :=
  <[k := int_add (map_get m k) d]> m.

(** A sequence of such updates, one per entry [(k, d)]. *)
Definition bump_list `{Countable K} (m : gmap K Z) (us : list (K * Z)) : gmap K Z :=
  foldl (λ m u, bump m u.1 u.2) m us.

(** What a sequence of updates adds to the key [k]. *)
Definition incr_of `{Countable K} (k : K) (us : list (K * Z)) : Z :=
  foldr (λ u acc, if decide (u.1 = k) then u.2 + acc else acc) 0 us.

(** The occurrence counts of a list of word IDs, as the scan tallies them. *)
Definition freq_of (seq : list Z) : gmap Z Z :=
  bump_list ∅ ((λ idx, (idx, 1)) <$> seq).

(** The sum of the values of a map. *)
Definition map_sum (m : gmap Z Z) : Z := map_fold (λ _ v acc, v + acc) 0 m.

(** ** Floating point, abstractly *)

Class Float64 := {
  float64 : Type;
  of_int : Z → float64;                    (* float64(n) *)
  fadd : float64 → float64 → float64;      (* x + y *)
  fdiv : float64 → float64 → float64;      (* x / y *)
  flog : float64 → float64;                (* math.Log *)
  fexp : float64 → float64;                (* math.Exp *)
  fgt : float64 → float64 → bool           (* x > y *)
}.

(** Floats as the terms that compute them: the instance used to run the
    model on concrete corpora. Terms are not ordered, so that every
    comparison is false (as it is on NaN). *)
Inductive fterm :=
  | FInt (n : Z)
  | FAdd (x y : fterm)
  | FDiv (x y : fterm)
  | FLog (x : fterm)
  | FExp (x : fterm).

Definition symbolic_float : Float64 :=
  {| float64 := fterm; of_int := FInt; fadd := FAdd; fdiv := FDiv;
     flog := FLog; fexp := FExp; fgt := λ _ _, false |}.

(** Floats as the numbers they stand for, without rounding: a value is a
    rational [n/d] or the logarithm of one, which is all that [PLD] forms
    (a sum of logarithms is the logarithm of a product). A denominator 0
    marks what has no value (a division by zero, the logarithm of a number
    that is not positive, a sum that mixes the two kinds); like NaN it
    compares false with everything. *)
Inductive rat :=
  | Num (n d : Z)
  | Ln (n d : Z).

Definition rat_add (x y : rat) : rat :=
  match x, y with
  | Num a b, Num c d => Num (a * d + c * b) (b * d)
  | Ln a b, Ln c d => Ln (a * c) (b * d)
  | _, _ => Num 0 0
  end.

Definition rat_div (x y : rat) : rat :=
  match x, y with
  | Num a b, Num c d => Num (a * d * Z.sgn c) (b * Z.abs c)
  | _, _ => Num 0 0
  end.

Definition rat_log (x : rat) : rat :=
  match x with
  | Num a b => if (0 <? a) && (0 <? b) then Ln a b else Num 0 0
  | Ln _ _ => Num 0 0
  end.

Definition rat_exp (x : rat) : rat :=
  match x with
  | Ln a b => Num a b
  | Num _ _ => Num 0 0
  end.

Definition rat_gt (x y : rat) : bool :=
  match x, y with
  | Num a b, Num c d => (0 <? b) && (0 <? d) && (c * b <? a * d)
  | _, _ => false
  end.

Definition rational_float : Float64 :=
  {| float64 := rat; of_int := λ n, Num n 1; fadd := rat_add; fdiv := rat_div;
     flog := rat_log; fexp := rat_exp; fgt := rat_gt |}.

(** ** The order of [range] over a map *)

Record MapIter := {
  range_int : nat → gmap Z Z → list (Z * Z);
  range_str : nat → gmap string Z → list (string * Z);
  range_int_perm : ∀ n m, range_int n m ≡ₚ map_to_list m;
  range_str_perm : ∀ n m, range_str n m ≡ₚ map_to_list m
}.

(** The first argument numbers the [range] statements executed by one call,
    so that two loops over the same map need not agree. *)

Definition canonical_iter : MapIter :=
  {| range_int := λ _ m, map_to_list m;
     range_str := λ _ m, map_to_list m;
     range_int_perm := λ _ m, reflexivity (map_to_list m);
     range_str_perm := λ _ m, reflexivity (map_to_list m) |}.

(** ** The configuration (the package variable [conf]) *)

Record Config := {
  UseStopWords : bool;
  StopWords : list string;
  StopWordClasses : list string
}.

Definition makeDefaultConfig : Config :=
  {| UseStopWords := false; StopWords := []; StopWordClasses := [] |}.

(** [IsStopWord]: equal to a stop word, or starting with a stop-word class. *)
Definition IsStopWord (conf : Config) (x : string) : bool :=
  existsb (λ word, bool_decide (x = word)) (StopWords conf)
  || existsb (λ wordClass, String.prefix wordClass x) (StopWordClasses conf).

(** The test of the scan: the token is empty, or stop words are in use and
    the token is one. *)
Definition skipped (conf : Config) (word : string) : bool :=
  bool_decide (word = EmptyString) || (UseStopWords conf && IsStopWord conf word).

Section Bayesbow.
Context {FL : Float64}.
Variable conf : Config.

(** ** The corpus *)

Record Bow := mkBow {
  Note : string;
  LabelNames : list string;
  LabelCount : Z;
  Words : list string;
  WordCount : Z;
  WordDocCount : gmap Z Z;
  DocCount : Z;
  LWF : gmap Z (gmap Z Z);
  LabelWordCount : gmap Z Z;
  PL : list float64;
  LabelDocCount : list Z;
  idxs : gmap string Z
}.

Definition set_Words (v : list string) (dd : Bow) : Bow :=
  mkBow (Note dd) (LabelNames dd) (LabelCount dd) v (WordCount dd)
    (WordDocCount dd) (DocCount dd) (LWF dd) (LabelWordCount dd) (PL dd)
    (LabelDocCount dd) (idxs dd).

Definition set_WordCount (v : Z) (dd : Bow) : Bow :=
  mkBow (Note dd) (LabelNames dd) (LabelCount dd) (Words dd) v
    (WordDocCount dd) (DocCount dd) (LWF dd) (LabelWordCount dd) (PL dd)
    (LabelDocCount dd) (idxs dd).

Definition set_WordDocCount (v : gmap Z Z) (dd : Bow) : Bow :=
  mkBow (Note dd) (LabelNames dd) (LabelCount dd) (Words dd) (WordCount dd)
    v (DocCount dd) (LWF dd) (LabelWordCount dd) (PL dd)
    (LabelDocCount dd) (idxs dd).

Definition set_DocCount (v : Z) (dd : Bow) : Bow :=
  mkBow (Note dd) (LabelNames dd) (LabelCount dd) (Words dd) (WordCount dd)
    (WordDocCount dd) v (LWF dd) (LabelWordCount dd) (PL dd)
    (LabelDocCount dd) (idxs dd).

Definition set_LWF (v : gmap Z (gmap Z Z)) (dd : Bow) : Bow :=
  mkBow (Note dd) (LabelNames dd) (LabelCount dd) (Words dd) (WordCount dd)
    (WordDocCount dd) (DocCount dd) v (LabelWordCount dd) (PL dd)
    (LabelDocCount dd) (idxs dd).

Definition set_LabelWordCount (v : gmap Z Z) (dd : Bow) : Bow :=
  mkBow (Note dd) (LabelNames dd) (LabelCount dd) (Words dd) (WordCount dd)
    (WordDocCount dd) (DocCount dd) (LWF dd) v (PL dd)
    (LabelDocCount dd) (idxs dd).

Definition set_PL (v : list float64) (dd : Bow) : Bow :=
  mkBow (Note dd) (LabelNames dd) (LabelCount dd) (Words dd) (WordCount dd)
    (WordDocCount dd) (DocCount dd) (LWF dd) (LabelWordCount dd) v
    (LabelDocCount dd) (idxs dd).

Definition set_LabelDocCount (v : list Z) (dd : Bow) : Bow :=
  mkBow (Note dd) (LabelNames dd) (LabelCount dd) (Words dd) (WordCount dd)
    (WordDocCount dd) (DocCount dd) (LWF dd) (LabelWordCount dd) (PL dd)
    v (idxs dd).

Definition set_idxs (v : gmap string Z) (dd : Bow) : Bow :=
  mkBow (Note dd) (LabelNames dd) (LabelCount dd) (Words dd) (WordCount dd)
    (WordDocCount dd) (DocCount dd) (LWF dd) (LabelWordCount dd) (PL dd)
    (LabelDocCount dd) v.

(** [dd.LWF[labelID][wordID]]: reading through a missing inner map gives 0. *)
Definition LWF_get (dd : Bow) (labelID wordID : Z) : Z :=
  map_get (default ∅ (LWF dd !! labelID)) wordID.

(** ** Running an operation on the receiver *)

Inductive panic :=
  | Fatal              (* the explicit panic(...) of UpdatePL *)
  | IndexOutOfRange    (* slice index out of range *)
  | NilMapWrite        (* assignment to entry in nil map *)
  | MakeNegative.      (* make([]T, n) with n < 0 *)

Inductive exec (A : Type) :=
  | Ret (a : A) (dd : Bow)
  | Panic (p : panic) (dd : Bow).
Global Arguments Ret {A} a dd.
Global Arguments Panic {A} p dd.

Definition final_state {A} (r : exec A) : Bow :=
  match r with Ret _ dd => dd | Panic _ dd => dd end.

Definition returns {A} (r : exec A) : Prop :=
  match r with Ret _ _ => True | Panic _ _ => False end.

Definition bind {A B} (c : Bow → exec A) (k : A → Bow → exec B) (dd : Bow) : exec B :=
  match c dd with
  | Ret a dd' => k a dd'
  | Panic p dd' => Panic p dd'
  end.

Notation "'do' x <- c ; k" := (bind c (λ x, k))
  (at level 10, x name, c at level 100, k at level 200).
Notation "'do' '_' <- c ; k" := (bind c (λ _, k))
  (at level 10, c at level 100, k at level 200).

(** A [for] loop whose body may panic. *)
Fixpoint for_each {X} (body : X → Bow → exec unit) (xs : list X) (dd : Bow) : exec unit :=
  match xs with
  | [] => Ret tt dd
  | x :: xs' =>
      match body x dd with
      | Ret _ dd' => for_each body xs' dd'
      | Panic p dd' => Panic p dd'
      end
  end.

(** ** New *)

(** [float64(1.0)] is [of_int 1]; [Words] and [DocCount] are left at their
    zero values. *)
Definition New (note : string) (labelNames : list string) : Bow :=
  let labelCount := len labelNames in
  let labelIDs := seqZ 0 labelCount in
  let pl := (λ _, fdiv (of_int 1) (of_int labelCount)) <$> labelIDs in
  let lwf := foldl (λ (m : gmap Z (gmap Z Z)) labelID, <[labelID := ∅]> m) ∅ labelIDs in
  {| Note := note;
     LWF := lwf;
     PL := pl;
     idxs := ∅;
     WordCount := 0;
     WordDocCount := ∅;
     LabelWordCount := ∅;
     LabelNames := labelNames;
     LabelCount := labelCount;
     LabelDocCount := (λ _, 0) <$> labelIDs;
     Words := [];
     DocCount := 0 |}.

(** ** The scan of a document

    The first loop of [Add]; the first loop of [Predict] is the same loop
    without [seq], which neither function reads afterwards. *)

(** [if !ok { dd.idxs[word] = dd.WordCount; dd.WordCount++ }] *)
Definition resolve (word : string) (dd : Bow) : Bow :=
  match idxs dd !! word with
  | Some _ => dd
  | None =>
      set_WordCount (int_add (WordCount dd) 1)
        (set_idxs (<[word := WordCount dd]> (idxs dd)) dd)
  end.

(** One iteration; the state is the receiver, [seq] and [freqWord]. *)
Definition scan_word (st : Bow * list Z * gmap Z Z) (word : string)
    : Bow * list Z * gmap Z Z :=
  let '(dd, seq, freqWord) := st in
  if skipped conf word then st
  else
    let dd' := resolve word dd in
    let idx := map_get (idxs dd') word in
    (dd', seq ++ [idx], bump freqWord idx 1).

Definition scan (words : list string) (dd : Bow) : Bow * list Z * gmap Z Z :=
  foldl scan_word (dd, [], ∅) words.

(** The tokens of a document that the scan keeps. *)
Definition kept (words : list string) : list string :=
  filter (λ word, skipped conf word = false) words.

(** ** Add *)

(** The body of the innermost loop of [Add], for one word ID and one label. *)
Definition Add_count (freqWord : gmap Z Z) (wordID labelID : Z) (dd : Bow) : exec unit :=
  let dd1 := set_WordDocCount (bump (WordDocCount dd) wordID 1) dd in
  match LWF dd1 !! labelID with
  | None => Panic NilMapWrite dd1
  | Some m =>
      let dd2 :=
        set_LWF (<[labelID := bump m wordID (map_get freqWord wordID)]> (LWF dd1)) dd1 in
      Ret tt
        (set_LabelWordCount
           (bump (LabelWordCount dd2) labelID (map_get freqWord wordID)) dd2)
  end.

(** The body of the last loop of [Add]. *)
Definition Add_label (labelID : Z) (dd : Bow) : exec unit :=
  match slice_get (LabelDocCount dd) labelID with
  | None => Panic IndexOutOfRange dd
  | Some n =>
      match slice_set (LabelDocCount dd) labelID (int_add n 1) with
      | None => Panic IndexOutOfRange dd
      | Some s => Ret tt (set_LabelDocCount s dd)
      end
  end.

Definition Add (it : MapIter) (id : string) (words : list string) (labels : list Z)
    (dd : Bow) : exec unit :=
  let '(dd1, _, freqWord) := scan words dd in
  let dd2 := set_DocCount (int_add (DocCount dd1) 1) dd1 in
  (do _ <- for_each (λ wordID, for_each (Add_count freqWord wordID) labels)
             (range_int it 0 freqWord).*1;
   for_each Add_label labels) dd2.

(** ** WordDocCountOf *)

Definition WordDocCountOf (word : string) (dd : Bow) : Z :=
  match idxs dd !! word with
  | None => 0
  | Some idx => map_get (WordDocCount dd) idx
  end.

(** ** UpdatePL *)

Definition UpdatePL_label (labelID : Z) (dd : Bow) : exec unit :=
  match slice_get (LabelDocCount dd) labelID with
  | None => Panic IndexOutOfRange dd
  | Some n =>
      if decide (int_add n 1 > int_add (DocCount dd) (LabelCount dd)) then Panic Fatal dd
      else
        match slice_set (PL dd) labelID
                (fdiv (of_int (int_add n 1))
                      (of_int (int_add (DocCount dd) (LabelCount dd)))) with
        | None => Panic IndexOutOfRange dd
        | Some pl => Ret tt (set_PL pl dd)
        end
  end.

Definition UpdatePL : Bow → exec unit :=
  λ dd, for_each UpdatePL_label (seqZ 0 (LabelCount dd)) dd.

(** ** PWL and PLD *)

Definition PWL (dd : Bow) (labelID wordID : Z) : float64 :=
  flog (fdiv (of_int (int_add (LWF_get dd labelID wordID) 1))
             (of_int (int_add (map_get (LabelWordCount dd) labelID) (WordCount dd)))).

(** The body of the first loop of [PLD]: the score of one label is pushed on
    [r] (kept in label order) and added to [sum]. *)
Definition PLD_label (it : MapIter) (dd : Bow) (wordFreq : gmap Z Z)
    (acc : option (list float64 * float64)) (labelID : Z)
    : option (list float64 * float64) :=
  match acc with
  | None => None
  | Some (r, sum) =>
      match slice_get (PL dd) labelID with
      | None => None
      | Some p =>
          let s := foldl (λ s wordID, fadd s (PWL dd labelID wordID)) (flog p)
                     (range_int it (Z.to_nat labelID) wordFreq).*1 in
          let s := fexp s in
          Some (r ++ [s], fadd sum s)
      end
  end.

Definition PLD (it : MapIter) (wordFreq : gmap Z Z) : Bow → exec (list float64) :=
  do _ <- UpdatePL;
  λ dd,
    if decide (LabelCount dd < 0) then Panic MakeNegative dd
    else
      match foldl (PLD_label it dd wordFreq) (Some ([], of_int 0))
              (seqZ 0 (LabelCount dd)) with
      | None => Panic IndexOutOfRange dd
      | Some (r, sum) => Ret ((λ x, fdiv x sum) <$> r) dd
      end.

(** ** Predict *)

(** The body of the last loop of [Predict]; [None] is an index out of range. *)
Definition Predict_max (pld : list float64) (acc : option Z) (labelID : Z) : option Z :=
  match acc with
  | None => None
  | Some maxLabelID =>
      match slice_get pld labelID, slice_get pld maxLabelID with
      | Some x, Some y => Some (if fgt x y then labelID else maxLabelID)
      | _, _ => None
      end
  end.

Definition Predict (it : MapIter) (words : list string) (dd : Bow)
    : exec (Z * list float64) :=
  let '(dd1, _, freqWord) := scan words dd in
  (do pld <- PLD it freqWord;
   λ dd2,
     match foldl (Predict_max pld) (Some 0) (seqZ 0 (LabelCount dd2)) with
     | None => Panic IndexOutOfRange dd2
     | Some r => Ret (r, pld) dd2
     end) dd1.

(** ** updateWords and Save *)

Definition updateWords_entry (e : string * Z) (dd : Bow) : exec unit :=
  match slice_set (Words dd) e.2 e.1 with
  | None => Panic IndexOutOfRange dd
  | Some ws => Ret tt (set_Words ws dd)
  end.

Definition updateWords (it : MapIter) (dd : Bow) : exec unit :=
  for_each updateWords_entry (range_str it 0 (idxs dd))
    (set_Words (replicate (size (idxs dd)) EmptyString) dd).

(** [Save] rebuilds [Words] and then writes the record out. The file system
    and the JSON encoder are not part of the corpus: [io_ok] says whether
    they succeeded, and the result is whether the returned [err] is nil. *)
Definition Save (it : MapIter) (outFile : string) (io_ok : bool) : Bow → exec bool :=
  do _ <- updateWords it;
  λ dd, Ret io_ok dd.

(** ** Sequences of operations *)

Inductive op :=
  | OpAdd (it : MapIter) (id : string) (words : list string) (labels : list Z)
  | OpPredict (it : MapIter) (words : list string)
  | OpSave (it : MapIter) (outFile : string) (io_ok : bool).

Definition exec_op (o : op) : Bow → exec unit :=
  match o with
  | OpAdd it id words labels => Add it id words labels
  | OpPredict it words => do _ <- Predict it words; Ret tt
  | OpSave it outFile io_ok => do _ <- Save it outFile io_ok; Ret tt
  end.

(** An uncaught panic ends the program: the run stops there. *)
Definition run (ops : list op) : Bow → exec unit := for_each exec_op ops.

(** ** Well-formed corpora

    The shape [New] gives to the per-label structures and every operation
    keeps: one slot per label in the slices, one inner map per label. *)

Definition in_range (dd : Bow) (labelID : Z) : Prop := 0 ≤ labelID < LabelCount dd.

Definition Bow_wf (dd : Bow) : Prop :=
  LabelCount dd = len (LabelNames dd)
  ∧ len (LabelDocCount dd) = LabelCount dd
  ∧ len (PL dd) = LabelCount dd
  ∧ ∀ labelID, in_range dd labelID → is_Some (LWF dd !! labelID).

(** ** The loops of [Add] when no label is rejected

    The pairs (word ID, label ID) in the order the nested loop visits them,
    and the three counters after the loop. *)

Definition visits (wordIDs labels : list Z) : list (Z * Z) :=
  wordIDs ≫= λ wordID, (λ labelID, (wordID, labelID)) <$> labels.

Definition LWF_bump (freqWord : gmap Z Z) (lwf : gmap Z (gmap Z Z)) (p : Z * Z)
    : gmap Z (gmap Z Z) :=
  <[p.2 := bump (default ∅ (lwf !! p.2)) p.1 (map_get freqWord p.1)]> lwf.

Definition Add_counts (freqWord : gmap Z Z) (ps : list (Z * Z)) (dd : Bow) : Bow :=
  set_LabelWordCount
    (bump_list (LabelWordCount dd) ((λ p, (p.2, map_get freqWord p.1)) <$> ps))
    (set_LWF (foldl (LWF_bump freqWord) (LWF dd) ps)
       (set_WordDocCount (bump_list (WordDocCount dd) ((λ p, (p.1, 1)) <$> ps)) dd)).

Definition LabelDocCount_bump (s : list Z) (labelID : Z) : list Z :=
  <[Z.to_nat labelID := int_add (default 0 (s !! Z.to_nat labelID)) 1]> s.

(** [dd] differs from [dd0] in the counters of the loops of [Add] only. *)
Definition counters_only (dd0 dd : Bow) : Prop :=
  Note dd = Note dd0 ∧ LabelNames dd = LabelNames dd0 ∧ LabelCount dd = LabelCount dd0
  ∧ Words dd = Words dd0 ∧ WordCount dd = WordCount dd0 ∧ DocCount dd = DocCount dd0
  ∧ PL dd = PL dd0 ∧ idxs dd = idxs dd0
  ∧ len (LabelDocCount dd) = len (LabelDocCount dd0).

(** [dd] differs from [dd0] in [PL] only, which keeps its length. *)
Definition PL_only (dd0 dd : Bow) : Prop :=
  dd = set_PL (PL dd) dd0 ∧ len (PL dd) = len (PL dd0).

(** The prior [UpdatePL] stores for a label with [n] documents. *)
Definition prior (dd : Bow) (n : Z) : float64 :=
  fdiv (of_int (int_add n 1)) (of_int (int_add (DocCount dd) (LabelCount dd))).

(** The posterior in the words of the specification: per label, the score
    is ln(PL[l]) plus PWL(l, wordID) for each word ID of [keys l], taken in
    that order; each score is exponentiated and divided by the sum of all of
    them. Only word IDs enter, no occurrence count. *)
Definition PLD_spec (keys : Z → list Z) (dd : Bow) : list float64 :=
  let score (lp : Z * float64) :=
    fexp (foldl fadd (flog lp.2) (PWL dd lp.1 <$> keys lp.1)) in
  let scores := score <$> zip (seqZ 0 (LabelCount dd)) (PL dd) in
  let sum := foldl fadd (of_int 0) scores in
  (λ x, fdiv x sum) <$> scores.

(** The receiver after an [Add] that returns. *)
Definition Add_done (it : MapIter) (words : list string) (labels : list Z) (dd : Bow) : Bow :=
  let '(dd1, _, freqWord) := scan words dd in
  let dd2 := set_DocCount (int_add (DocCount dd1) 1) dd1 in
  let dd3 := Add_counts freqWord (visits (range_int it 0 freqWord).*1 labels) dd2 in
  set_LabelDocCount (foldl LabelDocCount_bump (LabelDocCount dd3) labels) dd3.

(** ** The vocabulary

    [idxs] numbers the known words 0, 1, ..., [WordCount] - 1, each number
    once; [Words] agrees with [idxs] wherever it is defined. *)

Definition vocab_ok (dd : Bow) : Prop :=
  WordCount dd = Z.of_nat (size (idxs dd))
  ∧ (∀ w i, idxs dd !! w = Some i → 0 ≤ i < WordCount dd)
  ∧ (∀ w1 w2 i, idxs dd !! w1 = Some i → idxs dd !! w2 = Some i → w1 = w2)
  ∧ (∀ i, 0 ≤ i < WordCount dd → ∃ w, idxs dd !! w = Some i).

Definition Words_ok (dd : Bow) : Prop :=
  ∀ i w, Words dd !! i = Some w → idxs dd !! w = Some (Z.of_nat i).

(** The vocabulary is consistent as long as its size is an [int]. *)
Definition vocab_inv (dd : Bow) : Prop :=
  Z.of_nat (size (idxs dd)) ≤ int_max → vocab_ok dd ∧ Words_ok dd.

(** ** The corpus seen through its words

    The counters of a word are those of its ID (as in the example at the
    head of bow.go: [wordID := dd.idxs["foo"]; dd.LWF[labelID][wordID]]). *)

Definition LWF_of (labelID : Z) (word : string) (dd : Bow) : Z :=
  match idxs dd !! word with
  | None => 0
  | Some idx => LWF_get dd labelID idx
  end.

(** No counter is kept for an ID that no word has yet. *)
Definition fresh (dd : Bow) : Prop :=
  (∀ i, WordCount dd ≤ i → map_get (WordDocCount dd) i = 0)
  ∧ (∀ l i, WordCount dd ≤ i → LWF_get dd l i = 0).

(** The occurrence counts of the tokens of a document, by word. *)
Definition tally (ws : list string) : gmap string Z :=
  bump_list ∅ ((λ w, (w, 1)) <$> ws).

(** How many times a label is listed. *)
Definition count_label (l : Z) (labels : list Z) : Z :=
  incr_of l ((λ l', (l', 1)) <$> labels).

(** The updates that a sequence of visits makes to the inner map of a label. *)
Definition label_updates (freqWord : gmap Z Z) (l : Z) (ps : list (Z * Z)) : list (Z * Z) :=
  omap (λ p, if decide (p.2 = l) then Some (p.1, map_get freqWord p.1) else None) ps.

(** Two corpora that differ at most in the numbering of their words. *)
Definition same_by_word (d1 d2 : Bow) : Prop :=
  Note d1 = Note d2 ∧ LabelNames d1 = LabelNames d2 ∧ LabelCount d1 = LabelCount d2
  ∧ Words d1 = Words d2 ∧ PL d1 = PL d2 ∧ DocCount d1 = DocCount d2
  ∧ LabelDocCount d1 = LabelDocCount d2 ∧ LabelWordCount d1 = LabelWordCount d2
  ∧ WordCount d1 = WordCount d2
  ∧ (∀ word, is_Some (idxs d1 !! word) ↔ is_Some (idxs d2 !! word))
  ∧ (∀ word, WordDocCountOf word d1 = WordDocCountOf word d2)
  ∧ (∀ l word, LWF_of l word d1 = LWF_of l word d2).

(** ** Runs from [New] *)

Definition count_adds (ops : list op) : Z :=
  foldr (λ o n, match o with OpAdd _ _ _ _ => n + 1 | _ => n end) 0 ops.

(** An [Add] whose labels are a non-empty duplicate-free subset of
    [0, labelCount), or a [Predict]. *)
Definition training_op (labelCount : Z) (o : op) : Prop :=
  match o with
  | OpAdd _ _ _ labels =>
      labels ≠ [] ∧ NoDup labels ∧ Forall (λ l, 0 ≤ l < labelCount) labels
  | OpPredict _ _ => True
  | OpSave _ _ _ => False
  end.

(** An [Add] whose labels are a non-empty list of elements of
    [0, labelCount). *)
Definition labelled_add (labelCount : Z) (o : op) : Prop :=
  match o with
  | OpAdd _ _ _ labels => labels ≠ [] ∧ Forall (λ l, 0 ≤ l < labelCount) labels
  | _ => False
  end.

(** The guard of [UpdatePL] holds for every label. *)
Definition guard_ok (dd : Bow) : Prop :=
  ∀ l n, slice_get (LabelDocCount dd) l = Some n →
         int_add n 1 ≤ int_add (DocCount dd) (LabelCount dd).

(** Per label, [LabelWordCount] is the sum of the word counts, as an [int]. *)
Definition sums_agree (lwf : gmap Z (gmap Z Z)) (lwc : gmap Z Z) : Prop :=
  ∀ l, wrap (map_sum (default ∅ (lwf !! l))) = map_get lwc l.

(** [n] documents were added, and no label has more than [n] of them. *)
Definition counted (n : Z) (dd : Bow) : Prop :=
  DocCount dd = n ∧ ∀ i c, LabelDocCount dd !! i = Some c → 0 ≤ c ≤ n.

(** ** Load

    [ioutil.ReadFile] and [json.Unmarshal] are parameters: the file system
    gives the bytes of a file or an error, the decoder fills a zero [Bow]
    from them or reports an error. *)

(** The loop [for idx, word := range d.Words { d.idxs[word] = idx }], from
    the index [idx] on. *)
Fixpoint Load_idxs (idx : Z) (ws : list string) (m : gmap string Z) : gmap string Z :=
  match ws with
  | [] => m
  | word :: ws' => Load_idxs (idx + 1) ws' (<[word := idx]> m)
  end.

Inductive load_error :=
  | ReadFileError     (* err of ioutil.ReadFile *)
  | UnmarshalError.   (* err of json.Unmarshal *)

Definition Load (readFile : string → option string) (unmarshal : string → option Bow)
    (inFile : string) : load_error + Bow :=
  match readFile inFile with
  | None => inl ReadFileError
  | Some bytes =>
      match unmarshal bytes with
      | None => inl UnmarshalError
      | Some d => inr (set_idxs (Load_idxs 0 (Words d) ∅) d)
      end
  end.

(** ** Orders on the posterior

    [>] on the values of [pld] behaves as on numbers (no value is NaN):
    it is irreflexive and transitive, and a value above another is above
    or below any third. *)
Definition ordered_values (pld : list float64) : Prop :=
  (∀ x, x ∈ pld → fgt x x = false)
  ∧ (∀ x y z, x ∈ pld → y ∈ pld → z ∈ pld →
       fgt x y = true → fgt y z = true → fgt x z = true)
  ∧ (∀ x y z, x ∈ pld → y ∈ pld → z ∈ pld →
       fgt x y = true → fgt x z = true ∨ fgt z y = true).

End Bayesbow.

(** ** A corpus to run the model on *)

Definition spam_ham : @Bow symbolic_float := New "" ["spam"; "ham"].

(** Two documents, a prediction and a save. *)
Definition two_adds : list op :=
  [OpAdd canonical_iter "d1" ["buy"; "now"; "buy"] [0];
   OpAdd canonical_iter "d2" ["hello"; "friend"] [1]].

Definition session : list op :=
  two_adds ++ [OpPredict canonical_iter ["buy"; "cheap"]; OpSave canonical_iter "bow.json" true].

Definition trained : @Bow symbolic_float :=
  final_state (run makeDefaultConfig two_adds spam_ham).

(** Three labels, of which the last two have one document each, with the
    same word: their posteriors tie. *)
Definition tied : @Bow rational_float :=
  final_state (run makeDefaultConfig
                 [OpAdd canonical_iter "d1" ["cheap"] [1];
                  OpAdd canonical_iter "d2" ["cheap"] [2]]
                 (New "" ["ham"; "spam"; "scam"])).

(** The claim that [Add] rejects its input before it changes the receiver. *)
Definition Add_rejects_unchanged `{FL : Float64} (conf : Config) (it : MapIter)
    (id : string) (words : list string) (labels : list Z) (dd : Bow) : Prop :=
  ∃ p, Add conf it id words labels dd = Panic p dd.

(** The claim that the order of the tokens of a document does not matter. *)
Definition Add_ignores_order `{FL : Float64} (conf : Config) (it : MapIter)
    (id : string) (words words' : list string) (labels : list Z) (dd : Bow) : Prop :=
  words ≡ₚ words' →
  Add conf it id words labels dd = Add conf it id words' labels dd.

(** * Properties *)

Section Properties.
Context {FL : Float64}.
Variable conf : Config.
Implicit Types (dd : Bow) (it : MapIter) (labels : list Z) (words : list string).

(** ** Integer arithmetic *)

Lemma wrap_range z : int_min ≤ wrap z ≤ int_max.
Proof.
  unfold wrap, int_min, int_max.
  pose proof (Z.mod_pos_bound (z + 2 ^ 63) (2 ^ 64)). lia.
Qed.

Lemma wrap_small z : int_min ≤ z ≤ int_max → wrap z = z.
Proof.
  unfold wrap, int_min, int_max. intros Hz.
  rewrite Z.mod_small; lia.
Qed.

Lemma wrap_add_l a b : wrap (wrap a + b) = wrap (a + b).
Proof.
  unfold wrap. f_equal.
  replace ((a + 2 ^ 63) mod 2 ^ 64 - 2 ^ 63 + b + 2 ^ 63)
    with ((a + 2 ^ 63) mod 2 ^ 64 + b) by lia.
  rewrite Zplus_mod_idemp_l. f_equal. lia.
Qed.

Lemma wrap_add_r a b : wrap (a + wrap b) = wrap (a + b).
Proof. rewrite (Z.add_comm a), wrap_add_l. f_equal. lia. Qed.

Lemma int_add_assoc_wrap a b c : int_add (int_add a b) c = wrap (a + b + c).
Proof. unfold int_add. apply wrap_add_l. Qed.

Lemma wrap_add_mul x c a b : wrap a = wrap b → wrap (x + c * a) = wrap (x + c * b).
Proof.
  unfold wrap. intros H.
  assert ((a + 2 ^ 63) mod 2 ^ 64 = (b + 2 ^ 63) mod 2 ^ 64) as H' by lia.
  assert (a mod 2 ^ 64 = b mod 2 ^ 64) as Hab.
  { replace a with ((a + 2 ^ 63) - 2 ^ 63) by lia.
    replace b with ((b + 2 ^ 63) - 2 ^ 63) by lia.
    rewrite <- (Zminus_mod_idemp_l (a + 2 ^ 63)), <- (Zminus_mod_idemp_l (b + 2 ^ 63)).
    by rewrite H'. }
  f_equal.
  replace (x + c * a + 2 ^ 63) with ((x + 2 ^ 63) + c * a) by lia.
  replace (x + c * b + 2 ^ 63) with ((x + 2 ^ 63) + c * b) by lia.
  rewrite (Z.add_mod _ (c * a)), (Z.add_mod _ (c * b)) by lia.
  rewrite (Z.mul_mod c a), (Z.mul_mod c b) by lia. by rewrite Hab.
Qed.

(** ** Map updates *)

Lemma map_get_bump `{Countable K} (m : gmap K Z) k d k' :
  map_get (bump m k d) k' = if decide (k = k') then int_add (map_get m k) d else map_get m k'.
Proof.
  unfold map_get, bump. rewrite lookup_insert. by destruct (decide (k = k')).
Qed.

Lemma bump_comm `{Countable K} (m : gmap K Z) k d k' d' :
  bump (bump m k d) k' d' = bump (bump m k' d') k d.
Proof.
  destruct (decide (k = k')) as [->|Hne].
  - unfold bump at 1 3. rewrite !map_get_bump, !decide_True by done.
    unfold bump. rewrite !insert_insert_eq. f_equal.
    rewrite !int_add_assoc_wrap. f_equal. lia.
  - unfold bump at 1 3. rewrite !map_get_bump.
    rewrite decide_False by done. rewrite (decide_False (P := k' = k)) by done.
    unfold bump. by rewrite insert_insert_ne.
Qed.

Lemma bump_list_app `{Countable K} (m : gmap K Z) us vs :
  bump_list m (us ++ vs) = bump_list (bump_list m us) vs.
Proof. apply foldl_app. Qed.

Lemma bump_list_perm `{Countable K} (m : gmap K Z) us vs :
  us ≡ₚ vs → bump_list m us = bump_list m vs.
Proof.
  intros Hp. revert m. induction Hp as [|u us vs _ IH|u v us|us vs ws _ IH1 _ IH2]; intros m.
  - done.
  - apply IH.
  - unfold bump_list. simpl. by rewrite bump_comm.
  - by rewrite IH1.
Qed.

Lemma incr_of_cons `{Countable K} (k : K) u us :
  incr_of k (u :: us) = (if decide (u.1 = k) then u.2 else 0) + incr_of k us.
Proof.
  change (incr_of k (u :: us))
    with (if decide (u.1 = k) then u.2 + incr_of k us else incr_of k us).
  case_decide; lia.
Qed.

Lemma incr_of_app `{Countable K} (k : K) us vs :
  incr_of k (us ++ vs) = incr_of k us + incr_of k vs.
Proof.
  induction us as [|u us IH]; simpl; [done|]. rewrite IH. case_decide; lia.
Qed.

Lemma incr_of_notin `{Countable K} (k : K) us : k ∉ us.*1 → incr_of k us = 0.
Proof.
  induction us as [|u us IH]; simpl; [done|]. intros Hk.
  apply not_elem_of_cons in Hk as [Hne Hk]. rewrite decide_False by done. auto.
Qed.

Lemma bump_list_lookup `{Countable K} (m : gmap K Z) us k :
  bump_list m us !! k =
  if decide (k ∈ us.*1) then Some (wrap (map_get m k + incr_of k us)) else m !! k.
Proof.
  revert m. induction us as [|u us IH]; intros m.
  - case_decide as Hin; [by apply elem_of_nil in Hin|done].
  - destruct u as [k' d].
    change (bump_list m ((k', d) :: us)) with (bump_list (bump m k' d) us).
    rewrite IH, map_get_bump. cbn [fmap list_fmap incr_of foldr fst snd].
    fold (incr_of k us).
    destruct (decide (k' = k)) as [->|E].
    + rewrite (decide_True (P := k ∈ k :: us.*1)) by left.
      unfold int_add. case_decide as Hin.
      * rewrite wrap_add_l. do 2 f_equal. lia.
      * rewrite (incr_of_notin k us Hin). unfold bump. rewrite lookup_insert_eq.
        unfold int_add. do 2 f_equal. lia.
    + case_decide as Hin.
      * rewrite decide_True by (by right). done.
      * rewrite decide_False.
        -- unfold bump. by rewrite lookup_insert_ne.
        -- intros [?|?]%elem_of_cons; congruence.
Qed.

Lemma map_get_bump_list `{Countable K} (m : gmap K Z) us k :
  map_get (bump_list m us) k =
  if decide (k ∈ us.*1) then wrap (map_get m k + incr_of k us) else map_get m k.
Proof. unfold map_get at 1. rewrite bump_list_lookup. by case_decide. Qed.

(** ** New *)

Lemma len_seqZ_0 n : 0 ≤ n → len (seqZ 0 n) = n.
Proof. intros Hn. unfold len. rewrite length_seqZ. lia. Qed.

Lemma foldl_insert_empty_lookup (ls : list Z) (m : gmap Z (gmap Z Z)) l :
  l ∈ ls → foldl (λ m labelID, <[labelID := ∅]> m) m ls !! l = Some ∅.
Proof.
  revert m. induction ls as [|x ls IH]; intros m Hl; [by apply elem_of_nil in Hl|].
  simpl. destruct (decide (l ∈ ls)) as [Hin|Hnin]; [by apply IH|].
  apply elem_of_cons in Hl as [->|?]; [|done].
  clear IH. revert m. induction ls as [|y ls IH]; intros m; simpl.
  - apply lookup_insert_eq.
  - apply not_elem_of_cons in Hnin as [Hne Hnin].
    rewrite insert_insert_ne by done. by apply IH.
Qed.

Lemma New_wf note labelNames : Bow_wf (New note labelNames).
Proof.
  assert (0 ≤ len labelNames) by (unfold len; lia).
  unfold Bow_wf, New, in_range. simpl. repeat split.
  - unfold len at 1. rewrite length_fmap. by apply len_seqZ_0.
  - unfold len at 1. rewrite length_fmap. by apply len_seqZ_0.
  - intros l Hl. rewrite foldl_insert_empty_lookup; [eauto|].
    apply elem_of_seqZ. lia.
Qed.

(** ** Loops *)

Lemma for_each_app {X} (body : X → Bow → exec unit) xs ys dd :
  for_each body (xs ++ ys) dd =
  match for_each body xs dd with
  | Ret _ dd' => for_each body ys dd'
  | Panic p dd' => Panic p dd'
  end.
Proof.
  revert dd. induction xs as [|x xs IH]; intros dd; simpl; [done|].
  destruct (body x dd); [apply IH|done].
Qed.

Lemma for_each_fmap {X Y} (g : X → Y) (body : Y → Bow → exec unit) xs dd :
  for_each body (g <$> xs) dd = for_each (λ x, body (g x)) xs dd.
Proof.
  revert dd. induction xs as [|x xs IH]; intros dd; simpl; [done|].
  destruct (body (g x) dd); [apply IH|done].
Qed.

Lemma for_each_nested (body : Z → Z → Bow → exec unit) xs ys dd :
  for_each (λ x, for_each (body x) ys) xs dd =
  for_each (λ p, body p.1 p.2) (visits xs ys) dd.
Proof.
  revert dd. induction xs as [|x xs IH]; intros dd; [done|].
  unfold visits. simpl. rewrite for_each_app, for_each_fmap. simpl.
  destruct (for_each (body x) ys dd); [apply IH|done].
Qed.

(** A property kept by every iteration holds when the loop ends, however it
    ends. *)
Lemma for_each_final {X} (P : Bow → Prop) (body : X → Bow → exec unit) xs dd :
  (∀ x dd, P dd → P (final_state (body x dd))) →
  P dd → P (final_state (for_each body xs dd)).
Proof.
  intros Hbody. revert dd. induction xs as [|x xs IH]; intros dd Hdd; simpl; [done|].
  specialize (Hbody x dd Hdd). destruct (body x dd); simpl in *; auto.
Qed.

Lemma for_each_final_elem {X} (P : Bow → Prop) (body : X → Bow → exec unit) xs dd :
  (∀ x dd, x ∈ xs → P dd → P (final_state (body x dd))) →
  P dd → P (final_state (for_each body xs dd)).
Proof.
  revert dd. induction xs as [|x xs IH]; intros dd Hbody Hdd; simpl; [done|].
  pose proof (Hbody x dd (list_elem_of_here _ _) Hdd) as Hx.
  destruct (body x dd); simpl in *; [|done].
  apply IH; [|done]. intros x' dd' Hx'. apply Hbody. by right.
Qed.

(** ** The counting loop of [Add] *)

Lemma Add_counts_nil freqWord dd : Add_counts freqWord [] dd = dd.
Proof. by destruct dd. Qed.

Lemma Add_counts_app freqWord ps qs dd :
  Add_counts freqWord (ps ++ qs) dd = Add_counts freqWord qs (Add_counts freqWord ps dd).
Proof.
  unfold Add_counts. simpl. rewrite !fmap_app, !bump_list_app, foldl_app. done.
Qed.

Lemma Add_count_ok freqWord wordID labelID dd :
  is_Some (LWF dd !! labelID) →
  Add_count freqWord wordID labelID dd = Ret tt (Add_counts freqWord [(wordID, labelID)] dd).
Proof.
  intros [m Hm]. unfold Add_count, Add_counts, LWF_bump, bump_list. simpl.
  by rewrite Hm.
Qed.

Lemma Add_count_nil freqWord wordID labelID dd :
  LWF dd !! labelID = None →
  Add_count freqWord wordID labelID dd =
  Panic NilMapWrite (set_WordDocCount (bump (WordDocCount dd) wordID 1) dd).
Proof. intros Hm. unfold Add_count. simpl. by rewrite Hm. Qed.

Lemma LWF_bump_dom freqWord lwf ps labelID :
  is_Some (lwf !! labelID) → is_Some (foldl (LWF_bump freqWord) lwf ps !! labelID).
Proof.
  revert lwf. induction ps as [|p ps IH]; intros lwf Hl; simpl; [done|].
  apply IH. unfold LWF_bump. rewrite lookup_insert_is_Some.
  destruct (decide (p.2 = labelID)); auto.
Qed.

Lemma for_each_Add_count_ok freqWord ps dd :
  (∀ p, p ∈ ps → is_Some (LWF dd !! p.2)) →
  for_each (λ p, Add_count freqWord p.1 p.2) ps dd = Ret tt (Add_counts freqWord ps dd).
Proof.
  revert dd. induction ps as [|p ps IH]; intros dd Hps; simpl.
  - by rewrite Add_counts_nil.
  - rewrite Add_count_ok by (apply Hps; left).
    rewrite IH.
    + by rewrite <- Add_counts_app.
    + intros q Hq. simpl. apply (LWF_bump_dom _ _ [_]). apply Hps. by right.
Qed.

(** ** The label loop of [Add] *)

Lemma slice_get_Some {A} (s : list A) i :
  0 ≤ i < len s → ∃ x, slice_get s i = Some x ∧ s !! Z.to_nat i = Some x.
Proof.
  unfold len. intros Hi. unfold slice_get. rewrite decide_True by lia.
  destruct (lookup_lt_is_Some_2 s (Z.to_nat i)) as [x Hx]; [lia|]. eauto.
Qed.

Lemma slice_get_None {A} (s : list A) i : ¬ (0 ≤ i < len s) → slice_get s i = None.
Proof.
  unfold len. intros Hi. unfold slice_get. case_decide; [|done].
  apply lookup_ge_None. lia.
Qed.

Lemma len_LabelDocCount_bump s labelID : len (LabelDocCount_bump s labelID) = len s.
Proof. unfold len, LabelDocCount_bump. by rewrite length_insert. Qed.

Lemma len_foldl_LabelDocCount_bump s labels :
  len (foldl LabelDocCount_bump s labels) = len s.
Proof.
  revert s. induction labels as [|l labels IH]; intros s; simpl; [done|].
  by rewrite IH, len_LabelDocCount_bump.
Qed.

Lemma Add_label_ok labelID dd :
  0 ≤ labelID < len (LabelDocCount dd) →
  Add_label labelID dd =
  Ret tt (set_LabelDocCount (LabelDocCount_bump (LabelDocCount dd) labelID) dd).
Proof.
  intros Hl. unfold Add_label, LabelDocCount_bump.
  destruct (slice_get_Some _ _ Hl) as (n & -> & ->). simpl.
  unfold slice_set. by rewrite decide_True.
Qed.

Lemma Add_label_out labelID dd :
  ¬ (0 ≤ labelID < len (LabelDocCount dd)) → Add_label labelID dd = Panic IndexOutOfRange dd.
Proof. intros Hl. unfold Add_label. by rewrite slice_get_None. Qed.

Lemma for_each_Add_label_ok labels dd :
  (∀ l, l ∈ labels → 0 ≤ l < len (LabelDocCount dd)) →
  for_each Add_label labels dd =
  Ret tt (set_LabelDocCount (foldl LabelDocCount_bump (LabelDocCount dd) labels) dd).
Proof.
  revert dd. induction labels as [|l labels IH]; intros dd Hl; simpl.
  - by destruct dd.
  - rewrite Add_label_ok by (apply Hl; left). rewrite IH; [done|].
    intros l' Hl'. simpl. rewrite len_LabelDocCount_bump. apply Hl. by right.
Qed.

(** ** The scan of a document *)

(** The scan only touches [idxs] and [WordCount]. *)
Lemma resolve_frame word dd :
  resolve word dd = set_WordCount (WordCount (resolve word dd)) (set_idxs (idxs (resolve word dd)) dd).
Proof. unfold resolve. destruct (idxs dd !! word); by destruct dd. Qed.

Lemma scan_word_eq dd seq freqWord word :
  scan_word conf (dd, seq, freqWord) word =
  if skipped conf word then (dd, seq, freqWord)
  else (resolve word dd, seq ++ [map_get (idxs (resolve word dd)) word],
        bump freqWord (map_get (idxs (resolve word dd)) word) 1).
Proof. done. Qed.

Lemma foldl_scan_word_frame_ex words dd seq freqWord :
  ∃ wc ix, (foldl (scan_word conf) (dd, seq, freqWord) words).1.1
           = set_WordCount wc (set_idxs ix dd).
Proof.
  revert dd seq freqWord. induction words as [|w words IH]; intros dd seq freqWord.
  - exists (WordCount dd), (idxs dd). by destruct dd.
  - cbn [foldl]. rewrite scan_word_eq. destruct (skipped conf w); [apply IH|].
    destruct (IH (resolve w dd) (seq ++ [map_get (idxs (resolve w dd)) w])
                (bump freqWord (map_get (idxs (resolve w dd)) w) 1)) as (wc & ix & ->).
    exists wc, ix. rewrite (resolve_frame w dd). by destruct dd.
Qed.

Lemma foldl_scan_word_frame words dd seq freqWord :
  let dd' := (foldl (scan_word conf) (dd, seq, freqWord) words).1.1 in
  dd' = set_WordCount (WordCount dd') (set_idxs (idxs dd') dd).
Proof.
  destruct (foldl_scan_word_frame_ex words dd seq freqWord) as (wc & ix & E).
  simpl. by rewrite E.
Qed.

Lemma scan_frame words dd :
  let dd' := (scan conf words dd).1.1 in
  dd' = set_WordCount (WordCount dd') (set_idxs (idxs dd') dd).
Proof. apply foldl_scan_word_frame. Qed.

Lemma resolve_subseteq word dd : idxs dd ⊆ idxs (resolve word dd).
Proof.
  unfold resolve. destruct (idxs dd !! word) eqn:E; [done|].
  simpl. by apply insert_subseteq.
Qed.

Lemma resolve_is_Some word dd : is_Some (idxs (resolve word dd) !! word).
Proof.
  unfold resolve. destruct (idxs dd !! word) eqn:E; [by rewrite E|].
  simpl. rewrite lookup_insert_eq. eauto.
Qed.

Lemma foldl_scan_word_subseteq words dd seq freqWord :
  idxs dd ⊆ idxs (foldl (scan_word conf) (dd, seq, freqWord) words).1.1.
Proof.
  revert dd seq freqWord. induction words as [|w words IH]; intros dd seq freqWord; [done|].
  cbn [foldl]. rewrite scan_word_eq. destruct (skipped conf w); [apply IH|].
  etrans; [apply (resolve_subseteq w)|apply IH].
Qed.

Lemma scan_subseteq words dd : idxs dd ⊆ idxs (scan conf words dd).1.1.
Proof. apply foldl_scan_word_subseteq. Qed.

Lemma foldl_scan_word_resolves words dd seq freqWord word :
  word ∈ words → skipped conf word = false →
  is_Some (idxs (foldl (scan_word conf) (dd, seq, freqWord) words).1.1 !! word).
Proof.
  revert dd seq freqWord. induction words as [|w words IH]; intros dd seq freqWord Hin Hsk.
  - by apply elem_of_nil in Hin.
  - cbn [foldl]. rewrite scan_word_eq. apply elem_of_cons in Hin as [->|Hin].
    + rewrite Hsk. destruct (resolve_is_Some w dd) as [i Hi].
      exists i. eapply lookup_weaken; [exact Hi|apply foldl_scan_word_subseteq].
    + destruct (skipped conf w); by apply IH.
Qed.

Lemma scan_resolves words dd word :
  word ∈ words → skipped conf word = false →
  is_Some (idxs (scan conf words dd).1.1 !! word).
Proof. apply foldl_scan_word_resolves. Qed.

Lemma elem_of_visits wordIDs labels w l :
  (w, l) ∈ visits wordIDs labels ↔ w ∈ wordIDs ∧ l ∈ labels.
Proof.
  unfold visits. rewrite list_elem_of_bind. split.
  - intros (w' & Hin & Hw). apply list_elem_of_fmap in Hin as (l' & [= -> ->] & Hin). done.
  - intros [Hw Hl]. exists w. split; [|done]. apply list_elem_of_fmap. eauto.
Qed.

Lemma visits_nil_r wordIDs : visits wordIDs [] = [].
Proof. unfold visits. by induction wordIDs. Qed.

(** ** [Add] with accepted labels *)

Lemma Add_ok it id words labels dd :
  (∀ l, l ∈ labels → is_Some (LWF dd !! l) ∧ 0 ≤ l < len (LabelDocCount dd)) →
  Add conf it id words labels dd = Ret tt (Add_done conf it words labels dd).
Proof.
  intros Hl. unfold Add, Add_done.
  pose proof (scan_frame words dd) as Hfr.
  destruct (scan conf words dd) as [[dd1 seq] freqWord]. simpl in Hfr.
  unfold bind. rewrite for_each_nested, for_each_Add_count_ok.
  - rewrite for_each_Add_label_ok; [done|].
    intros l Hin. simpl. rewrite Hfr. simpl. by apply Hl.
  - intros [w l] Hin. simpl. rewrite Hfr. simpl. apply Hl.
    unfold visits in Hin. apply list_elem_of_bind in Hin as (w' & Hin & _).
    apply list_elem_of_fmap in Hin as (l' & [= _ ->] & Hin). done.
Qed.

(** The fields of the receiver after an [Add] that returns. *)

Lemma Add_done_frame it words labels dd :
  let dd' := Add_done conf it words labels dd in
  let dd1 := (scan conf words dd).1.1 in
  Note dd' = Note dd ∧ LabelNames dd' = LabelNames dd ∧ LabelCount dd' = LabelCount dd
  ∧ Words dd' = Words dd ∧ PL dd' = PL dd
  ∧ idxs dd' = idxs dd1 ∧ WordCount dd' = WordCount dd1
  ∧ DocCount dd' = int_add (DocCount dd) 1.
Proof.
  pose proof (scan_frame words dd) as Hfr. unfold Add_done.
  destruct (scan conf words dd) as [[dd1 seq] freqWord]. simpl in *.
  rewrite Hfr. by destruct dd.
Qed.

Lemma Add_done_counts it words labels dd :
  let dd' := Add_done conf it words labels dd in
  let freqWord := (scan conf words dd).2 in
  let ps := visits (range_int it 0 freqWord).*1 labels in
  WordDocCount dd' = bump_list (WordDocCount dd) ((λ p, (p.1, 1)) <$> ps)
  ∧ LWF dd' = foldl (LWF_bump freqWord) (LWF dd) ps
  ∧ LabelWordCount dd' =
      bump_list (LabelWordCount dd) ((λ p, (p.2, map_get freqWord p.1)) <$> ps)
  ∧ LabelDocCount dd' = foldl LabelDocCount_bump (LabelDocCount dd) labels.
Proof.
  pose proof (scan_frame words dd) as Hfr. unfold Add_done.
  destruct (scan conf words dd) as [[dd1 seq] freqWord]. simpl in *.
  rewrite Hfr. by destruct dd.
Qed.

(** The tally of the scan. *)

Lemma foldl_scan_word_freq words dd seq freqWord :
  let r := foldl (scan_word conf) (dd, seq, freqWord) words in
  ∃ new, r.1.2 = seq ++ new ∧ r.2 = bump_list freqWord ((λ idx, (idx, 1)) <$> new).
Proof.
  revert dd seq freqWord. induction words as [|w words IH]; intros dd seq freqWord.
  - exists []. simpl. by rewrite app_nil_r.
  - cbn [foldl]. rewrite scan_word_eq. destruct (skipped conf w); [apply IH|].
    destruct (IH (resolve w dd) (seq ++ [map_get (idxs (resolve w dd)) w])
                (bump freqWord (map_get (idxs (resolve w dd)) w) 1)) as (new & E1 & E2).
    exists (map_get (idxs (resolve w dd)) w :: new). simpl in *.
    rewrite E1, E2, <- app_assoc. done.
Qed.

Lemma scan_freq words dd : (scan conf words dd).2 = freq_of (scan conf words dd).1.2.
Proof.
  destruct (foldl_scan_word_freq words dd [] ∅) as (new & E1 & E2).
  unfold scan, freq_of. simpl in *. by rewrite E1, E2.
Qed.

Lemma fst_ones {A} (seq : list A) : ((λ idx, (idx, 1)) <$> seq).*1 = seq.
Proof. induction seq as [|i seq IH]; [done|]. cbn. by f_equal. Qed.

Lemma freq_of_is_Some seq k : is_Some (freq_of seq !! k) ↔ k ∈ seq.
Proof.
  unfold freq_of. rewrite bump_list_lookup, fst_ones.
  case_decide; [naive_solver|]. rewrite lookup_empty. split; [by intros []|done].
Qed.

(** The keys a [range] visits are the keys of the map, each once. *)

Lemma elem_of_range_int it n (m : gmap Z Z) k :
  k ∈ (range_int it n m).*1 ↔ is_Some (m !! k).
Proof.
  rewrite (range_int_perm it n m). rewrite list_elem_of_fmap. split.
  - intros ([k' v] & -> & Hin). apply elem_of_map_to_list in Hin. eauto.
  - intros [v Hv]. exists (k, v). split; [done|]. by apply elem_of_map_to_list.
Qed.

Lemma NoDup_range_int it n (m : gmap Z Z) : NoDup (range_int it n m).*1.
Proof. rewrite (range_int_perm it n m). apply NoDup_fst_map_to_list. Qed.

Lemma wf_accepts dd labels :
  Bow_wf dd → Forall (in_range dd) labels →
  ∀ l, l ∈ labels → is_Some (LWF dd !! l) ∧ 0 ≤ l < len (LabelDocCount dd).
Proof.
  intros (_ & Hldc & _ & Hlwf) Hall l Hl.
  rewrite Forall_forall in Hall. specialize (Hall l Hl).
  split; [by apply Hlwf|]. rewrite Hldc. exact Hall.
Qed.

(** What the counting loop adds to [WordDocCount]. *)

Lemma incr_of_row (w k : Z) labels :
  incr_of k ((λ p : Z * Z, (p.1, 1)) <$> ((λ l, (w, l)) <$> labels))
  = if decide (w = k) then len labels else 0.
Proof.
  unfold len. induction labels as [|l labels IH]; cbn.
  - by case_decide.
  - fold (incr_of k ((λ p : Z * Z, (p.1, 1)) <$> ((λ l, (w, l)) <$> labels))).
    rewrite IH. case_decide; lia.
Qed.

Lemma incr_of_visits_fst wordIDs labels k :
  NoDup wordIDs →
  incr_of k ((λ p, (p.1, 1)) <$> visits wordIDs labels)
  = if decide (k ∈ wordIDs) then len labels else 0.
Proof.
  induction 1 as [|w ks Hw Hnd IH].
  - rewrite decide_False; [done|]. apply not_elem_of_nil.
  - unfold visits. cbn [mbind list_bind]. fold (visits ks labels).
    rewrite fmap_app, incr_of_app, IH, incr_of_row.
    destruct (decide (w = k)) as [->|Hne].
    + rewrite (decide_True (P := k ∈ k :: ks)) by left.
      rewrite (decide_False (P := k ∈ ks)) by done. lia.
    + destruct (decide (k ∈ ks)).
      * rewrite (decide_True (P := k ∈ w :: ks)) by (by right). lia.
      * rewrite (decide_False (P := k ∈ w :: ks)); [lia|].
        intros [?|?]%elem_of_cons; congruence.
Qed.

Lemma elem_of_visits_fst wordIDs labels k :
  k ∈ ((λ p : Z * Z, (p.1, 1)) <$> visits wordIDs labels).*1 ↔ k ∈ wordIDs ∧ labels ≠ [].
Proof.
  rewrite <- list_fmap_compose, list_elem_of_fmap. split.
  - intros ([w l] & -> & Hin). apply elem_of_visits in Hin as [Hw Hl].
    split; [done|]. intros ->. by apply elem_of_nil in Hl.
  - intros [Hk Hl]. destruct labels as [|l labels]; [done|].
    exists (k, l). split; [done|]. apply elem_of_visits. split; [done|left].
Qed.

(** ** The document-label count of a word *)

(** C1. On a well-formed corpus, [Add] with a non-empty list of in-range
    labels returns, and the [WordDocCount] of every word ID of the scanned
    document has grown by [len(labels)] (in [int] arithmetic, and exactly
    when the sum fits an [int]): once per label of the document, not once
    per document. The counters of the other word IDs are unchanged. *)
Theorem Add_WordDocCount it id words labels dd :
  Bow_wf dd → Forall (in_range dd) labels → labels ≠ [] →
  ∃ dd',
    Add conf it id words labels dd = Ret tt dd'
    ∧ ∀ wordID,
        let old := map_get (WordDocCount dd) wordID in
        let new := map_get (WordDocCount dd') wordID in
        (wordID ∈ (scan conf words dd).1.2 →
           new = wrap (old + len labels)
           ∧ (int_min ≤ old → old + len labels ≤ int_max → new = old + len labels))
        ∧ (wordID ∉ (scan conf words dd).1.2 → new = old).
Proof.
  intros Hwf Hall Hne. eexists. split.
  { apply Add_ok. by apply wf_accepts. }
  intros wordID. simpl.
  destruct (Add_done_counts it words labels dd) as (-> & _).
  rewrite map_get_bump_list.
  assert (wordID ∈ (range_int it 0 (scan conf words dd).2).*1
          ↔ wordID ∈ (scan conf words dd).1.2) as Hkeys.
  { by rewrite elem_of_range_int, scan_freq, freq_of_is_Some. }
  split.
  - intros Hin. rewrite decide_True by (apply elem_of_visits_fst; by rewrite Hkeys).
    rewrite incr_of_visits_fst by apply NoDup_range_int.
    rewrite decide_True by (by rewrite Hkeys).
    split; [done|]. intros Hlo Hhi. apply wrap_small. unfold len in *. lia.
  - intros Hnin. rewrite decide_False; [done|].
    rewrite elem_of_visits_fst, Hkeys. tauto.
Qed.

(** ** Add with a label out of range *)

Lemma for_each_panic_kind {X} (Q : panic → Prop) (body : X → Bow → exec unit) xs dd p dd' :
  (∀ x dd p dd', body x dd = Panic p dd' → Q p) →
  for_each body xs dd = Panic p dd' → Q p.
Proof.
  intros Hbody. revert dd. induction xs as [|x xs IH]; intros dd; simpl; [done|].
  destruct (body x dd) eqn:E; [apply IH|]. intros [= <- <-]. eauto.
Qed.

Lemma Add_count_counters_only freqWord wordID labelID dd0 dd :
  counters_only dd0 dd → counters_only dd0 (final_state (Add_count freqWord wordID labelID dd)).
Proof. intros Hdd. unfold Add_count. simpl. by destruct (LWF dd !! labelID). Qed.

Lemma Add_label_counters_only labelID dd0 dd :
  counters_only dd0 dd → counters_only dd0 (final_state (Add_label labelID dd)).
Proof.
  intros Hdd. unfold Add_label.
  destruct (slice_get (LabelDocCount dd) labelID); [|done].
  unfold slice_set. case_decide; [|done]. simpl.
  unfold counters_only in *. simpl. unfold len in *. rewrite length_insert. done.
Qed.

Lemma for_each_Add_label_out labels dd :
  Exists (λ l, ¬ (0 ≤ l < len (LabelDocCount dd))) labels →
  ∃ dd', for_each Add_label labels dd = Panic IndexOutOfRange dd'.
Proof.
  intros Hex. revert dd Hex. induction labels as [|l labels IH]; intros dd Hex.
  - by apply Exists_nil in Hex.
  - simpl. destruct (decide (0 ≤ l < len (LabelDocCount dd))) as [Hl|Hl].
    + rewrite Add_label_ok by done. apply IH. simpl. rewrite len_LabelDocCount_bump.
      apply Exists_cons in Hex as [Hex|Hex]; [done|exact Hex].
    + rewrite Add_label_out by done. eauto.
Qed.

(** C4 (amended). [Add] does not check its labels before it starts. On a
    well-formed corpus, a label out of range makes it fail, by the runtime
    panic of the write that the label indexes (an inner map of [LWF] that
    does not exist, or [LabelDocCount] out of range), and by then [DocCount]
    has been incremented and the vocabulary extended by the scan of the
    document; nothing is rolled back. *)
Theorem Add_out_of_range it id words labels dd :
  Bow_wf dd → Exists (λ l, ¬ in_range dd l) labels →
  ∃ p dd',
    Add conf it id words labels dd = Panic p dd'
    ∧ (p = NilMapWrite ∨ p = IndexOutOfRange)
    ∧ DocCount dd' = int_add (DocCount dd) 1
    ∧ idxs dd' = idxs (scan conf words dd).1.1
    ∧ WordCount dd' = WordCount (scan conf words dd).1.1
    ∧ Note dd' = Note dd ∧ LabelNames dd' = LabelNames dd
    ∧ LabelCount dd' = LabelCount dd ∧ Words dd' = Words dd ∧ PL dd' = PL dd.
Proof.
  intros (_ & Hldc & _) Hex. unfold Add.
  pose proof (scan_frame words dd) as Hfr.
  destruct (scan conf words dd) as [[dd1 seq] freqWord]. simpl in Hfr |- *.
  set (dd2 := set_DocCount (int_add (DocCount dd1) 1) dd1).
  assert (∀ dd3, counters_only dd2 dd3 →
    DocCount dd3 = int_add (DocCount dd) 1 ∧ idxs dd3 = idxs dd1
    ∧ WordCount dd3 = WordCount dd1 ∧ Note dd3 = Note dd
    ∧ LabelNames dd3 = LabelNames dd ∧ LabelCount dd3 = LabelCount dd
    ∧ Words dd3 = Words dd ∧ PL dd3 = PL dd) as Hout.
  { intros dd3 (-> & -> & -> & -> & -> & -> & -> & -> & _).
    unfold dd2. simpl. rewrite Hfr. by destruct dd. }
  assert (counters_only dd2 dd2) as H2 by done.
  unfold bind.
  set (loop := for_each _ _ dd2).
  assert (counters_only dd2 (final_state loop)) as H3.
  { apply for_each_final; [|done]. intros w dd3 Hdd3.
    apply for_each_final; [|done]. intros l dd4 Hdd4.
    by apply Add_count_counters_only. }
  assert (∀ p dd', loop = Panic p dd' → p = NilMapWrite) as Hkind.
  { intros p dd'. apply (for_each_panic_kind (λ p, p = NilMapWrite)).
    intros w dd3 p' dd3'. apply (for_each_panic_kind (λ p, p = NilMapWrite)).
    intros l dd4 p'' dd4'. unfold Add_count. simpl.
    destruct (LWF dd4 !! l); [done|]. by intros [= <- _]. }
  destruct loop as [[] dd3|p dd3] eqn:E.
  - simpl in H3.
    destruct (for_each_Add_label_out labels dd3) as [dd' Hp].
    { eapply Exists_impl; [exact Hex|]. intros l Hl.
      destruct H3 as (_ & _ & _ & _ & _ & _ & _ & _ & ->).
      unfold dd2. simpl. rewrite Hfr. simpl. by rewrite Hldc. }
    exists IndexOutOfRange, dd'. split; [done|]. split; [by right|].
    apply Hout.
    assert (counters_only dd2 (final_state (for_each Add_label labels dd3))) as H4.
    { apply for_each_final; [|done]. intros l dd4. apply Add_label_counters_only. }
    by rewrite Hp in H4.
  - exists p, dd3. split; [done|]. split; [left; eauto|]. by apply Hout.
Qed.

(** ** UpdatePL *)

Lemma PL_only_refl dd : PL_only dd dd.
Proof. split; [by destruct dd|done]. Qed.

Lemma UpdatePL_label_PL_only labelID dd0 dd :
  PL_only dd0 dd → PL_only dd0 (final_state (UpdatePL_label labelID dd)).
Proof.
  intros Hdd. unfold UpdatePL_label.
  destruct (slice_get (LabelDocCount dd) labelID); [|done].
  case_decide; [done|]. unfold slice_set. case_decide; [|done]. simpl.
  destruct Hdd as [E Hlen].
  split; [rewrite E; by destruct dd0|]. simpl. unfold len in *. by rewrite length_insert.
Qed.

Lemma UpdatePL_PL_only dd : PL_only dd (final_state (UpdatePL dd)).
Proof.
  unfold UpdatePL. apply for_each_final; [|apply PL_only_refl].
  intros l dd'. apply UpdatePL_label_PL_only.
Qed.

(** One iteration that neither fails nor takes the fatal branch. *)
Lemma UpdatePL_label_ok labelID n dd :
  slice_get (LabelDocCount dd) labelID = Some n →
  int_add n 1 ≤ int_add (DocCount dd) (LabelCount dd) →
  0 ≤ labelID < len (PL dd) →
  UpdatePL_label labelID dd
  = Ret tt (set_PL (<[Z.to_nat labelID := prior dd n]> (PL dd)) dd).
Proof.
  intros Hn Hle Hl. unfold UpdatePL_label. rewrite Hn.
  rewrite decide_False by lia. unfold slice_set. by rewrite decide_True.
Qed.

Lemma for_each_UpdatePL_label_ok ls dd :
  (∀ l, l ∈ ls → 0 ≤ l < len (PL dd)
      ∧ ∃ n, slice_get (LabelDocCount dd) l = Some n
             ∧ int_add n 1 ≤ int_add (DocCount dd) (LabelCount dd)) →
  for_each UpdatePL_label ls dd
  = Ret tt (set_PL
      (foldl (λ pl l, <[Z.to_nat l := prior dd (default 0 (slice_get (LabelDocCount dd) l))]> pl)
         (PL dd) ls) dd).
Proof.
  revert dd. induction ls as [|l ls IH]; intros dd Hls; simpl.
  - by destruct dd.
  - destruct (Hls l) as (Hl & n & Hn & Hle); [left|].
    rewrite (UpdatePL_label_ok l n) by done. rewrite IH.
    + simpl. rewrite Hn. done.
    + intros l' Hl'. simpl. unfold len. rewrite length_insert. apply Hls. by right.
Qed.

(** Writing [g l] at every index [l] of a slice, one after the other. *)
Lemma foldl_insert_seqZ {A} (g : Z → A) (s : list A) :
  foldl (λ pl l, <[Z.to_nat l := g l]> pl) s (seqZ 0 (len s))
  = g <$> seqZ 0 (len s).
Proof.
  assert (∀ (n : nat) (t : list A), (n ≤ length t)%nat →
    foldl (λ pl l, <[Z.to_nat l := g l]> pl) t (seqZ 0 (Z.of_nat n))
    = (g <$> seqZ 0 (Z.of_nat n)) ++ drop n t) as Hgen.
  { induction n as [|n IH]; intros t Hn.
    - simpl. by rewrite drop_0.
    - rewrite seqZ_S, foldl_snoc, IH, fmap_app by lia. simpl.
      rewrite Z.add_0_l, Nat2Z.id, <- app_assoc. simpl.
      assert (length (g <$> seqZ 0 (Z.of_nat n)) = n) as Hlen
        by (rewrite length_fmap, length_seqZ; lia).
      rewrite insert_app_r_alt by lia. rewrite Hlen, Nat.sub_diag.
      destruct (drop n t) as [|x t'] eqn:E.
      + apply (f_equal length) in E. rewrite length_drop in E. simpl in E. lia.
      + simpl. do 2 f_equal.
        replace (S n) with (n + 1)%nat by lia. by rewrite <- drop_drop, E. }
  unfold len. rewrite Hgen by done. by rewrite drop_all, app_nil_r.
Qed.

Lemma slice_get_seqZ_fmap {A} (g : Z → A) n l :
  0 ≤ l < n → slice_get (g <$> seqZ 0 n) l = Some (g l).
Proof.
  intros Hl. unfold slice_get. rewrite decide_True by lia.
  rewrite list_lookup_fmap, lookup_seqZ_lt by lia. simpl. f_equal. f_equal. lia.
Qed.

(** [UpdatePL] on a well-formed corpus whose counters pass the guard. *)
Lemma UpdatePL_ok dd :
  Bow_wf dd →
  (∀ l n, slice_get (LabelDocCount dd) l = Some n →
          int_add n 1 ≤ int_add (DocCount dd) (LabelCount dd)) →
  UpdatePL dd
  = Ret tt (set_PL ((λ l, prior dd (default 0 (slice_get (LabelDocCount dd) l)))
                      <$> seqZ 0 (LabelCount dd)) dd).
Proof.
  intros (_ & Hldc & Hpl & _) Hguard. unfold UpdatePL.
  rewrite for_each_UpdatePL_label_ok.
  - rewrite <- Hpl. by rewrite foldl_insert_seqZ.
  - intros l Hl%elem_of_seqZ. split; [lia|].
    destruct (slice_get_Some (LabelDocCount dd) l) as (n & Hn & _); [lia|].
    exists n. split; [done|]. by eapply Hguard.
Qed.

(** ** PLD *)

Lemma Forall2_slice_get {A} (s : list A) :
  Forall2 (λ l p, slice_get s l = Some p) (seqZ 0 (len s)) s.
Proof.
  apply Forall2_same_length_lookup_2.
  - rewrite length_seqZ. unfold len. lia.
  - intros i l p Hl Hp. apply lookup_seqZ in Hl as [-> _].
    unfold slice_get. rewrite decide_True by lia.
    rewrite Z.add_0_l, Nat2Z.id. done.
Qed.

Lemma foldl_PLD_label it dd wordFreq ls ps r sum :
  Forall2 (λ l p, slice_get (PL dd) l = Some p) ls ps →
  let score (lp : Z * float64) :=
    fexp (foldl fadd (flog lp.2)
            (PWL dd lp.1 <$> (range_int it (Z.to_nat lp.1) wordFreq).*1)) in
  foldl (PLD_label it dd wordFreq) (Some (r, sum)) ls
  = Some (r ++ (score <$> zip ls ps), foldl fadd sum (score <$> zip ls ps)).
Proof.
  intros Hall. revert r sum. induction Hall as [|l p ls ps Hp _ IH]; intros r sum; simpl.
  - by rewrite app_nil_r.
  - rewrite Hp, IH, <- app_assoc. simpl. rewrite !foldl_fmap. done.
Qed.

Lemma PL_only_wf dd0 dd : PL_only dd0 dd → Bow_wf dd0 → Bow_wf dd.
Proof.
  intros [E Hlen] (H1 & H2 & H3 & H4). rewrite E at 1. unfold Bow_wf, in_range.
  simpl. rewrite Hlen. done.
Qed.

Lemma PLD_final it wordFreq dd :
  final_state (PLD it wordFreq dd) = final_state (UpdatePL dd).
Proof.
  unfold PLD, bind. destruct (UpdatePL dd) as [[] dd'|p dd']; [|done]. simpl.
  case_decide; [done|].
  by destruct (foldl _ _ _) as [[r sum]|].
Qed.

(** [PLD] returns when [UpdatePL] does. *)
Lemma PLD_ok it wordFreq dd :
  Bow_wf dd → returns (UpdatePL dd) →
  PLD it wordFreq dd
  = Ret (PLD_spec (λ l, (range_int it (Z.to_nat l) wordFreq).*1) (final_state (UpdatePL dd)))
      (final_state (UpdatePL dd)).
Proof.
  intros Hwf Hret. pose proof (UpdatePL_PL_only dd) as Hpl.
  pose proof (PL_only_wf _ _ Hpl Hwf) as (Hlc & _ & Hlen & _).
  unfold PLD, bind. destruct (UpdatePL dd) as [[] dd'|p dd']; [|done]. simpl in *.
  rewrite decide_False by (unfold len in Hlc; lia).
  rewrite <- Hlen at 1.
  rewrite (foldl_PLD_label it dd' wordFreq _ _ _ _ (Forall2_slice_get (PL dd'))).
  simpl. unfold PLD_spec. by rewrite Hlen.
Qed.

(** C6. On a well-formed corpus on which [UpdatePL] returns, [PLD] returns
    the posterior of the specification for the refreshed priors: per label,
    ln(PL[l]) plus PWL(l, wordID) summed over the keys of [wordFreq] as
    [range] visits them, each key exactly once, then exponentiated and
    divided by the sum over the labels. The occurrence counts stored in
    [wordFreq] do not enter the result: a map with other counts, whose keys
    are visited in the same order, gives the same posterior. *)
Theorem PLD_scores it wordFreq dd :
  Bow_wf dd → returns (UpdatePL dd) →
  let dd' := final_state (UpdatePL dd) in
  let keys := λ l, (range_int it (Z.to_nat l) wordFreq).*1 in
  PLD it wordFreq dd = Ret (PLD_spec keys dd') dd'
  ∧ (∀ l, NoDup (keys l) ∧ ∀ wordID, wordID ∈ keys l ↔ is_Some (wordFreq !! wordID))
  ∧ (∀ it' wordFreq',
       (∀ l, (range_int it' (Z.to_nat l) wordFreq').*1 = keys l) →
       PLD it' wordFreq' dd = PLD it wordFreq dd).
Proof.
  intros Hwf Hret. simpl.
  assert (∀ it0 wf0, PLD it0 wf0 dd
    = Ret (PLD_spec (λ l, (range_int it0 (Z.to_nat l) wf0).*1) (final_state (UpdatePL dd)))
        (final_state (UpdatePL dd))) as Hpld
    by (intros it0 wf0; by apply PLD_ok).
  split; [apply Hpld|]. split.
  - intros l. split; [apply NoDup_range_int|]. intros w. apply elem_of_range_int.
  - intros it' wordFreq' Hsame. rewrite !Hpld. f_equal. unfold PLD_spec.
    assert (∀ lp : Z * float64,
      fexp (foldl fadd (flog lp.2)
              (PWL (final_state (UpdatePL dd)) lp.1
                 <$> (range_int it' (Z.to_nat lp.1) wordFreq').*1))
      = fexp (foldl fadd (flog lp.2)
              (PWL (final_state (UpdatePL dd)) lp.1
                 <$> (range_int it (Z.to_nat lp.1) wordFreq).*1))) as Hsc
      by (intros lp; by rewrite Hsame).
    simpl. by rewrite (list_fmap_ext _ _ _ (λ _ lp _, Hsc lp)).
Qed.

(** ** Predict *)

Lemma Predict_final it words dd :
  final_state (Predict conf it words dd) = final_state (UpdatePL (scan conf words dd).1.1).
Proof.
  unfold Predict. destruct (scan conf words dd) as [[dd1 seq] freqWord]. simpl.
  pose proof (PLD_final it freqWord dd1) as Hf. unfold bind.
  destruct (PLD it freqWord dd1) as [pld dd2|p dd2]; simpl in *; [|done].
  by destruct (foldl _ _ _).
Qed.

Lemma Predict_final_counts it words dd :
  let dd' := final_state (Predict conf it words dd) in
  DocCount dd' = DocCount dd ∧ LabelDocCount dd' = LabelDocCount dd
  ∧ LabelCount dd' = LabelCount dd.
Proof.
  simpl. rewrite Predict_final. pose proof (scan_frame words dd) as Hfr.
  destruct (UpdatePL_PL_only (scan conf words dd).1.1) as [E _].
  simpl in Hfr. rewrite E. simpl. by rewrite Hfr.
Qed.

(** C9. Whatever the corpus and the tokens, and however it ends, [Predict]
    leaves [DocCount], [LabelDocCount], [LWF], [LabelWordCount],
    [WordDocCount], [LabelNames] and [LabelCount] as they were. The
    vocabulary is the one the scan of the tokens leaves: known words keep
    their ID and every kept token has one. *)
Theorem Predict_frame it words dd :
  let dd' := final_state (Predict conf it words dd) in
  DocCount dd' = DocCount dd
  ∧ LabelDocCount dd' = LabelDocCount dd
  ∧ LWF dd' = LWF dd
  ∧ LabelWordCount dd' = LabelWordCount dd
  ∧ WordDocCount dd' = WordDocCount dd
  ∧ LabelNames dd' = LabelNames dd
  ∧ LabelCount dd' = LabelCount dd
  ∧ idxs dd' = idxs (scan conf words dd).1.1
  ∧ WordCount dd' = WordCount (scan conf words dd).1.1
  ∧ idxs dd ⊆ idxs dd'
  ∧ (∀ word, word ∈ words → skipped conf word = false → is_Some (idxs dd' !! word)).
Proof.
  simpl. rewrite Predict_final.
  pose proof (scan_frame words dd) as Hfr.
  pose proof (scan_subseteq words dd) as Hsub.
  pose proof (scan_resolves words dd) as Hres.
  destruct (UpdatePL_PL_only (scan conf words dd).1.1) as [E _].
  simpl in Hfr. rewrite E. simpl. rewrite Hfr. simpl. done.
Qed.

(** [Predict] returns when [UpdatePL] does. *)

Lemma foldl_Predict_max_Some (pld : list float64) ls m :
  0 ≤ m < len pld → (∀ l, l ∈ ls → 0 ≤ l < len pld) →
  is_Some (foldl (Predict_max pld) (Some m) ls).
Proof.
  revert m. induction ls as [|l ls IH]; intros m Hm Hls; simpl; [eauto|].
  destruct (slice_get_Some pld l) as (x & -> & _); [apply Hls; left|].
  destruct (slice_get_Some pld m) as (y & -> & _); [done|].
  apply IH; [|intros l' ?; apply Hls; by right].
  destruct (fgt x y); [apply Hls; left|done].
Qed.

Lemma len_PLD_spec keys dd :
  len (PL dd) = LabelCount dd → len (PLD_spec keys dd) = LabelCount dd.
Proof.
  intros Hlen. unfold PLD_spec, len in *. rewrite !length_fmap, length_zip, length_seqZ. lia.
Qed.

Lemma Predict_ok it words dd :
  Bow_wf dd → guard_ok dd →
  ∃ r, Predict conf it words dd = Ret r (final_state (UpdatePL (scan conf words dd).1.1))
       ∧ returns (UpdatePL (scan conf words dd).1.1).
Proof.
  intros Hwf Hguard. pose proof (scan_frame words dd) as Hfr. unfold Predict.
  destruct (scan conf words dd) as [[dd1 seq] freqWord]. simpl in *.
  assert (Bow_wf dd1) as Hwf1 by (rewrite Hfr; by destruct dd).
  assert (guard_ok dd1) as Hguard1 by (rewrite Hfr; by destruct dd).
  pose proof (UpdatePL_ok dd1 Hwf1 Hguard1) as Hup.
  assert (returns (UpdatePL dd1)) as Hret by (by rewrite Hup).
  pose proof (PLD_ok it freqWord dd1 Hwf1 Hret) as Hpld.
  pose proof (PL_only_wf _ _ (UpdatePL_PL_only dd1) Hwf1) as Hwf2.
  unfold bind. rewrite Hpld.
  set (dd2 := final_state (UpdatePL dd1)) in *.
  set (pld := PLD_spec _ dd2).
  assert (len pld = LabelCount dd2) as Hlen
    by (apply len_PLD_spec; by destruct Hwf2 as (_ & _ & ? & _)).
  destruct (decide (0 < LabelCount dd2)) as [Hpos|Hzero].
  - destruct (foldl_Predict_max_Some pld (seqZ 0 (LabelCount dd2)) 0) as [r ->];
      [lia| |eauto].
    intros l Hl%elem_of_seqZ. lia.
  - rewrite (seqZ_nil 0 (LabelCount dd2)) by lia. simpl. eauto.
Qed.

(** ** Runs of [Add] and [Predict] from [New] *)

Lemma Add_done_wf it words labels dd :
  Bow_wf dd → Bow_wf (Add_done conf it words labels dd).
Proof.
  intros (H1 & H2 & H3 & H4).
  destruct (Add_done_frame it words labels dd) as (_ & En & Ec & _ & Ep & _).
  destruct (Add_done_counts it words labels dd) as (_ & El & _ & Ed).
  unfold Bow_wf, in_range. rewrite En, Ec, Ep, El, Ed.
  rewrite len_foldl_LabelDocCount_bump. repeat split; try done.
  intros l Hl. apply LWF_bump_dom. by apply H4.
Qed.

Lemma foldl_LabelDocCount_bump_bound n labels (s : list Z) :
  0 ≤ n → n + 1 ≤ int_max → NoDup labels → (∀ l, l ∈ labels → 0 ≤ l) →
  (∀ i c, s !! i = Some c → 0 ≤ c ≤ n + 1 ∧ (Z.of_nat i ∈ labels → c ≤ n)) →
  ∀ i c, foldl LabelDocCount_bump s labels !! i = Some c → 0 ≤ c ≤ n + 1.
Proof.
  intros Hn Hmax Hnd. revert s. induction Hnd as [|l labels Hl Hnd IH]; intros s Hpos Hs.
  - simpl. intros i c Hc. by apply (Hs i c).
  - simpl. apply IH; [intros l' ?; apply Hpos; by right|].
    intros i c Hc. unfold LabelDocCount_bump in Hc.
    assert (0 ≤ l) as Hl0 by (apply Hpos; left).
    destruct (decide (i = Z.to_nat l)) as [->|Hne].
    + assert (Z.to_nat l < length s)%nat as Hlt
        by (apply lookup_lt_Some in Hc; by rewrite length_insert in Hc).
      rewrite list_lookup_insert_eq in Hc by done. injection Hc as <-.
      destruct (lookup_lt_is_Some_2 s (Z.to_nat l) Hlt) as [c0 Hc0]. rewrite Hc0. simpl.
      destruct (Hs _ _ Hc0) as [Hb Hle].
      assert (c0 ≤ n) as Hc0n by (apply Hle; rewrite Z2Nat.id by done; left).
      unfold int_add. rewrite wrap_small by (unfold int_min, int_max in *; lia).
      split; [lia|]. rewrite Z2Nat.id by done. done.
    + rewrite list_lookup_insert_ne in Hc by done.
      destruct (Hs _ _ Hc) as [Hb Hle]. split; [done|].
      intros Hin. apply Hle. by right.
Qed.

Lemma Add_done_counted it words labels n dd :
  0 ≤ n → n + 1 ≤ int_max → NoDup labels → (∀ l, l ∈ labels → 0 ≤ l) →
  counted n dd → counted (n + 1) (Add_done conf it words labels dd).
Proof.
  intros Hn Hmax Hnd Hpos [HD HL].
  destruct (Add_done_frame it words labels dd) as (_ & _ & _ & _ & _ & _ & _ & Ed).
  destruct (Add_done_counts it words labels dd) as (_ & _ & _ & El).
  split.
  - rewrite Ed, HD. unfold int_add. apply wrap_small. unfold int_min, int_max in *. lia.
  - rewrite El. apply foldl_LabelDocCount_bump_bound; try done.
    intros i c Hc. specialize (HL i c Hc). split; [lia|]. intros _. lia.
Qed.

Lemma counted_guard_ok n dd :
  Bow_wf dd → 0 ≤ n → n + LabelCount dd ≤ int_max → counted n dd → guard_ok dd.
Proof.
  intros (_ & Hldc & _) Hn Hmax [HD HL] l c Hc.
  unfold slice_get in Hc. case_decide; [|done].
  assert (0 < LabelCount dd) as Hlc.
  { apply lookup_lt_Some in Hc. unfold len in Hldc. lia. }
  destruct (HL _ _ Hc) as [Hc0 Hcn]. rewrite HD. unfold int_add.
  rewrite !wrap_small by (unfold int_min, int_max in *; lia). lia.
Qed.

Lemma count_adds_nonneg ops : 0 ≤ count_adds ops.
Proof. induction ops as [|[] ops IH]; simpl; lia. Qed.

Lemma run_training ops dd n :
  Bow_wf dd → counted n dd → 0 ≤ n →
  Forall (training_op (LabelCount dd)) ops →
  n + count_adds ops + LabelCount dd ≤ int_max →
  ∃ dd', run conf ops dd = Ret tt dd' ∧ Bow_wf dd'
         ∧ counted (n + count_adds ops) dd' ∧ LabelCount dd' = LabelCount dd.
Proof.
  revert dd n. induction ops as [|o ops IH]; intros dd n Hwf Hcnt Hn Hops Hmax.
  - exists dd. simpl. by rewrite Z.add_0_r.
  - apply Forall_cons in Hops as [Ho Hops].
    pose proof (count_adds_nonneg ops) as Hnn.
    assert (0 ≤ LabelCount dd) as Hlc by (destruct Hwf as (-> & _); unfold len; lia).
    destruct o as [it id words labels|it words|it outFile io_ok]; simpl in Ho, Hmax.
    + destruct Ho as (Hne & Hnd & Hall).
      unfold run. simpl. rewrite Add_ok by (by apply wf_accepts).
      rewrite Forall_forall in Hall.
      destruct (IH (Add_done conf it words labels dd) (n + 1)) as (dd' & E & Hwf' & Hc' & Hl').
      * by apply Add_done_wf.
      * apply Add_done_counted; try done; [lia|]. intros l Hl. by apply Hall.
      * lia.
      * by destruct (Add_done_frame it words labels dd) as (_ & _ & -> & _).
      * destruct (Add_done_frame it words labels dd) as (_ & _ & -> & _). lia.
      * exists dd'. split; [exact E|]. split; [done|].
        replace (n + (count_adds ops + 1)) with (n + 1 + count_adds ops) by lia.
        split; [done|].
        by destruct (Add_done_frame it words labels dd) as (_ & _ & <- & _).
    + assert (guard_ok dd) as Hg by (apply (counted_guard_ok n); [done|done|lia|done]).
      destruct (Predict_ok it words dd Hwf Hg) as (r & E & _).
      unfold run. simpl. unfold bind at 1. rewrite E.
      destruct (Predict_final_counts it words dd) as (HD & HL & HC).
      pose proof (f_equal final_state E) as Ef. simpl in Ef, HD, HL, HC.
      rewrite Ef in HD, HL, HC.
      pose proof (scan_frame words dd) as Hfr. simpl in Hfr.
      set (dd1 := final_state (UpdatePL (scan conf words dd).1.1)) in *.
      destruct (IH dd1 n) as (dd' & E' & Hwf' & Hc' & Hl'); try done.
      * eapply PL_only_wf; [apply UpdatePL_PL_only|]. rewrite Hfr. by destruct dd.
      * unfold counted. rewrite HD, HL. exact Hcnt.
      * by rewrite HC.
      * rewrite HC. lia.
      * exists dd'. split; [exact E'|]. split; [done|]. split; [done|]. congruence.
    + done.
Qed.

Lemma New_counted note labelNames : counted 0 (New note labelNames).
Proof.
  split; [done|]. simpl. intros i c Hc.
  rewrite list_lookup_fmap in Hc. destruct (seqZ _ _ !! i); [|done].
  injection Hc as <-. done.
Qed.

(** C5. After any sequence of [Add] calls with non-empty duplicate-free
    in-range label lists and of [Predict] calls from [New] (fewer than
    2^63 - LabelCount documents, so that [DocCount + LabelCount] is an
    [int]), every call has returned, every label satisfies
    [LabelDocCount[l] + 1 <= DocCount + LabelCount], and [UpdatePL] returns,
    without reaching its panic, having set
    [PL[l] = (LabelDocCount[l] + 1) / (DocCount + LabelCount)] for every
    label and nothing else. *)
Theorem UpdatePL_after_training note labelNames ops :
  Forall (training_op (len labelNames)) ops →
  count_adds ops + len labelNames ≤ int_max →
  ∃ dd,
    run conf ops (New note labelNames) = Ret tt dd
    ∧ (∀ l, in_range dd l →
         ∃ n, slice_get (LabelDocCount dd) l = Some n
              ∧ n + 1 ≤ DocCount dd + LabelCount dd)
    ∧ ∃ dd',
        UpdatePL dd = Ret tt dd'
        ∧ dd' = set_PL (PL dd') dd
        ∧ ∀ l, in_range dd l →
            ∃ n, slice_get (LabelDocCount dd) l = Some n
                 ∧ slice_get (PL dd') l
                   = Some (fdiv (of_int (n + 1)) (of_int (DocCount dd + LabelCount dd))).
Proof.
  intros Hops Hmax.
  destruct (run_training ops (New note labelNames) 0) as (dd & E & Hwf & Hcnt & Hlc);
    [apply New_wf|apply New_counted|done|done|simpl; lia|].
  simpl in Hlc. rewrite Z.add_0_l in Hcnt.
  pose proof (count_adds_nonneg ops) as Hnn.
  assert (guard_ok dd) as Hg
    by (apply (counted_guard_ok (count_adds ops)); [done|done|lia|done]).
  assert (∀ l, in_range dd l →
    ∃ n, slice_get (LabelDocCount dd) l = Some n ∧ 0 ≤ n ≤ DocCount dd
         ∧ int_add n 1 = n + 1
         ∧ int_add (DocCount dd) (LabelCount dd) = DocCount dd + LabelCount dd) as Hlab.
  { intros l Hl. unfold in_range in Hl.
    destruct Hwf as (_ & Hldc & _).
    destruct (slice_get_Some (LabelDocCount dd) l) as (n & Hn & Hn'); [lia|].
    destruct Hcnt as [HD HL]. specialize (HL _ _ Hn').
    exists n. split; [done|]. split; [lia|]. unfold int_add.
    rewrite !wrap_small by (unfold int_min, int_max in *; lia). done. }
  exists dd. split; [done|]. split.
  { intros l Hl. destruct (Hlab l Hl) as (n & Hn & Hb & _). exists n. split; [done|].
    unfold in_range in Hl. lia. }
  eexists. split; [by apply UpdatePL_ok|]. split; [done|]. simpl.
  intros l Hl. destruct (Hlab l Hl) as (n & Hn & _ & E1 & E2). exists n. split; [done|].
  rewrite slice_get_seqZ_fmap by exact Hl. rewrite Hn. simpl.
  unfold prior. by rewrite E1, E2.
Qed.

(** ** The sum of the word counts of a label *)

Lemma map_sum_delete (m : gmap Z Z) k : map_sum m = map_get m k + map_sum (delete k m).
Proof.
  unfold map_sum, map_get. destruct (m !! k) as [x|] eqn:E; simpl.
  - rewrite (map_fold_delete_L _ _ k x m); [done| |done]. intros; lia.
  - by rewrite delete_id.
Qed.

Lemma map_sum_insert (m : gmap Z Z) k v : map_sum (<[k := v]> m) = map_sum m - map_get m k + v.
Proof.
  rewrite (map_sum_delete m k), <- insert_delete_eq. unfold map_sum at 1.
  rewrite map_fold_insert_L; [fold (map_sum (delete k m)); lia| |apply lookup_delete_eq].
  intros; lia.
Qed.

Lemma map_sum_empty : map_sum ∅ = 0.
Proof. unfold map_sum. apply map_fold_empty. Qed.

Lemma wrap_map_sum_bump (m : gmap Z Z) k d :
  wrap (map_sum (bump m k d)) = wrap (wrap (map_sum m) + d).
Proof.
  unfold bump. rewrite map_sum_insert. unfold int_add.
  replace (map_sum m - map_get m k + wrap (map_get m k + d))
    with ((map_sum m - map_get m k) + wrap (map_get m k + d)) by lia.
  rewrite wrap_add_r, wrap_add_l. f_equal. lia.
Qed.

Lemma sums_agree_step freqWord lwf lwc p :
  sums_agree lwf lwc →
  sums_agree (LWF_bump freqWord lwf p) (bump lwc p.2 (map_get freqWord p.1)).
Proof.
  intros Hag l. unfold LWF_bump. rewrite map_get_bump, lookup_insert.
  destruct (decide (p.2 = l)) as [<-|Hne]; simpl; [|apply Hag].
  rewrite wrap_map_sum_bump, Hag. done.
Qed.

Lemma sums_agree_foldl freqWord ps lwf lwc :
  sums_agree lwf lwc →
  sums_agree (foldl (LWF_bump freqWord) lwf ps)
    (bump_list lwc ((λ p, (p.2, map_get freqWord p.1)) <$> ps)).
Proof.
  revert lwf lwc. induction ps as [|p ps IH]; intros lwf lwc Hag; [done|].
  simpl. apply IH. by apply sums_agree_step.
Qed.

Lemma foldl_insert_empty_default (ls : list Z) (m : gmap Z (gmap Z Z)) l :
  default ∅ (m !! l) = ∅ →
  default ∅ (foldl (λ m labelID, <[labelID := ∅]> m) m ls !! l) = ∅.
Proof.
  revert m. induction ls as [|x ls IH]; intros m Hm; simpl; [done|].
  apply IH. rewrite lookup_insert. by case_decide.
Qed.

Lemma New_sums_agree note labelNames :
  sums_agree (LWF (New note labelNames)) (LabelWordCount (New note labelNames)).
Proof.
  intros l. simpl. rewrite foldl_insert_empty_default by done.
  by rewrite map_sum_empty.
Qed.

Lemma Add_done_sums_agree it words labels dd :
  sums_agree (LWF dd) (LabelWordCount dd) →
  sums_agree (LWF (Add_done conf it words labels dd))
    (LabelWordCount (Add_done conf it words labels dd)).
Proof.
  intros Hag. destruct (Add_done_counts it words labels dd) as (_ & -> & -> & _).
  by apply sums_agree_foldl.
Qed.

Lemma run_labelled_adds ops dd :
  Bow_wf dd → sums_agree (LWF dd) (LabelWordCount dd) →
  Forall (labelled_add (LabelCount dd)) ops →
  ∃ dd', run conf ops dd = Ret tt dd' ∧ LabelCount dd' = LabelCount dd
         ∧ sums_agree (LWF dd') (LabelWordCount dd').
Proof.
  revert dd. induction ops as [|o ops IH]; intros dd Hwf Hag Hops.
  - by exists dd.
  - apply Forall_cons in Hops as [Ho Hops].
    destruct o as [it id words labels| |]; try done. destruct Ho as [_ Hall].
    unfold run. simpl. rewrite Add_ok by (by apply wf_accepts).
    destruct (Add_done_frame it words labels dd) as (_ & _ & Hlc & _).
    destruct (IH (Add_done conf it words labels dd)) as (dd' & E & Hlc' & Hag').
    + by apply Add_done_wf.
    + by apply Add_done_sums_agree.
    + by rewrite Hlc.
    + exists dd'. split; [exact E|]. split; [congruence|done].
Qed.

(** C3. After any sequence of [Add] calls with non-empty in-range label
    lists from [New], every call has returned and, for every label, the sum
    of [LWF[l][wordID]] over the word IDs is [LabelWordCount[l]]: as [int]s,
    and as integers whenever the sum fits an [int]. *)
Theorem LabelWordCount_is_sum note labelNames ops :
  Forall (labelled_add (len labelNames)) ops →
  ∃ dd,
    run conf ops (New note labelNames) = Ret tt dd
    ∧ ∀ l, in_range dd l →
        let sum := map_sum (default ∅ (LWF dd !! l)) in
        wrap sum = map_get (LabelWordCount dd) l
        ∧ (int_min ≤ sum ≤ int_max → sum = map_get (LabelWordCount dd) l).
Proof.
  intros Hops.
  destruct (run_labelled_adds ops (New note labelNames)) as (dd & E & _ & Hag);
    [apply New_wf|apply New_sums_agree|done|].
  exists dd. split; [done|]. intros l _. simpl. split; [apply Hag|].
  intros Hfit. rewrite <- Hag. symmetry. by apply wrap_small.
Qed.

(** ** The order of the visits does not matter *)

Lemma visits_cons w wordIDs labels :
  visits (w :: wordIDs) labels = ((λ l, (w, l)) <$> labels) ++ visits wordIDs labels.
Proof. done. Qed.

Lemma visits_perm wordIDs wordIDs' labels :
  wordIDs ≡ₚ wordIDs' → visits wordIDs labels ≡ₚ visits wordIDs' labels.
Proof. intros Hp. unfold visits. by rewrite Hp. Qed.

Lemma visits_app_r wordIDs la lb :
  visits wordIDs (la ++ lb) ≡ₚ visits wordIDs la ++ visits wordIDs lb.
Proof.
  induction wordIDs as [|w ks IH]; [done|].
  rewrite !visits_cons, IH, fmap_app.
  rewrite <- !app_assoc. apply Permutation_app_head.
  rewrite !app_assoc. apply Permutation_app_tail. apply Permutation_app_comm.
Qed.

Lemma LWF_bump_comm freqWord lwf p q :
  LWF_bump freqWord (LWF_bump freqWord lwf p) q
  = LWF_bump freqWord (LWF_bump freqWord lwf q) p.
Proof.
  unfold LWF_bump. destruct (decide (p.2 = q.2)) as [E|Hne].
  - rewrite E, !lookup_insert_eq, !insert_insert_eq. simpl. by rewrite bump_comm.
  - rewrite (lookup_insert_ne _ p.2 q.2) by done.
    rewrite (lookup_insert_ne _ q.2 p.2) by done.
    by rewrite insert_insert_ne.
Qed.

Lemma foldl_LWF_bump_perm freqWord lwf ps qs :
  ps ≡ₚ qs → foldl (LWF_bump freqWord) lwf ps = foldl (LWF_bump freqWord) lwf qs.
Proof.
  intros Hp. revert lwf.
  induction Hp as [|p ps qs _ IH|p q ps|ps qs rs _ IH1 _ IH2]; intros lwf; simpl.
  - done.
  - apply IH.
  - by rewrite LWF_bump_comm.
  - by rewrite IH1.
Qed.

Lemma Add_counts_perm freqWord ps qs dd :
  ps ≡ₚ qs → Add_counts freqWord ps dd = Add_counts freqWord qs dd.
Proof.
  intros Hp. unfold Add_counts.
  rewrite (foldl_LWF_bump_perm freqWord _ ps qs Hp).
  rewrite (bump_list_perm (LabelWordCount dd) _ ((λ p, (p.2, map_get freqWord p.1)) <$> qs))
    by (by rewrite Hp).
  rewrite (bump_list_perm (WordDocCount dd) _ ((λ p, (p.1, 1)) <$> qs)) by (by rewrite Hp).
  done.
Qed.

(** When its labels are accepted, the result of [Add] does not depend on
    the order in which [range] visits the word IDs. *)
Lemma Add_done_iter it it' words labels dd :
  Add_done conf it words labels dd = Add_done conf it' words labels dd.
Proof.
  unfold Add_done. destruct (scan conf words dd) as [[dd1 seq] freqWord].
  rewrite (Add_counts_perm freqWord _ (visits (range_int it' 0 freqWord).*1 labels)); [done|].
  apply visits_perm. by rewrite !range_int_perm.
Qed.

(** ** Scanning a document again *)

Lemma foldl_scan_word_seq words dd seq freqWord :
  let r := foldl (scan_word conf) (dd, seq, freqWord) words in
  r.1.2 = seq ++ (map_get (idxs r.1.1) <$> kept conf words).
Proof.
  revert dd seq freqWord. induction words as [|w words IH]; intros dd seq freqWord.
  - simpl. by rewrite app_nil_r.
  - cbn [foldl]. rewrite scan_word_eq. unfold kept.
    destruct (skipped conf w) eqn:Hsk.
    + rewrite filter_cons_False by (by rewrite Hsk). apply IH.
    + rewrite filter_cons_True by done. simpl.
      set (i := map_get (idxs (resolve w dd)) w).
      specialize (IH (resolve w dd) (seq ++ [i]) (bump freqWord i 1)). simpl in IH.
      rewrite IH, <- app_assoc. simpl. do 2 f_equal.
      destruct (resolve_is_Some w dd) as [j Hj].
      unfold i, map_get. rewrite Hj.
      by rewrite (lookup_weaken _ _ _ _ Hj (foldl_scan_word_subseteq words _ _ _)).
Qed.

Lemma scan_seq words dd :
  (scan conf words dd).1.2 = map_get (idxs (scan conf words dd).1.1) <$> kept conf words.
Proof. apply (foldl_scan_word_seq words dd []). Qed.

Lemma foldl_scan_word_known words dd seq freqWord :
  (∀ w, w ∈ words → skipped conf w = false → is_Some (idxs dd !! w)) →
  (foldl (scan_word conf) (dd, seq, freqWord) words).1.1 = dd.
Proof.
  revert seq freqWord. induction words as [|w words IH]; intros seq freqWord Hk; [done|].
  cbn [foldl]. rewrite scan_word_eq. destruct (skipped conf w) eqn:Hsk.
  - apply IH. intros w' ?. apply Hk. by right.
  - assert (resolve w dd = dd) as ->.
    { unfold resolve. by destruct (Hk w) as [j ->]; [left|done|]. }
    apply IH. intros w' ?. apply Hk. by right.
Qed.

Lemma scan_known words dd :
  (∀ w, w ∈ words → skipped conf w = false → is_Some (idxs dd !! w)) →
  scan conf words dd = (dd, map_get (idxs dd) <$> kept conf words,
                        freq_of (map_get (idxs dd) <$> kept conf words)).
Proof.
  intros Hk. pose proof (foldl_scan_word_known words dd [] ∅ Hk) as E1.
  pose proof (scan_seq words dd) as E2. pose proof (scan_freq words dd) as E3.
  unfold scan in *. destruct (foldl _ _ _) as [[dd1 seq] f]. simpl in *.
  subst dd1. by rewrite E3, E2.
Qed.

Lemma scan_rescan words dd d' :
  idxs d' = idxs (scan conf words dd).1.1 →
  scan conf words d' = (d', (scan conf words dd).1.2, (scan conf words dd).2).
Proof.
  intros Hi. rewrite scan_known.
  - by rewrite scan_freq, scan_seq, Hi.
  - intros w Hw Hsk. rewrite Hi. by apply scan_resolves.
Qed.

(** ** One document with two labels, or the document twice *)

Lemma Bow_eq dd1 dd2 :
  Note dd1 = Note dd2 → LabelNames dd1 = LabelNames dd2 → LabelCount dd1 = LabelCount dd2 →
  Words dd1 = Words dd2 → WordCount dd1 = WordCount dd2 →
  WordDocCount dd1 = WordDocCount dd2 → DocCount dd1 = DocCount dd2 → LWF dd1 = LWF dd2 →
  LabelWordCount dd1 = LabelWordCount dd2 → PL dd1 = PL dd2 →
  LabelDocCount dd1 = LabelDocCount dd2 → idxs dd1 = idxs dd2 → dd1 = dd2.
Proof. destruct dd1, dd2. simpl. intros. by subst. Qed.

(** C2. On a well-formed corpus and for in-range labels [a] and [b], one
    [Add] of a document with the labels [a, b] and two [Add]s of the same
    document, with [a] and then with [b], all return, and leave the same
    corpus (vocabulary, [WordDocCount], [LWF], [LabelWordCount],
    [LabelDocCount] and the rest) except that [DocCount] has grown by one in
    the first case and by two in the second. The orders in which the three
    calls range over the word IDs are arbitrary. *)
Theorem Add_two_labels it1 it2 it3 id words a b dd :
  Bow_wf dd → in_range dd a → in_range dd b →
  ∃ d_ab d_a d_b,
    Add conf it1 id words [a; b] dd = Ret tt d_ab
    ∧ Add conf it2 id words [a] dd = Ret tt d_a
    ∧ Add conf it3 id words [b] d_a = Ret tt d_b
    ∧ DocCount d_ab = int_add (DocCount dd) 1
    ∧ DocCount d_b = int_add (int_add (DocCount dd) 1) 1
    ∧ d_b = set_DocCount (DocCount d_b) d_ab.
Proof.
  intros Hwf Ha Hb.
  assert (Bow_wf (Add_done conf it2 words [a] dd)) as Hwf' by (by apply Add_done_wf).
  destruct (Add_done_frame it1 words [a; b] dd) as (N1 & L1 & C1 & W1 & P1 & I1 & WC1 & D1).
  destruct (Add_done_frame it2 words [a] dd) as (N2 & L2 & C2 & W2 & P2 & I2 & WC2 & D2).
  destruct (Add_done_frame it3 words [b] (Add_done conf it2 words [a] dd))
    as (N3 & L3 & C3 & W3 & P3 & I3 & WC3 & D3).
  destruct (Add_done_counts it1 words [a; b] dd) as (WD1 & LW1 & LC1 & LD1).
  destruct (Add_done_counts it2 words [a] dd) as (WD2 & LW2 & LC2 & LD2).
  destruct (Add_done_counts it3 words [b] (Add_done conf it2 words [a] dd))
    as (WD3 & LW3 & LC3 & LD3).
  rewrite (scan_rescan words dd _ I2) in I3, WC3, WD3, LW3, LC3. simpl in *.
  set (f := (scan conf words dd).2) in *.
  assert (visits (range_int it1 0 f).*1 [a; b]
          ≡ₚ visits (range_int it2 0 f).*1 [a] ++ visits (range_int it3 0 f).*1 [b]) as Hp.
  { rewrite (visits_app_r _ [a] [b]). apply Permutation_app; apply visits_perm;
      by rewrite !range_int_perm. }
  exists (Add_done conf it1 words [a; b] dd), (Add_done conf it2 words [a] dd),
    (Add_done conf it3 words [b] (Add_done conf it2 words [a] dd)).
  split; [apply Add_ok, wf_accepts; [done|by rewrite !Forall_cons, Forall_nil]|].
  split; [apply Add_ok, wf_accepts; [done|by rewrite !Forall_cons, Forall_nil]|].
  split.
  { apply Add_ok, wf_accepts; [done|]. rewrite !Forall_cons, Forall_nil.
    unfold in_range. by rewrite C2. }
  split; [done|]. split; [by rewrite D3, D2|].
  apply Bow_eq; simpl; try congruence.
  - rewrite WD3, WD2, WD1, <- bump_list_app, <- fmap_app.
    apply bump_list_perm. by rewrite Hp.
  - rewrite LW3, LW2, LW1, <- foldl_app. symmetry. by apply foldl_LWF_bump_perm.
  - rewrite LC3, LC2, LC1, <- bump_list_app, <- fmap_app.
    apply bump_list_perm. by rewrite Hp.
Qed.

(** ** The vocabulary *)

Lemma resolve_idem word dd : resolve word (resolve word dd) = resolve word dd.
Proof.
  unfold resolve at 1. by destruct (resolve_is_Some word dd) as [i ->].
Qed.

Lemma resolve_vocab_ok word dd :
  vocab_ok dd → Z.of_nat (size (idxs (resolve word dd))) ≤ int_max → vocab_ok (resolve word dd).
Proof.
  intros (Hsz & Hrg & Hinj & Hsur). unfold resolve.
  destruct (idxs dd !! word) eqn:E; [done|]. simpl. intros Hmax.
  rewrite map_size_insert_None in Hmax by done.
  assert (int_add (WordCount dd) 1 = WordCount dd + 1) as Hwc.
  { unfold int_add. apply wrap_small. unfold int_min, int_max in *. lia. }
  unfold vocab_ok. simpl. rewrite Hwc, map_size_insert_None by done.
  split; [lia|]. split; [|split].
  - intros w i. rewrite lookup_insert. case_decide.
    + intros [= <-]. lia.
    + intros Hw. specialize (Hrg _ _ Hw). lia.
  - intros w1 w2 i. rewrite !lookup_insert.
    destruct (decide (word = w1)), (decide (word = w2)); try congruence.
    + intros [= <-] Hw. specialize (Hrg _ _ Hw). lia.
    + intros Hw [= <-]. specialize (Hrg _ _ Hw). lia.
    + apply Hinj.
  - intros i Hi. destruct (decide (i = WordCount dd)) as [->|Hne].
    + exists word. apply lookup_insert_eq.
    + destruct (Hsur i) as [w Hw]; [lia|]. exists w.
      rewrite lookup_insert_ne; [done|]. congruence.
Qed.

Lemma foldl_scan_word_vocab_ok words dd seq freqWord :
  let dd' := (foldl (scan_word conf) (dd, seq, freqWord) words).1.1 in
  vocab_ok dd → Z.of_nat (size (idxs dd')) ≤ int_max → vocab_ok dd'.
Proof.
  revert dd seq freqWord. induction words as [|w words IH]; intros dd seq freqWord; [done|].
  cbn [foldl]. rewrite scan_word_eq. destruct (skipped conf w); [apply IH|].
  intros Hok Hmax. apply IH; [|done]. apply resolve_vocab_ok; [done|].
  etrans; [|exact Hmax]. apply Nat2Z.inj_le, map_subseteq_size.
  apply foldl_scan_word_subseteq.
Qed.

Lemma scan_vocab_ok words dd :
  vocab_ok dd → Z.of_nat (size (idxs (scan conf words dd).1.1)) ≤ int_max →
  vocab_ok (scan conf words dd).1.1.
Proof. apply foldl_scan_word_vocab_ok. Qed.

Lemma vocab_ok_ext dd dd' :
  idxs dd' = idxs dd → WordCount dd' = WordCount dd → vocab_ok dd → vocab_ok dd'.
Proof. unfold vocab_ok. by intros -> ->. Qed.

(** What every operation does to the vocabulary, however it ends. *)

Lemma Add_final_vocab it id words labels dd :
  let dd' := final_state (Add conf it id words labels dd) in
  idxs dd' = idxs (scan conf words dd).1.1
  ∧ WordCount dd' = WordCount (scan conf words dd).1.1
  ∧ Words dd' = Words dd.
Proof.
  pose proof (scan_frame words dd) as Hfr. unfold Add.
  destruct (scan conf words dd) as [[dd1 seq] freqWord]. simpl in Hfr |- *.
  set (dd2 := set_DocCount (int_add (DocCount dd1) 1) dd1).
  match goal with |- context [final_state ?r] =>
    assert (counters_only dd2 (final_state r)) as (_ & _ & _ & -> & -> & _ & _ & -> & _)
  end.
  { unfold bind. set (loop := for_each _ _ dd2).
    assert (counters_only dd2 (final_state loop)) as H3.
    { apply for_each_final; [|done]. intros w dd3 Hdd3.
      apply for_each_final; [|done]. intros l dd4 Hdd4.
      by apply Add_count_counters_only. }
    destruct loop as [[] dd3|p dd3]; [|done]. simpl in H3.
    apply for_each_final; [|done]. intros l dd4. apply Add_label_counters_only. }
  unfold dd2. simpl. rewrite Hfr. by destruct dd.
Qed.

Lemma Predict_final_vocab it words dd :
  let dd' := final_state (Predict conf it words dd) in
  idxs dd' = idxs (scan conf words dd).1.1
  ∧ WordCount dd' = WordCount (scan conf words dd).1.1
  ∧ Words dd' = Words dd.
Proof.
  simpl. rewrite Predict_final.
  pose proof (scan_frame words dd) as Hfr.
  destruct (UpdatePL_PL_only (scan conf words dd).1.1) as [E _].
  simpl in Hfr. rewrite E. simpl. rewrite Hfr. simpl. done.
Qed.

Lemma updateWords_final_vocab it dd :
  let dd' := final_state (updateWords it dd) in
  idxs dd' = idxs dd ∧ WordCount dd' = WordCount dd.
Proof.
  unfold updateWords.
  apply (for_each_final (λ dd', idxs dd' = idxs dd ∧ WordCount dd' = WordCount dd)); [|done].
  intros e dd' Hdd'. unfold updateWords_entry. by destruct (slice_set _ _ _).
Qed.

(** [updateWords] on a consistent vocabulary. *)

Lemma for_each_updateWords_entry_ok es dd :
  (∀ e, e ∈ es → 0 ≤ e.2 < len (Words dd)) →
  for_each updateWords_entry es dd
  = Ret tt (set_Words (foldl (λ ws e, <[Z.to_nat e.2 := e.1]> ws) (Words dd) es) dd).
Proof.
  revert dd. induction es as [|e es IH]; intros dd Hes; simpl.
  - by destruct dd.
  - unfold updateWords_entry at 1, slice_set. rewrite decide_True by (apply Hes; left).
    rewrite IH; [done|]. intros e' He'. simpl. unfold len. rewrite length_insert.
    apply Hes. by right.
Qed.

Lemma foldl_write_lookup (es : list (string * Z)) (ws : list string) i w :
  foldl (λ ws e, <[Z.to_nat e.2 := e.1]> ws) ws es !! i = Some w →
  (ws !! i = Some w ∧ ∀ e, e ∈ es → Z.to_nat e.2 ≠ i)
  ∨ (∃ e, e ∈ es ∧ Z.to_nat e.2 = i ∧ e.1 = w).
Proof.
  revert ws. induction es as [|e es IH]; intros ws Hw; simpl in Hw.
  - left. split; [done|]. intros e He. by apply elem_of_nil in He.
  - destruct (IH _ Hw) as [[Hi Hno]|(e' & He' & Hi & E)].
    + destruct (decide (Z.to_nat e.2 = i)) as [Heq|Hne].
      * right. exists e. split; [left|]. split; [done|].
        rewrite <- Heq in Hi. apply list_lookup_insert_Some in Hi.
        destruct Hi as [(_ & ? & _)|[? _]]; done.
      * left. rewrite list_lookup_insert_ne in Hi by done. split; [done|].
        intros e' [->|He']%elem_of_cons; auto.
    + right. exists e'. split; [by right|done].
Qed.

Lemma length_foldl_write (es : list (string * Z)) (ws : list string) :
  length (foldl (λ ws e, <[Z.to_nat e.2 := e.1]> ws) ws es) = length ws.
Proof.
  revert ws. induction es as [|e es IH]; intros ws; simpl; [done|].
  by rewrite IH, length_insert.
Qed.

Lemma updateWords_ok it dd :
  vocab_ok dd →
  ∃ dd', updateWords it dd = Ret tt dd' ∧ idxs dd' = idxs dd
         ∧ WordCount dd' = WordCount dd ∧ Words_ok dd'
         ∧ len (Words dd') = WordCount dd.
Proof.
  intros (Hsz & Hrg & _ & Hsur). unfold updateWords.
  assert (∀ e, e ∈ range_str it 0 (idxs dd) ↔ idxs dd !! e.1 = Some e.2) as Hes.
  { intros [w i]. rewrite (range_str_perm it 0 (idxs dd)). apply elem_of_map_to_list. }
  rewrite for_each_updateWords_entry_ok.
  - eexists. split; [done|]. simpl. split; [done|]. split; [done|]. split.
    + intros i w Hw. simpl in *.
      assert (i < size (idxs dd))%nat as Hi.
      { apply lookup_lt_Some in Hw.
        by rewrite length_foldl_write, length_replicate in Hw. }
      destruct (Hsur (Z.of_nat i)) as [w0 Hw0]; [lia|].
      apply foldl_write_lookup in Hw as [[_ Hno]|(e & He & Hei & <-)].
      * exfalso. apply (Hno (w0, Z.of_nat i)); [by apply Hes|]. simpl. lia.
      * apply Hes in He. rewrite He. f_equal.
        specialize (Hrg _ _ He). lia.
    + simpl. unfold len. rewrite length_foldl_write, length_replicate. lia.
  - intros e He. simpl. unfold len. rewrite length_replicate, <- Hsz.
    apply Hes in He. by eapply Hrg.
Qed.

Lemma final_state_bind_Ret {A B} (c : Bow → exec A) (b : B) dd :
  final_state (bind c (λ _, Ret b) dd) = final_state (c dd).
Proof. unfold bind. by destruct (c dd). Qed.

Lemma exec_op_final o dd :
  final_state (exec_op conf o dd) =
  match o with
  | OpAdd it id words labels => final_state (Add conf it id words labels dd)
  | OpPredict it words => final_state (Predict conf it words dd)
  | OpSave it _ _ => final_state (updateWords it dd)
  end.
Proof.
  destruct o as [it id words labels|it words|it outFile io_ok]; simpl; [done| |].
  - apply final_state_bind_Ret.
  - rewrite final_state_bind_Ret. unfold Save. apply final_state_bind_Ret.
Qed.

Lemma exec_op_subseteq o dd : idxs dd ⊆ idxs (final_state (exec_op conf o dd)).
Proof.
  rewrite exec_op_final. destruct o as [it id words labels|it words|it outFile io_ok].
  - destruct (Add_final_vocab it id words labels dd) as (-> & _). apply scan_subseteq.
  - destruct (Predict_final_vocab it words dd) as (-> & _). apply scan_subseteq.
  - by destruct (updateWords_final_vocab it dd) as (-> & _).
Qed.

Lemma run_subseteq ops dd : idxs dd ⊆ idxs (final_state (run conf ops dd)).
Proof.
  unfold run. apply (for_each_final (λ dd', idxs dd ⊆ idxs dd')); [|done].
  intros o dd' Hdd'. etrans; [exact Hdd'|apply exec_op_subseteq].
Qed.

Lemma scanned_vocab_inv words dd dd' :
  idxs dd' = idxs (scan conf words dd).1.1 →
  WordCount dd' = WordCount (scan conf words dd).1.1 →
  Words dd' = Words dd →
  vocab_inv dd → vocab_inv dd'.
Proof.
  intros Ei Ew EW Hinv Hmax. pose proof (scan_subseteq words dd) as Hsub.
  destruct Hinv as [Hok HW].
  { etrans; [|exact Hmax]. rewrite Ei. by apply Nat2Z.inj_le, map_subseteq_size. }
  split.
  - apply (vocab_ok_ext (scan conf words dd).1.1); [done|done|].
    apply scan_vocab_ok; [done|]. by rewrite <- Ei.
  - intros i w Hw. rewrite EW in Hw. rewrite Ei.
    eapply lookup_weaken; [by apply HW|done].
Qed.

Lemma exec_op_vocab_inv o dd : vocab_inv dd → vocab_inv (final_state (exec_op conf o dd)).
Proof.
  rewrite exec_op_final. destruct o as [it id words labels|it words|it outFile io_ok].
  - destruct (Add_final_vocab it id words labels dd) as (? & ? & ?).
    by apply (scanned_vocab_inv words dd).
  - destruct (Predict_final_vocab it words dd) as (? & ? & ?).
    by apply (scanned_vocab_inv words dd).
  - intros Hinv Hmax. destruct (updateWords_final_vocab it dd) as (Ei & Ew).
    simpl in Ei, Ew. rewrite Ei in Hmax. destruct (Hinv Hmax) as [Hok _].
    destruct (updateWords_ok it dd Hok) as (dd' & -> & ? & ? & ? & _). simpl.
    split; [by apply (vocab_ok_ext dd)|done].
Qed.

Lemma New_vocab_inv note labelNames : vocab_inv (New note labelNames).
Proof.
  intros _. split.
  - unfold vocab_ok. simpl. rewrite map_size_empty. repeat split; try done.
    intros i Hi. lia.
  - intros i w Hw. simpl in Hw. by destruct i.
Qed.

(** C7. After any sequence of [Add], [Predict] and [Save] from [New],
    however it ends, and as long as the vocabulary has fewer than 2^63
    words: [idxs[Words[i]] == i] for every index [i] of [Words]; [idxs]
    numbers the words 0, ..., [WordCount] - 1 without repetition; resolving
    a word a second time changes nothing; and whatever is run next, a word
    that has an ID keeps it. *)
Theorem vocabulary_consistent note labelNames ops :
  let dd := final_state (run conf ops (New note labelNames)) in
  Z.of_nat (size (idxs dd)) ≤ int_max →
  (∀ i w, Words dd !! i = Some w → idxs dd !! w = Some (Z.of_nat i))
  ∧ vocab_ok dd
  ∧ (∀ word, resolve word (resolve word dd) = resolve word dd)
  ∧ (∀ ops' word i,
       idxs dd !! word = Some i →
       idxs (final_state (run conf ops' dd)) !! word = Some i).
Proof.
  simpl. intros Hmax.
  assert (vocab_inv (final_state (run conf ops (New note labelNames)))) as Hinv.
  { unfold run. apply for_each_final; [|apply New_vocab_inv].
    intros o dd. apply exec_op_vocab_inv. }
  destruct (Hinv Hmax) as [Hok HW]. split; [exact HW|]. split; [exact Hok|].
  split; [intros word; apply resolve_idem|].
  intros ops' word i Hi. eapply lookup_weaken; [exact Hi|apply run_subseteq].
Qed.

(** ** Permuting the tokens of a document *)

(** When the document brings no new word, the scan does not depend on the
    order of its tokens. *)
Lemma scan_known_perm words words' dd :
  words ≡ₚ words' →
  (∀ w, w ∈ words → skipped conf w = false → is_Some (idxs dd !! w)) →
  (scan conf words dd).1.1 = (scan conf words' dd).1.1
  ∧ (scan conf words dd).2 = (scan conf words' dd).2.
Proof.
  intros Hp Hk. rewrite (scan_known words dd Hk).
  rewrite (scan_known words' dd) by (intros w Hw; apply Hk; by rewrite Hp).
  simpl. split; [done|]. unfold freq_of. apply bump_list_perm.
  unfold kept. by rewrite Hp.
Qed.

Lemma Add_same_scan it id words words' labels dd :
  (scan conf words dd).1.1 = (scan conf words' dd).1.1 →
  (scan conf words dd).2 = (scan conf words' dd).2 →
  Add conf it id words labels dd = Add conf it id words' labels dd.
Proof.
  unfold Add. destruct (scan conf words dd) as [[dd1 seq] f].
  destruct (scan conf words' dd) as [[dd1' seq'] f']. simpl. by intros -> ->.
Qed.

(** The words known after the scan. *)

Lemma elem_of_kept words w : w ∈ kept conf words ↔ w ∈ words ∧ skipped conf w = false.
Proof. unfold kept. rewrite list_elem_of_filter. tauto. Qed.

Lemma foldl_scan_word_dom words dd seq freqWord w :
  is_Some (idxs (foldl (scan_word conf) (dd, seq, freqWord) words).1.1 !! w) →
  is_Some (idxs dd !! w) ∨ w ∈ kept conf words.
Proof.
  revert dd seq freqWord. induction words as [|w0 words IH]; intros dd seq freqWord; [by left|].
  cbn [foldl]. rewrite scan_word_eq. unfold kept. destruct (skipped conf w0) eqn:Hsk.
  - rewrite filter_cons_False by (by rewrite Hsk). apply IH.
  - rewrite filter_cons_True by done. intros [Hw|Hw]%IH; [|right; by right].
    unfold resolve in Hw. destruct (idxs dd !! w0) eqn:E; [by left|]. simpl in Hw.
    rewrite lookup_insert in Hw. case_decide; [subst; right; left|by left].
Qed.

Lemma scan_dom words dd w :
  is_Some (idxs (scan conf words dd).1.1 !! w)
  ↔ is_Some (idxs dd !! w) ∨ w ∈ kept conf words.
Proof.
  split; [apply foldl_scan_word_dom|]. intros [[i Hi]|Hw].
  - exists i. eapply lookup_weaken; [exact Hi|apply scan_subseteq].
  - apply elem_of_kept in Hw as [Hw Hsk]. by apply scan_resolves.
Qed.

(** The ID of a word after the scan, against the scanned IDs and against
    the counters of the corpus before the scan. *)

Lemma scan_id_in_seq words dd w i :
  vocab_ok (scan conf words dd).1.1 →
  idxs (scan conf words dd).1.1 !! w = Some i →
  i ∈ (scan conf words dd).1.2 ↔ w ∈ kept conf words.
Proof.
  intros (_ & _ & Hinj & _) Hi. rewrite scan_seq, list_elem_of_fmap. split.
  - intros (w' & E & Hw'). destruct (proj2 (scan_dom words dd w')) as [j Hj]; [by right|].
    unfold map_get in E. rewrite Hj in E. simpl in E. subst j.
    by rewrite (Hinj _ _ _ Hi Hj).
  - intros Hw. exists w. split; [|done]. unfold map_get. by rewrite Hi.
Qed.

Lemma scan_id_old words dd w i :
  vocab_ok dd → vocab_ok (scan conf words dd).1.1 → fresh dd →
  idxs (scan conf words dd).1.1 !! w = Some i →
  map_get (WordDocCount dd) i = WordDocCountOf w dd
  ∧ ∀ l, LWF_get dd l i = LWF_of l w dd.
Proof.
  intros (_ & _ & _ & Hsur) (_ & Hrg & Hinj & _) [Hf1 Hf2] Hi.
  pose proof (scan_subseteq words dd) as Hsub.
  unfold WordDocCountOf, LWF_of. destruct (idxs dd !! w) as [j|] eqn:E.
  - rewrite (lookup_weaken _ _ _ _ E Hsub) in Hi. by injection Hi as ->.
  - assert (WordCount dd ≤ i) as Hge.
    { destruct (decide (WordCount dd ≤ i)) as [|Hlt]; [done|]. exfalso.
      destruct (Hsur i) as [w0 Hw0]; [specialize (Hrg _ _ Hi); lia|].
      pose proof (lookup_weaken _ _ _ _ Hw0 Hsub) as Hw0'.
      rewrite (Hinj _ _ _ Hi Hw0') in E. congruence. }
    split; [by apply Hf1|]. intros l. by apply Hf2.
Qed.

(** The tally by word ID is the tally by word. *)

Lemma incr_of_ones_rename (g : string → Z) (ws : list string) w :
  (∀ w', w' ∈ ws → g w' = g w → w' = w) →
  incr_of (g w) ((λ i, (i, 1)) <$> (g <$> ws)) = incr_of w ((λ w, (w, 1)) <$> ws).
Proof.
  induction ws as [|w0 ws IH]; intros Hinj; [done|]. cbn.
  fold (incr_of (g w) ((λ i, (i, 1)) <$> (g <$> ws))).
  fold (incr_of w ((λ w, (w, 1)) <$> ws)).
  rewrite IH by (intros w' ?; apply Hinj; by right).
  destruct (decide (w0 = w)) as [->|Hne].
  - by rewrite decide_True.
  - rewrite decide_False; [done|]. intros E. apply Hne, Hinj; [left|done].
Qed.

Lemma tally_rename (g : string → Z) (ws : list string) w :
  (∀ w', w' ∈ ws → g w' = g w → w' = w) →
  map_get (freq_of (g <$> ws)) (g w) = map_get (tally ws) w.
Proof.
  intros Hinj. unfold freq_of, tally. rewrite !map_get_bump_list, !fst_ones.
  rewrite incr_of_ones_rename by done.
  destruct (decide (w ∈ ws)) as [Hw|Hw].
  - rewrite decide_True; [done|]. apply list_elem_of_fmap. eauto.
  - rewrite decide_False; [done|]. intros (w' & E & Hw')%list_elem_of_fmap.
    apply Hw. by rewrite <- (Hinj w' Hw' (eq_sym E)).
Qed.

Lemma scan_freq_tally words dd w i :
  vocab_ok (scan conf words dd).1.1 →
  idxs (scan conf words dd).1.1 !! w = Some i →
  map_get (scan conf words dd).2 i = map_get (tally (kept conf words)) w.
Proof.
  intros (_ & _ & Hinj & _) Hi. rewrite scan_freq, scan_seq.
  set (g := map_get (idxs (scan conf words dd).1.1)).
  assert (g w = i) as <- by (unfold g, map_get; by rewrite Hi).
  apply tally_rename. intros w' Hw' E.
  destruct (proj2 (scan_dom words dd w')) as [j Hj]; [by right|].
  unfold g, map_get in E. rewrite Hj, Hi in E. simpl in E. subst j.
  by rewrite (Hinj _ _ _ Hi Hj).
Qed.

(** [WordDocCount], by word, after an [Add] that returns. *)
Lemma WordDocCountOf_Add_done it words labels dd w :
  vocab_ok dd → fresh dd →
  Z.of_nat (size (idxs (scan conf words dd).1.1)) ≤ int_max →
  WordDocCountOf w (Add_done conf it words labels dd) =
  if decide (w ∈ kept conf words ∧ labels ≠ [])
  then wrap (WordDocCountOf w dd + len labels) else WordDocCountOf w dd.
Proof.
  intros Hok Hfresh Hmax.
  pose proof (scan_vocab_ok words dd Hok Hmax) as Hok1.
  destruct (Add_done_frame it words labels dd) as (_ & _ & _ & _ & _ & Ei & _).
  destruct (Add_done_counts it words labels dd) as (Ew & _).
  unfold WordDocCountOf at 1. rewrite Ei, Ew.
  destruct (idxs (scan conf words dd).1.1 !! w) as [i|] eqn:E.
  - destruct (scan_id_old words dd w i Hok Hok1 Hfresh E) as [<- _].
    pose proof (scan_id_in_seq words dd w i Hok1 E) as Hin.
    rewrite map_get_bump_list.
    assert (i ∈ (range_int it 0 (scan conf words dd).2).*1 ↔ w ∈ kept conf words) as Hkeys.
    { by rewrite elem_of_range_int, scan_freq, freq_of_is_Some. }
    destruct (decide (w ∈ kept conf words ∧ labels ≠ [])) as [[Hw Hl]|Hno].
    + rewrite decide_True by (apply elem_of_visits_fst; by rewrite Hkeys).
      rewrite incr_of_visits_fst by apply NoDup_range_int.
      by rewrite decide_True by (by rewrite Hkeys).
    + rewrite decide_False; [done|]. rewrite elem_of_visits_fst, Hkeys. tauto.
  - assert (¬ (is_Some (idxs dd !! w) ∨ w ∈ kept conf words)) as Hno.
    { rewrite <- scan_dom, E. by intros []. }
    rewrite decide_False by tauto. unfold WordDocCountOf.
    destruct (idxs dd !! w) eqn:E'; [|done]. exfalso. apply Hno. left. eauto.
Qed.

(** [LWF], by label, after the counting loop. *)

Lemma foldl_LWF_bump_lookup freqWord ps lwf l :
  default ∅ (foldl (LWF_bump freqWord) lwf ps !! l)
  = bump_list (default ∅ (lwf !! l)) (label_updates freqWord l ps).
Proof.
  revert lwf. induction ps as [|p ps IH]; intros lwf; [done|].
  cbn [foldl]. rewrite IH. unfold label_updates at 2. cbn [omap list_omap].
  fold (label_updates freqWord l ps).
  unfold LWF_bump at 1. rewrite lookup_insert.
  destruct (decide (p.2 = l)) as [<-|Hne]; done.
Qed.

Lemma label_updates_app freqWord l ps qs :
  label_updates freqWord l (ps ++ qs)
  = label_updates freqWord l ps ++ label_updates freqWord l qs.
Proof. apply omap_app. Qed.

Lemma count_label_cons l l' labels :
  count_label l (l' :: labels) = (if decide (l' = l) then 1 else 0) + count_label l labels.
Proof. unfold count_label. by rewrite fmap_cons, incr_of_cons. Qed.

Lemma incr_of_label_updates_row freqWord l (w i : Z) labels :
  incr_of i (label_updates freqWord l ((λ l', (w, l')) <$> labels))
  = if decide (w = i) then count_label l labels * map_get freqWord w else 0.
Proof.
  induction labels as [|l' labels IH].
  - cbn. case_decide; [unfold count_label; simpl; lia|done].
  - rewrite fmap_cons, count_label_cons. unfold label_updates. cbn [omap list_omap].
    fold (label_updates freqWord l ((λ l', (w, l')) <$> labels)). simpl.
    destruct (decide (l' = l)) as [->|Hne]; simpl.
    + rewrite IH. case_decide; lia.
    + rewrite IH. case_decide; lia.
Qed.

Lemma incr_of_label_updates_visits freqWord l wordIDs labels i :
  NoDup wordIDs →
  incr_of i (label_updates freqWord l (visits wordIDs labels))
  = if decide (i ∈ wordIDs) then count_label l labels * map_get freqWord i else 0.
Proof.
  induction 1 as [|w ks Hw Hnd IH].
  - rewrite decide_False; [done|]. apply not_elem_of_nil.
  - rewrite visits_cons, label_updates_app, incr_of_app, IH, incr_of_label_updates_row.
    destruct (decide (w = i)) as [->|Hne].
    + rewrite (decide_True (P := i ∈ i :: ks)) by left.
      rewrite (decide_False (P := i ∈ ks)) by done. lia.
    + destruct (decide (i ∈ ks)).
      * rewrite (decide_True (P := i ∈ w :: ks)) by (by right). lia.
      * rewrite (decide_False (P := i ∈ w :: ks)); [lia|].
        intros [?|?]%elem_of_cons; congruence.
Qed.

Lemma elem_of_label_updates_visits freqWord l wordIDs labels i :
  i ∈ (label_updates freqWord l (visits wordIDs labels)).*1 ↔ i ∈ wordIDs ∧ l ∈ labels.
Proof.
  rewrite list_elem_of_fmap. split.
  - intros ([i' v] & -> & Hin). unfold label_updates in Hin.
    apply list_elem_of_omap in Hin as ([w l'] & Hin & E). simpl in E.
    case_decide; [|done]. injection E as <- _. subst l'. simpl.
    by apply elem_of_visits in Hin.
  - intros [Hi Hl]. exists (i, map_get freqWord i). split; [done|].
    unfold label_updates. apply list_elem_of_omap. exists (i, l).
    split; [by apply elem_of_visits|]. simpl. by rewrite decide_True.
Qed.

(** [LWF], by label and word, after an [Add] that returns. *)
Lemma LWF_of_Add_done it words labels dd l w :
  vocab_ok dd → fresh dd →
  Z.of_nat (size (idxs (scan conf words dd).1.1)) ≤ int_max →
  LWF_of l w (Add_done conf it words labels dd) =
  if decide (w ∈ kept conf words ∧ l ∈ labels)
  then wrap (LWF_of l w dd + count_label l labels * map_get (tally (kept conf words)) w)
  else LWF_of l w dd.
Proof.
  intros Hok Hfresh Hmax.
  pose proof (scan_vocab_ok words dd Hok Hmax) as Hok1.
  destruct (Add_done_frame it words labels dd) as (_ & _ & _ & _ & _ & Ei & _).
  destruct (Add_done_counts it words labels dd) as (_ & El & _).
  unfold LWF_of at 1, LWF_get. rewrite Ei, El.
  destruct (idxs (scan conf words dd).1.1 !! w) as [i|] eqn:E.
  - destruct (scan_id_old words dd w i Hok Hok1 Hfresh E) as [_ Hold].
    rewrite <- (Hold l). unfold LWF_get.
    pose proof (scan_id_in_seq words dd w i Hok1 E) as Hin.
    rewrite foldl_LWF_bump_lookup, map_get_bump_list.
    assert (i ∈ (range_int it 0 (scan conf words dd).2).*1 ↔ w ∈ kept conf words) as Hkeys.
    { by rewrite elem_of_range_int, scan_freq, freq_of_is_Some. }
    rewrite incr_of_label_updates_visits by apply NoDup_range_int.
    destruct (decide (w ∈ kept conf words ∧ l ∈ labels)) as [[Hw Hl]|Hno].
    + rewrite decide_True by (apply elem_of_label_updates_visits; by rewrite Hkeys).
      rewrite decide_True by (by rewrite Hkeys).
      by rewrite (scan_freq_tally words dd w i Hok1 E).
    + rewrite decide_False; [done|]. rewrite elem_of_label_updates_visits, Hkeys. tauto.
  - assert (¬ (is_Some (idxs dd !! w) ∨ w ∈ kept conf words)) as Hno.
    { rewrite <- scan_dom, E. by intros []. }
    rewrite decide_False by tauto. unfold LWF_of.
    destruct (idxs dd !! w) eqn:E'; [|done]. exfalso. apply Hno. left. eauto.
Qed.

(** [LabelWordCount] after an [Add] that returns. *)

Lemma incr_of_row_snd (freqWord : gmap Z Z) (w l : Z) labels :
  incr_of l ((λ p : Z * Z, (p.2, map_get freqWord p.1)) <$> ((λ l', (w, l')) <$> labels))
  = count_label l labels * map_get freqWord w.
Proof.
  induction labels as [|l' labels IH]; [unfold count_label; simpl; lia|].
  rewrite !fmap_cons, incr_of_cons, count_label_cons, IH. simpl. case_decide; lia.
Qed.

Lemma incr_of_visits_snd (freqWord : gmap Z Z) wordIDs labels l :
  incr_of l ((λ p, (p.2, map_get freqWord p.1)) <$> visits wordIDs labels)
  = count_label l labels * foldr (λ i acc, map_get freqWord i + acc) 0 wordIDs.
Proof.
  induction wordIDs as [|w ks IH]; [simpl; lia|].
  rewrite visits_cons, fmap_app, incr_of_app, IH, incr_of_row_snd. simpl. lia.
Qed.

Lemma elem_of_visits_snd (v : Z * Z → Z) wordIDs labels l :
  l ∈ ((λ p : Z * Z, (p.2, v p)) <$> visits wordIDs labels).*1 ↔ l ∈ labels ∧ wordIDs ≠ [].
Proof.
  rewrite <- list_fmap_compose, list_elem_of_fmap. split.
  - intros ([w l'] & -> & Hin). apply elem_of_visits in Hin as [Hw Hl].
    split; [done|]. intros ->. by apply elem_of_nil in Hw.
  - intros [Hl Hk]. destruct wordIDs as [|w ks]; [done|].
    exists (w, l). split; [done|]. apply elem_of_visits. split; [left|done].
Qed.

Lemma sum_keys_map_sum it n (m : gmap Z Z) :
  foldr (λ i acc, map_get m i + acc) 0 (range_int it n m).*1 = map_sum m.
Proof.
  unfold map_sum. rewrite map_fold_foldr.
  rewrite <- (foldr_permutation (=) (uncurry (λ (_ v acc : Z), v + acc)) 0
                (range_int it n m) (map_to_list m));
    [|intros ? [] ? [] ? _ _ _; simpl; lia|apply range_int_perm].
  assert (∀ kv, kv ∈ range_int it n m → m !! kv.1 = Some kv.2) as Hes.
  { intros [k v]. rewrite (range_int_perm it n m). apply elem_of_map_to_list. }
  induction (range_int it n m) as [|[k v] es IH]; [done|].
  cbn. f_equal.
  - pose proof (Hes (k, v)) as Hk. simpl in Hk.
    unfold map_get. by rewrite Hk by left.
  - apply IH. intros kv ?. apply Hes. by right.
Qed.

Lemma wrap_map_sum_ones (m : gmap Z Z) seq :
  wrap (map_sum (bump_list m ((λ idx, (idx, 1)) <$> seq))) = wrap (map_sum m + len seq).
Proof.
  revert m. induction seq as [|i seq IH]; intros m.
  - simpl. f_equal. unfold len. simpl. lia.
  - rewrite fmap_cons. change (bump_list m ((i, 1) :: ?us)) with (bump_list (bump m i 1) us).
    rewrite IH. rewrite <- (wrap_add_l (map_sum (bump m i 1))).
    rewrite wrap_map_sum_bump, wrap_add_l.
    replace (wrap (map_sum m) + 1 + len seq) with (wrap (map_sum m) + (1 + len seq)) by lia.
    rewrite wrap_add_l. f_equal. unfold len. cbn [length]. lia.
Qed.

Lemma LabelWordCount_Add_done it words labels dd l :
  LabelWordCount (Add_done conf it words labels dd) !! l =
  if decide (l ∈ labels ∧ kept conf words ≠ [])
  then Some (wrap (map_get (LabelWordCount dd) l
                   + count_label l labels * len (kept conf words)))
  else LabelWordCount dd !! l.
Proof.
  destruct (Add_done_counts it words labels dd) as (_ & _ & -> & _).
  rewrite bump_list_lookup, incr_of_visits_snd, sum_keys_map_sum.
  assert ((range_int it 0 (scan conf words dd).2).*1 ≠ [] ↔ kept conf words ≠ []) as Hne.
  { assert (∀ i, i ∈ (range_int it 0 (scan conf words dd).2).*1
                 ↔ i ∈ map_get (idxs (scan conf words dd).1.1) <$> kept conf words) as Hi.
    { intros i. by rewrite elem_of_range_int, scan_freq, freq_of_is_Some, scan_seq. }
    destruct (kept conf words) as [|w ws], (range_int it 0 _).*1 as [|k ks]; try done.
    - exfalso. apply (elem_of_nil k), Hi. left.
    - exfalso. eapply elem_of_nil, Hi. simpl. left. }
  assert (wrap (map_sum (scan conf words dd).2) = wrap (len (kept conf words))) as Hsum.
  { rewrite scan_freq. unfold freq_of. rewrite wrap_map_sum_ones, map_sum_empty, scan_seq.
    f_equal. unfold len. rewrite length_fmap. lia. }
  destruct (decide (l ∈ labels ∧ kept conf words ≠ [])) as [[Hl Hk]|Hno].
  - rewrite decide_True by (apply elem_of_visits_snd; by rewrite Hne).
    f_equal. by apply wrap_add_mul.
  - rewrite decide_False; [done|]. rewrite elem_of_visits_snd, Hne. tauto.
Qed.

Lemma size_same_keys (m1 m2 : gmap string Z) :
  (∀ w, is_Some (m1 !! w) ↔ is_Some (m2 !! w)) → size m1 = size m2.
Proof.
  intros Hk. rewrite <- !(size_dom (D := gset string)). f_equal.
  apply set_eq. intros w. by rewrite !elem_of_dom.
Qed.

(** ** No counter without a word *)

Lemma Add_count_fresh freqWord wordID labelID dd :
  wordID < WordCount dd → fresh dd →
  let dd' := final_state (Add_count freqWord wordID labelID dd) in
  WordCount dd' = WordCount dd ∧ fresh dd'.
Proof.
  intros Hw [Hf1 Hf2]. unfold Add_count. simpl.
  assert (∀ i, WordCount dd ≤ i →
            map_get (bump (WordDocCount dd) wordID 1) i = 0) as Hf1'.
  { intros i Hi. rewrite map_get_bump, decide_False by lia. by apply Hf1. }
  destruct (LWF dd !! labelID) as [m|] eqn:E; simpl; (split; [done|]); split; try done.
  intros l i Hi. simpl in Hi. unfold LWF_get. simpl. rewrite lookup_insert.
  destruct (decide (labelID = l)) as [<-|Hne]; simpl; [|by apply Hf2].
  rewrite map_get_bump, decide_False by lia.
  specialize (Hf2 labelID i Hi). unfold LWF_get in Hf2. by rewrite E in Hf2.
Qed.

Lemma Add_label_fresh labelID dd :
  fresh dd →
  let dd' := final_state (Add_label labelID dd) in
  WordCount dd' = WordCount dd ∧ fresh dd'.
Proof.
  intros Hf. unfold Add_label. destruct (slice_get _ _); [|done].
  by destruct (slice_set _ _ _).
Qed.

Lemma scan_fresh words dd :
  vocab_ok dd → fresh dd →
  Z.of_nat (size (idxs (scan conf words dd).1.1)) ≤ int_max →
  fresh (scan conf words dd).1.1.
Proof.
  intros Hok [Hf1 Hf2] Hmax.
  destruct (scan_vocab_ok words dd Hok Hmax) as (Hsz1 & _). destruct Hok as (Hsz & _).
  pose proof (map_subseteq_size _ _ (scan_subseteq words dd)) as Hle.
  pose proof (scan_frame words dd) as Hfr. simpl in Hfr.
  assert (WordCount dd ≤ WordCount (scan conf words dd).1.1) as Hmono by lia.
  rewrite Hfr. split.
  - intros i Hi. simpl in *. apply Hf1. lia.
  - intros l i Hi. unfold LWF_get in *. simpl in *. apply Hf2. lia.
Qed.

Lemma Add_final_fresh it id words labels dd :
  vocab_ok dd → fresh dd →
  Z.of_nat (size (idxs (scan conf words dd).1.1)) ≤ int_max →
  fresh (final_state (Add conf it id words labels dd)).
Proof.
  intros Hok Hfresh Hmax.
  pose proof (scan_vocab_ok words dd Hok Hmax) as (_ & Hrg & _).
  pose proof (scan_fresh words dd Hok Hfresh Hmax) as Hf1.
  pose proof (scan_seq words dd) as Hseq. pose proof (scan_freq words dd) as Hfreq.
  pose proof (scan_dom words dd) as Hdom.
  unfold Add. destruct (scan conf words dd) as [[dd1 seq] freqWord]. simpl in *.
  set (dd2 := set_DocCount (int_add (DocCount dd1) 1) dd1).
  set (P := λ dd', WordCount dd' = WordCount dd1 ∧ fresh dd').
  assert (P dd2) as H2 by (split; [done|]; by destruct dd1).
  unfold bind. set (loop := for_each _ _ dd2).
  assert (P (final_state loop)) as H3.
  { apply for_each_final_elem; [|done]. intros w dd3 Hw [E3 F3].
    apply elem_of_range_int in Hw. rewrite Hfreq in Hw. apply freq_of_is_Some in Hw.
    rewrite Hseq in Hw. apply list_elem_of_fmap in Hw as (word & -> & Hword).
    destruct (proj2 (Hdom word)) as [i Hi]; [by right|].
    unfold map_get at 1. rewrite Hi. simpl. specialize (Hrg _ _ Hi).
    apply (for_each_final P); [|done]. intros l dd4 [E4 F4].
    destruct (Add_count_fresh freqWord i l dd4) as [E5 F5]; [lia|done|].
    split; [congruence|done]. }
  destruct loop as [[] dd3|p dd3]; simpl in H3; [|apply H3].
  apply (for_each_final P); [|done]. intros l dd4 [E4 F4].
  destruct (Add_label_fresh l dd4 F4) as [E5 F5]. split; [congruence|done].
Qed.

Lemma exec_op_fresh o dd :
  vocab_ok dd → fresh dd →
  Z.of_nat (size (idxs (final_state (exec_op conf o dd)))) ≤ int_max →
  fresh (final_state (exec_op conf o dd)).
Proof.
  rewrite exec_op_final. destruct o as [it id words labels|it words|it outFile io_ok].
  - intros Hok Hf Hmax. destruct (Add_final_vocab it id words labels dd) as (Ei & _).
    simpl in Ei. rewrite Ei in Hmax. by apply Add_final_fresh.
  - intros Hok Hf Hmax. destruct (Predict_final_vocab it words dd) as (Ei & _).
    simpl in Ei. rewrite Ei in Hmax. rewrite Predict_final.
    destruct (UpdatePL_PL_only (scan conf words dd).1.1) as [-> _].
    pose proof (scan_fresh words dd Hok Hf Hmax) as Hf1.
    by destruct (scan conf words dd).1.1.
  - intros Hok [Hf1 Hf2] _.
    assert (∀ dd', WordCount dd' = WordCount dd ∧ WordDocCount dd' = WordDocCount dd
                   ∧ LWF dd' = LWF dd → fresh dd') as Hsame.
    { intros dd' (Ew & Ed & El). unfold fresh, LWF_get. rewrite Ew, Ed, El. by split. }
    apply Hsame. unfold updateWords.
    apply (for_each_final (λ dd', WordCount dd' = WordCount dd
             ∧ WordDocCount dd' = WordDocCount dd ∧ LWF dd' = LWF dd)); [|done].
    intros e dd' Hdd'. unfold updateWords_entry. by destruct (slice_set _ _ _).
Qed.

(** After any run from [New], and as long as the vocabulary has fewer than
    2^63 words, the vocabulary is consistent and no counter is kept for an
    ID without a word. *)
Lemma run_consistent note labelNames ops :
  let dd := final_state (run conf ops (New note labelNames)) in
  Z.of_nat (size (idxs dd)) ≤ int_max → vocab_ok dd ∧ fresh dd.
Proof.
  simpl.
  set (P := λ dd, vocab_inv dd ∧ (Z.of_nat (size (idxs dd)) ≤ int_max → fresh dd)).
  assert (P (final_state (run conf ops (New note labelNames)))) as [Hinv Hf].
  { unfold run. apply for_each_final.
    - intros o dd [Hinv Hf]. split; [by apply exec_op_vocab_inv|]. intros Hmax.
      assert (Z.of_nat (size (idxs dd)) ≤ int_max) as Hmax0.
      { etrans; [|exact Hmax]. apply Nat2Z.inj_le, map_subseteq_size, exec_op_subseteq. }
      apply exec_op_fresh; [by apply Hinv|by apply Hf|done].
    - split; [apply New_vocab_inv|]. intros _. split; [done|].
      intros l i _. unfold LWF_get. simpl.
      by rewrite foldl_insert_empty_default. }
  intros Hmax. split; [by apply Hinv|by apply Hf].
Qed.

(** ** Every run from [New] ends on a well-formed corpus *)

Lemma Add_final_wf it id words labels dd :
  Bow_wf dd → Bow_wf (final_state (Add conf it id words labels dd)).
Proof.
  intros (H1 & H2 & H3 & H4).
  pose proof (scan_frame words dd) as Hfr. unfold Add.
  destruct (scan conf words dd) as [[dd1 seq] freqWord]. simpl in Hfr |- *.
  set (dd2 := set_DocCount (int_add (DocCount dd1) 1) dd1).
  set (P := λ dd', counters_only dd2 dd'
                   ∧ ∀ l, is_Some (LWF dd2 !! l) → is_Some (LWF dd' !! l)).
  assert (P dd2) as H2' by done.
  assert (∀ dd', P dd' → Bow_wf dd') as Hwf.
  { intros dd' [(_ & En & Ec & _ & _ & _ & Ep & _ & El) Hl].
    unfold Bow_wf, in_range. rewrite En, Ec, Ep, El. unfold dd2. simpl.
    rewrite Hfr. simpl. repeat split; try done.
    intros l Hr. apply Hl. unfold dd2. simpl. rewrite Hfr. simpl. by apply H4. }
  apply Hwf. unfold bind. set (loop := for_each _ _ dd2).
  assert (P (final_state loop)) as H3'.
  { apply for_each_final; [|done]. intros w dd3 Hdd3.
    apply for_each_final; [|done]. intros l dd4 [Hc Hl].
    split; [by apply Add_count_counters_only|]. intros l' Hl'. specialize (Hl l' Hl').
    unfold Add_count. simpl. destruct (LWF dd4 !! l) eqn:E; simpl; [|done].
    rewrite lookup_insert_is_Some. destruct (decide (l = l')); auto. }
  destruct loop as [[] dd3|p dd3]; simpl in H3'; [|done].
  apply for_each_final; [|done]. intros l dd4 [Hc Hl].
  split; [by apply Add_label_counters_only|]. intros l' Hl'. specialize (Hl l' Hl').
  unfold Add_label. destruct (slice_get _ _); [|done]. by destruct (slice_set _ _ _).
Qed.

Lemma exec_op_wf o dd : Bow_wf dd → Bow_wf (final_state (exec_op conf o dd)).
Proof.
  rewrite exec_op_final. destruct o as [it id words labels|it words|it outFile io_ok].
  - apply Add_final_wf.
  - intros Hwf. rewrite Predict_final.
    eapply PL_only_wf; [apply UpdatePL_PL_only|].
    pose proof (scan_frame words dd) as Hfr. simpl in Hfr. rewrite Hfr. by destruct dd.
  - intros Hwf.
    assert (∃ ws, final_state (updateWords it dd) = set_Words ws dd) as [ws ->];
      [|by destruct dd].
    unfold updateWords.
    apply (for_each_final (λ dd', ∃ ws, dd' = set_Words ws dd)); [|eauto].
    intros e dd' [ws ->]. unfold updateWords_entry.
    destruct (slice_set _ _ _); simpl; eauto.
Qed.

Lemma run_wf note labelNames ops :
  Bow_wf (final_state (run conf ops (New note labelNames))).
Proof.
  unfold run. apply for_each_final; [|apply New_wf]. intros o dd. apply exec_op_wf.
Qed.

(** ** The order of the tokens of a document *)

(** C8 (amended). Word IDs are given in the order in which new words are
    met, so that permuting the tokens of a document that brings new words
    permutes their IDs, and the two states differ. What does not depend on
    the order of the tokens:
    - when every kept token is already in the vocabulary, the whole outcome
      of [Add]: for the same order of [range] in every state, and for any
      two orders of [range] when the corpus is well formed and the labels
      are in range;
    - everything but the numbering of the words, on a well-formed corpus
      with a consistent vocabulary that keeps no counter for an ID that no
      word has yet, with in-range labels and a vocabulary that stays within
      an [int]: both calls return, for any two orders of [range], with the
      same [Note], [LabelNames], [LabelCount], [Words], [PL], [DocCount],
      [LabelDocCount], [LabelWordCount], [WordCount] and known words, and the
      same [WordDocCount] and [LWF] counts for every word;
    - in particular the same holds on every corpus reached from [New] by
      [Add], [Predict] and [Save], with in-range labels and a vocabulary
      that stays within an [int]. *)
Theorem Add_permuted_words it it' id words words' labels dd :
  words ≡ₚ words' →
  ((∀ w, w ∈ words → skipped conf w = false → is_Some (idxs dd !! w)) →
     Add conf it id words labels dd = Add conf it id words' labels dd
     ∧ (Bow_wf dd → Forall (in_range dd) labels →
        Add conf it id words labels dd = Add conf it' id words' labels dd))
  ∧ (Bow_wf dd → Forall (in_range dd) labels → vocab_ok dd → fresh dd →
     Z.of_nat (size (idxs (scan conf words dd).1.1)) ≤ int_max →
     ∃ d1 d2,
       Add conf it id words labels dd = Ret tt d1
       ∧ Add conf it' id words' labels dd = Ret tt d2
       ∧ same_by_word d1 d2)
  ∧ (∀ note labelNames ops,
       dd = final_state (run conf ops (New note labelNames)) →
       Forall (in_range dd) labels →
       Z.of_nat (size (idxs (scan conf words dd).1.1)) ≤ int_max →
       ∃ d1 d2,
         Add conf it id words labels dd = Ret tt d1
         ∧ Add conf it' id words' labels dd = Ret tt d2
         ∧ same_by_word d1 d2).
Proof.
  intros Hp.
  assert (Bow_wf dd → Forall (in_range dd) labels → vocab_ok dd → fresh dd →
          Z.of_nat (size (idxs (scan conf words dd).1.1)) ≤ int_max →
          ∃ d1 d2,
            Add conf it id words labels dd = Ret tt d1
            ∧ Add conf it' id words' labels dd = Ret tt d2
            ∧ same_by_word d1 d2) as Hgen.
  { intros Hwf Hall Hok Hfresh Hmax.
    assert (kept conf words ≡ₚ kept conf words') as Hkp by (unfold kept; by rewrite Hp).
    assert (∀ w, w ∈ kept conf words ↔ w ∈ kept conf words') as Hin
      by (intros w; by rewrite Hkp).
    assert (∀ w, is_Some (idxs (scan conf words dd).1.1 !! w)
                 ↔ is_Some (idxs (scan conf words' dd).1.1 !! w)) as Hdom
      by (intros w; by rewrite !scan_dom, Hin).
    assert (Z.of_nat (size (idxs (scan conf words' dd).1.1)) ≤ int_max) as Hmax'
      by (by rewrite <- (size_same_keys _ _ Hdom)).
    exists (Add_done conf it words labels dd), (Add_done conf it' words' labels dd).
    split; [apply Add_ok; by apply wf_accepts|].
    split; [apply Add_ok; by apply wf_accepts|].
    destruct (Add_done_frame it words labels dd) as (N1 & L1 & C1 & W1 & P1 & I1 & WC1 & D1).
    destruct (Add_done_frame it' words' labels dd) as (N2 & L2 & C2 & W2 & P2 & I2 & WC2 & D2).
    destruct (Add_done_counts it words labels dd) as (_ & _ & _ & LD1).
    destruct (Add_done_counts it' words' labels dd) as (_ & _ & _ & LD2).
    unfold same_by_word. rewrite N1, N2, L1, L2, C1, C2, W1, W2, P1, P2, D1, D2, LD1, LD2.
    do 7 (split; [done|]). split; [|split; [|split; [|split]]].
    + apply map_eq. intros l. rewrite !LabelWordCount_Add_done.
      unfold len. rewrite (Permutation_length Hkp).
      destruct (decide (l ∈ labels ∧ kept conf words ≠ [])) as [[Hl Hne]|Hno].
      * rewrite decide_True; [done|]. split; [done|]. intros E. apply Hne.
        apply Permutation_nil. by rewrite Hkp, E.
      * rewrite decide_False; [done|]. intros [Hl Hne]. apply Hno. split; [done|].
        intros E. apply Hne. apply Permutation_nil. by rewrite <- Hkp, E.
    + rewrite WC1, WC2.
      destruct (scan_vocab_ok words dd Hok Hmax) as (-> & _).
      destruct (scan_vocab_ok words' dd Hok Hmax') as (-> & _).
      f_equal. by apply size_same_keys.
    + intros w. by rewrite I1, I2.
    + intros w. rewrite !WordDocCountOf_Add_done by done.
      destruct (decide (w ∈ kept conf words ∧ labels ≠ [])) as [[Hw Hl]|Hno].
      * rewrite decide_True; [done|]. by rewrite <- Hin.
      * rewrite decide_False; [done|]. by rewrite <- Hin.
    + intros l w. rewrite !LWF_of_Add_done by done.
      assert (tally (kept conf words) = tally (kept conf words')) as ->.
      { unfold tally. apply bump_list_perm. by rewrite Hkp. }
      destruct (decide (w ∈ kept conf words ∧ l ∈ labels)) as [[Hw Hl]|Hno].
      * rewrite decide_True; [done|]. by rewrite <- Hin.
      * rewrite decide_False; [done|]. by rewrite <- Hin. }
  split; [|split; [exact Hgen|]].
  - intros Hk. destruct (scan_known_perm words words' dd Hp Hk) as [E1 E2].
    split; [by apply Add_same_scan|]. intros Hwf Hall.
    rewrite (Add_same_scan it id words words' labels dd E1 E2).
    rewrite !Add_ok by (by apply wf_accepts). f_equal. apply Add_done_iter.
  - intros note labelNames ops -> Hall Hmax.
    destruct (run_consistent note labelNames ops) as [Hok Hfresh].
    { etrans; [|exact Hmax]. apply Nat2Z.inj_le, map_subseteq_size, scan_subseteq. }
    apply Hgen; [apply run_wf|done|done|done|done].
Qed.

(** ** Add with no label *)

(** C10. [Add] with an empty label list is accepted: it returns, [DocCount]
    has grown by one, the vocabulary is the one the scan of the document
    leaves (every kept token has an ID, known words keep theirs), and
    [WordDocCount], [LWF], [LabelWordCount] and [LabelDocCount] are as
    before. *)
Theorem Add_empty_labels it id words dd :
  ∃ dd',
    Add conf it id words [] dd = Ret tt dd'
    ∧ DocCount dd' = int_add (DocCount dd) 1
    ∧ idxs dd' = idxs (scan conf words dd).1.1
    ∧ WordCount dd' = WordCount (scan conf words dd).1.1
    ∧ idxs dd ⊆ idxs dd'
    ∧ (∀ word, word ∈ words → skipped conf word = false → is_Some (idxs dd' !! word))
    ∧ WordDocCount dd' = WordDocCount dd
    ∧ LWF dd' = LWF dd
    ∧ LabelWordCount dd' = LabelWordCount dd
    ∧ LabelDocCount dd' = LabelDocCount dd.
Proof.
  eexists. split.
  { apply Add_ok. intros l Hl. by apply elem_of_nil in Hl. }
  pose proof (scan_frame words dd) as Hfr.
  pose proof (scan_subseteq words dd) as Hsub.
  pose proof (scan_resolves words dd) as Hres.
  unfold Add_done. destruct (scan conf words dd) as [[dd1 seq] freqWord].
  simpl in Hfr, Hsub, Hres. rewrite visits_nil_r, Add_counts_nil. simpl.
  rewrite Hfr. simpl. repeat split; try done.
Qed.

End Properties.

(** * Instances on the corpus [spam_ham] *)

Example trained_counts :
  DocCount trained = 2
  ∧ LabelDocCount trained = [1; 1]
  ∧ WordDocCountOf "buy" trained = 1
  ∧ LWF_of 0 "buy" trained = 2
  ∧ map_get (LabelWordCount trained) 0 = 3
  ∧ map_get (LabelWordCount trained) 1 = 2
  ∧ WordCount trained = 4.
Proof. vm_compute. repeat split. Qed.

Lemma trained_wf : Bow_wf trained.
Proof.
  unfold Bow_wf, in_range. split; [reflexivity|]. split; [reflexivity|].
  split; [reflexivity|]. intros l Hl.
  change (LabelCount trained) with 2 in Hl.
  assert (l = 0 ∨ l = 1) as [-> | ->] by lia; vm_compute; eauto.
Qed.

Lemma Add_WordDocCount_witness :
  Bow_wf spam_ham ∧ Forall (in_range spam_ham) [0; 1] ∧ [0; 1] ≠ ([] : list Z)
  ∧ ∃ dd',
      Add makeDefaultConfig canonical_iter "d1" ["buy"; "now"; "buy"] [0; 1] spam_ham
      = Ret tt dd'
      ∧ map_get (WordDocCount dd') 0 = 2.
Proof.
  assert (Forall (in_range spam_ham) [0; 1]) as Hall.
  { repeat (constructor; [vm_compute; by split|]). constructor. }
  assert ([0; 1] ≠ ([] : list Z)) as Hne by discriminate.
  split; [apply New_wf|]. split; [done|]. split; [done|].
  destruct (Add_WordDocCount makeDefaultConfig canonical_iter "d1" ["buy"; "now"; "buy"]
              [0; 1] spam_ham (New_wf _ _) Hall Hne) as (dd' & E & Hdd').
  exists dd'. split; [done|].
  destruct (Hdd' 0) as [Hin _]. destruct Hin as [-> _].
  - vm_compute. by left.
  - reflexivity.
Defined.

Lemma Add_out_of_range_counterexample :
  Exists (λ l, ¬ in_range spam_ham l) [5]
  ∧ ¬ Add_rejects_unchanged makeDefaultConfig canonical_iter "d1" ["buy"] [5] spam_ham.
Proof.
  split.
  - left. vm_compute. intros [_ H]. discriminate H.
  - intros [p H]. apply (f_equal final_state) in H. apply (f_equal DocCount) in H.
    vm_compute in H. discriminate H.
Qed.

Lemma Add_ignores_order_counterexample :
  ¬ Add_ignores_order makeDefaultConfig canonical_iter "d1"
      ["buy"; "buy"; "now"] ["now"; "buy"; "buy"] [0] spam_ham.
Proof.
  intros H.
  assert (["buy"; "buy"; "now"] ≡ₚ ["now"; "buy"; "buy"]) as Hp.
  { change ["now"; "buy"; "buy"] with (["now"] ++ ["buy"; "buy"]).
    apply (Permutation_app_comm ["buy"; "buy"] ["now"]). }
  specialize (H Hp). apply (f_equal final_state) in H.
  apply (f_equal (λ dd, idxs dd !! "buy")) in H. vm_compute in H. discriminate H.
Qed.

Lemma Add_out_of_range_witness :
  Bow_wf spam_ham ∧ Exists (λ l, ¬ in_range spam_ham l) [5]
  ∧ ∃ p dd',
      Add makeDefaultConfig canonical_iter "d1" ["buy"] [5] spam_ham = Panic p dd'
      ∧ DocCount dd' = 1.
Proof.
  assert (Exists (λ l, ¬ in_range spam_ham l) [5]) as Hex.
  { left. vm_compute. intros [_ H]. discriminate H. }
  split; [apply New_wf|]. split; [done|].
  destruct (Add_out_of_range makeDefaultConfig canonical_iter "d1" ["buy"] [5] spam_ham
              (New_wf _ _) Hex) as (p & dd' & E & _ & HD & _).
  exists p, dd'. split; [done|]. rewrite HD. reflexivity.
Defined.

Lemma Add_two_labels_witness :
  Bow_wf trained ∧ in_range trained 0 ∧ in_range trained 1
  ∧ ∃ d_ab d_a d_b,
      Add makeDefaultConfig canonical_iter "d3" ["buy"; "friend"; "buy"] [0; 1] trained
      = Ret tt d_ab
      ∧ Add makeDefaultConfig canonical_iter "d3" ["buy"; "friend"; "buy"] [0] trained
        = Ret tt d_a
      ∧ Add makeDefaultConfig canonical_iter "d3" ["buy"; "friend"; "buy"] [1] d_a = Ret tt d_b
      ∧ d_b = set_DocCount 4 d_ab ∧ DocCount d_ab = 3.
Proof.
  assert (in_range trained 0) as H0 by (vm_compute; by split).
  assert (in_range trained 1) as H1 by (vm_compute; by split).
  split; [apply trained_wf|]. split; [done|]. split; [done|].
  destruct (Add_two_labels makeDefaultConfig canonical_iter canonical_iter canonical_iter "d3"
              ["buy"; "friend"; "buy"] 0 1 trained trained_wf H0 H1)
    as (d_ab & d_a & d_b & E1 & E2 & E3 & D1 & D2 & E).
  exists d_ab, d_a, d_b. split; [done|]. split; [done|]. split; [done|].
  split; [by rewrite E, D2|]. by rewrite D1.
Defined.

Lemma LabelWordCount_is_sum_witness :
  Forall (labelled_add (len ["spam"; "ham"])) two_adds
  ∧ ∃ dd,
      run makeDefaultConfig two_adds (New (FL := symbolic_float) "" ["spam"; "ham"])
      = Ret tt dd
      ∧ map_sum (default ∅ (LWF dd !! 0)) = map_get (LabelWordCount dd) 0.
Proof.
  assert (Forall (labelled_add (len ["spam"; "ham"])) two_adds) as Hops.
  { unfold two_adds. rewrite !Forall_cons, Forall_nil. simpl.
    rewrite !Forall_singleton. unfold len. simpl. repeat split; (done || lia). }
  split; [done|].
  destruct (LabelWordCount_is_sum (FL := symbolic_float) makeDefaultConfig "" ["spam"; "ham"] two_adds Hops)
    as (dd & E & Hdd).
  exists dd. split; [done|].
  destruct (Hdd 0) as [_ Hfit].
  - assert (LabelCount dd = 2) as Hlc.
    { apply (f_equal final_state) in E. simpl in E. by rewrite <- E. }
    unfold in_range. rewrite Hlc. lia.
  - apply Hfit. apply (f_equal final_state) in E. simpl in E. rewrite <- E.
    vm_compute. split; discriminate.
Defined.

Lemma UpdatePL_after_training_witness :
  Forall (training_op (len ["spam"; "ham"])) (two_adds ++ [OpPredict canonical_iter ["buy"]])
  ∧ count_adds (two_adds ++ [OpPredict canonical_iter ["buy"]]) + len ["spam"; "ham"] ≤ int_max
  ∧ ∃ dd dd',
      run makeDefaultConfig (two_adds ++ [OpPredict canonical_iter ["buy"]])
        (New (FL := symbolic_float) "" ["spam"; "ham"]) = Ret tt dd
      ∧ UpdatePL dd = Ret tt dd'
      ∧ slice_get (PL dd') 0 = Some (FDiv (FInt 2) (FInt 4)).
Proof.
  assert (Forall (training_op (len ["spam"; "ham"]))
            (two_adds ++ [OpPredict canonical_iter ["buy"]])) as Hops.
  { unfold two_adds. simpl. rewrite !Forall_cons, Forall_nil. simpl.
    rewrite !Forall_singleton. unfold len. simpl.
    repeat split; try done; try lia; apply NoDup_singleton. }
  assert (count_adds (two_adds ++ [OpPredict canonical_iter ["buy"]]) + len ["spam"; "ham"]
          ≤ int_max) as Hmax by (vm_compute; discriminate).
  split; [done|]. split; [done|].
  destruct (UpdatePL_after_training (FL := symbolic_float) makeDefaultConfig "" ["spam"; "ham"] _ Hops Hmax)
    as (dd & E & _ & dd' & E' & _ & Hpl).
  exists dd, dd'. split; [done|]. split; [done|].
  assert (dd = final_state (run makeDefaultConfig (two_adds ++ [OpPredict canonical_iter ["buy"]])
                              (New (FL := symbolic_float) "" ["spam"; "ham"]))) as Hdd
    by (by rewrite E).
  destruct (Hpl 0) as (n & Hn & ->).
  - rewrite Hdd. vm_compute. by split.
  - rewrite Hdd in Hn |- *. vm_compute in Hn. injection Hn as <-. reflexivity.
Defined.

Lemma PLD_scores_witness :
  Bow_wf trained ∧ returns (UpdatePL trained)
  ∧ PLD canonical_iter {[0 := 2]} trained = PLD canonical_iter {[0 := 1]} trained
  ∧ ∃ r dd', PLD canonical_iter {[0 := 2]} trained = Ret r dd' ∧ len r = 2.
Proof.
  assert (returns (UpdatePL trained)) as Hret by (vm_compute; exact I).
  split; [apply trained_wf|]. split; [done|].
  destruct (PLD_scores canonical_iter {[0 := 2]} trained trained_wf Hret) as (E & _ & Hsame).
  split.
  - symmetry. apply Hsame. intros l. reflexivity.
  - eexists _, _. split; [exact E|]. reflexivity.
Defined.

Lemma vocabulary_consistent_witness :
  let dd := final_state (run makeDefaultConfig session spam_ham) in
  Z.of_nat (size (idxs dd)) ≤ int_max
  ∧ Words dd = ["buy"; "now"; "hello"; "friend"; "cheap"]
  ∧ ∀ i w, Words dd !! i = Some w → idxs dd !! w = Some (Z.of_nat i).
Proof.
  simpl.
  assert (Z.of_nat (size (idxs (final_state (run makeDefaultConfig session spam_ham))))
          ≤ int_max) as Hmax by (vm_compute; discriminate).
  split; [done|]. split; [reflexivity|].
  apply (vocabulary_consistent (FL := symbolic_float) makeDefaultConfig "" ["spam"; "ham"] session Hmax).
Defined.

Lemma Add_permuted_words_witness :
  ["buy"; "sell"; "buy"; "hold"] ≡ₚ ["hold"; "buy"; "sell"; "buy"]
  ∧ ∃ d1 d2,
      Add makeDefaultConfig canonical_iter "d3" ["buy"; "sell"; "buy"; "hold"] [0; 1] trained
      = Ret tt d1
      ∧ Add makeDefaultConfig canonical_iter "d3" ["hold"; "buy"; "sell"; "buy"] [0; 1] trained
        = Ret tt d2
      ∧ same_by_word d1 d2
      ∧ idxs d1 !! "sell" = Some 4 ∧ idxs d2 !! "sell" = Some 5.
Proof.
  assert (["buy"; "sell"; "buy"; "hold"] ≡ₚ ["hold"; "buy"; "sell"; "buy"]) as Hp.
  { change ["hold"; "buy"; "sell"; "buy"] with (["hold"] ++ ["buy"; "sell"; "buy"]).
    apply (Permutation_app_comm ["buy"; "sell"; "buy"] ["hold"]). }
  split; [done|].
  destruct (Add_permuted_words makeDefaultConfig canonical_iter canonical_iter "d3"
              ["buy"; "sell"; "buy"; "hold"] ["hold"; "buy"; "sell"; "buy"] [0; 1]
              trained Hp) as (_ & Hgen & _).
  destruct (run_consistent (FL := symbolic_float) makeDefaultConfig "" ["spam"; "ham"] two_adds) as [Hok Hfresh].
  { vm_compute. discriminate. }
  destruct Hgen as (d1 & d2 & E1 & E2 & Hsame).
  - apply trained_wf.
  - rewrite !Forall_cons, Forall_nil. vm_compute. repeat split; discriminate.
  - exact Hok.
  - exact Hfresh.
  - vm_compute. discriminate.
  - exists d1, d2. split; [done|]. split; [done|]. split; [done|].
    apply (f_equal final_state) in E1, E2. simpl in E1, E2. rewrite <- E1, <- E2.
    split; reflexivity.
Defined.

(** * Further properties of the operations *)

Section Further.
Context {FL : Float64}.
Variable conf : Config.
Implicit Types (dd : Bow) (it : MapIter) (labels : list Z) (words : list string).

(** ** Stop words *)

Lemma prefix_append (c x : string) :
  String.prefix c x = true ↔ ∃ r, x = (c +:+ r)%string.
Proof.
  revert x. induction c as [|a c IH]; intros x.
  - split; [intros _; by exists x|]. intros _. by destruct x.
  - destruct x as [|b x]; simpl.
    + split; [done|]. by intros [r ?].
    + destruct (Ascii.ascii_dec a b) as [->|Hne].
      * rewrite IH. split; intros [r E]; exists r; [by rewrite E|by injection E].
      * split; [done|]. intros [r E]. by injection E.
Qed.

(** X1. [IsStopWord(x)] holds exactly when [x] is one of [StopWords] or
    starts with one of [StopWordClasses]; in particular an empty class makes
    every token a stop word. *)
Theorem IsStopWord_spec c x :
  (IsStopWord c x = true
   ↔ x ∈ StopWords c ∨ ∃ wordClass r, wordClass ∈ StopWordClasses c ∧ x = (wordClass +:+ r)%string)
  ∧ (EmptyString ∈ StopWordClasses c → IsStopWord c x = true).
Proof.
  assert (IsStopWord c x = true
   ↔ x ∈ StopWords c ∨ ∃ wordClass r, wordClass ∈ StopWordClasses c ∧ x = (wordClass +:+ r)%string)
    as Hspec.
  { unfold IsStopWord. rewrite orb_true_iff, !existsb_exists. split.
    - intros [(w & Hw & E)|(wc & Hwc & E)].
      + left. apply bool_decide_eq_true in E. subst. by apply list_elem_of_In.
      + right. apply prefix_append in E as [r E]. exists wc, r.
        split; [by apply list_elem_of_In|done].
    - intros [Hx|(wc & r & Hwc & E)].
      + left. exists x. split; [by apply list_elem_of_In|]. by apply bool_decide_eq_true.
      + right. exists wc. split; [by apply list_elem_of_In|]. apply prefix_append. eauto. }
  split; [exact Hspec|]. intros Hin. apply Hspec. right. exists EmptyString, x. done.
Qed.

(** ** The scan and the configuration *)

Lemma foldl_scan_word_ext (conf1 conf2 : Config) words st :
  (∀ w, w ∈ words → skipped conf1 w = skipped conf2 w) →
  foldl (scan_word conf1) st words = foldl (scan_word conf2) st words.
Proof.
  revert st. induction words as [|w words IH]; intros [[dd seq] f] Hsk; [done|].
  cbn [foldl]. rewrite IH by (intros w' ?; apply Hsk; by right).
  f_equal. unfold scan_word. by rewrite (Hsk w) by left.
Qed.

Lemma foldl_scan_word_kept words st :
  foldl (scan_word conf) st (kept conf words) = foldl (scan_word conf) st words.
Proof.
  revert st. induction words as [|w words IH]; intros [[dd seq] f]; [done|].
  unfold kept. destruct (skipped conf w) eqn:Hsk.
  - rewrite filter_cons_False by (by rewrite Hsk). cbn [foldl].
    rewrite <- IH. f_equal. unfold scan_word. by rewrite Hsk.
  - rewrite filter_cons_True by done. cbn [foldl]. apply IH.
Qed.

Lemma Add_scan_eq (conf1 conf2 : Config) it id words words' labels dd :
  scan conf1 words dd = scan conf2 words' dd →
  Add conf1 it id words labels dd = Add conf2 it id words' labels dd.
Proof. intros E. unfold Add. by rewrite E. Qed.

Lemma Predict_scan_eq (conf1 conf2 : Config) it words words' dd :
  scan conf1 words dd = scan conf2 words' dd →
  Predict conf1 it words dd = Predict conf2 it words' dd.
Proof. intros E. unfold Predict. by rewrite E. Qed.

(** X2. When [UseStopWords] is off the stop-word lists are not consulted:
    [Add] and [Predict] behave as under the default configuration. *)
Theorem UseStopWords_off it id words labels dd :
  UseStopWords conf = false →
  Add conf it id words labels dd = Add makeDefaultConfig it id words labels dd
  ∧ Predict conf it words dd = Predict makeDefaultConfig it words dd.
Proof.
  intros Hoff.
  assert (scan conf words dd = scan makeDefaultConfig words dd) as E.
  { apply foldl_scan_word_ext. intros w _. unfold skipped. by rewrite Hoff. }
  split; [by apply Add_scan_eq|by apply Predict_scan_eq].
Qed.

(** X3. The tokens that the scan skips (empty tokens, stop words) have no
    effect at all: [Add] and [Predict] give the same result on a document
    and on the document without them. *)
Theorem skipped_tokens_ignored it id words labels dd :
  Add conf it id words labels dd = Add conf it id (kept conf words) labels dd
  ∧ Predict conf it words dd = Predict conf it (kept conf words) dd
  ∧ ∀ word, word ∈ kept conf words ↔ word ∈ words ∧ skipped conf word = false.
Proof.
  assert (scan conf words dd = scan conf (kept conf words) dd) as E
    by (symmetry; apply foldl_scan_word_kept).
  split; [by apply Add_scan_eq|]. split; [by apply Predict_scan_eq|].
  intros word. unfold kept. rewrite list_elem_of_filter. tauto.
Qed.

(** ** What [Add] leaves alone *)

Lemma Add_final_counters_only it id words labels dd :
  let dd1 := (scan conf words dd).1.1 in
  counters_only (set_DocCount (int_add (DocCount dd1) 1) dd1)
    (final_state (Add conf it id words labels dd)).
Proof.
  unfold Add. destruct (scan conf words dd) as [[dd1 seq] freqWord]. simpl.
  set (dd2 := set_DocCount (int_add (DocCount dd1) 1) dd1).
  unfold bind. set (loop := for_each _ _ dd2).
  assert (counters_only dd2 (final_state loop)) as H3.
  { apply for_each_final; [|done]. intros w dd3 Hdd3.
    apply for_each_final; [|done]. intros l dd4 Hdd4.
    by apply Add_count_counters_only. }
  destruct loop as [[] dd3|p dd3]; [|done]. simpl in H3.
  apply for_each_final; [|done]. intros l dd4. apply Add_label_counters_only.
Qed.

(** X4. However [Add] ends, and whatever its arguments, it has counted the
    document in [DocCount] and has left [Note], [LabelNames], [LabelCount],
    [Words] and the cached priors [PL] untouched; [LabelDocCount] keeps its
    length and known words keep their IDs. In particular [PL] is stale after
    an [Add] until [UpdatePL] runs. *)
Theorem Add_frame it id words labels dd :
  let dd' := final_state (Add conf it id words labels dd) in
  DocCount dd' = int_add (DocCount dd) 1
  ∧ Note dd' = Note dd ∧ LabelNames dd' = LabelNames dd ∧ LabelCount dd' = LabelCount dd
  ∧ Words dd' = Words dd ∧ PL dd' = PL dd
  ∧ len (LabelDocCount dd') = len (LabelDocCount dd)
  ∧ idxs dd ⊆ idxs dd'.
Proof.
  simpl. pose proof (Add_final_counters_only it id words labels dd) as Hc.
  pose proof (scan_frame conf words dd) as Hfr.
  pose proof (scan_subseteq conf words dd) as Hsub.
  simpl in Hc, Hfr. destruct Hc as (-> & -> & -> & -> & _ & -> & -> & -> & ->). simpl.
  split; [|split; [|split; [|split; [|split; [|split; [|split]]]]]]; try done;
    by rewrite Hfr.
Qed.

(** ** A document without tokens *)

Lemma range_int_empty it n : range_int it n ∅ = [].
Proof.
  apply Permutation_nil. rewrite (range_int_perm it n ∅). by rewrite map_to_list_empty.
Qed.

(** X5. A document in which every token is skipped (an empty document, or
    only empty tokens and stop words) still counts: with in-range labels on
    a well-formed corpus, [Add] returns having incremented [DocCount] and
    the [LabelDocCount] of its labels, and nothing else. *)
Theorem Add_no_token it id words labels dd :
  kept conf words = [] → Bow_wf dd → Forall (in_range dd) labels →
  Add conf it id words labels dd
  = Ret tt (set_LabelDocCount (foldl LabelDocCount_bump (LabelDocCount dd) labels)
              (set_DocCount (int_add (DocCount dd) 1) dd)).
Proof.
  intros Hk Hwf Hall. rewrite (Add_ok conf) by (by apply wf_accepts). f_equal.
  unfold Add_done, scan. rewrite <- foldl_scan_word_kept, Hk. simpl.
  by rewrite range_int_empty, Add_counts_nil.
Qed.

(** ** The documents of a label *)

Lemma count_label_notin l labels : l ∉ labels → count_label l labels = 0.
Proof. intros Hl. unfold count_label. apply incr_of_notin. by rewrite fst_ones. Qed.

Lemma count_label_NoDup l labels : NoDup labels → l ∈ labels → count_label l labels = 1.
Proof.
  induction 1 as [|l' labels Hl' Hnd IH]; intros Hl; [by apply elem_of_nil in Hl|].
  rewrite count_label_cons. destruct (decide (l' = l)) as [->|Hne].
  - rewrite count_label_notin by done. lia.
  - apply elem_of_cons in Hl as [->|Hl]; [done|]. rewrite IH by done. lia.
Qed.

Lemma count_label_pos l labels : l ∈ labels → 0 < count_label l labels.
Proof.
  induction labels as [|l' labels IH]; intros Hl; [by apply elem_of_nil in Hl|].
  rewrite count_label_cons. destruct (decide (l' = l)) as [->|Hne].
  - destruct (decide (l ∈ labels)); [specialize (IH ltac:(done)); lia|].
    rewrite count_label_notin by done. lia.
  - apply elem_of_cons in Hl as [->|Hl]; [done|]. specialize (IH Hl). lia.
Qed.

Lemma foldl_LabelDocCount_bump_lookup labels (s : list Z) (i : nat) :
  (∀ l, l ∈ labels → 0 ≤ l) →
  foldl LabelDocCount_bump s labels !! i
  = (λ n, if decide (Z.of_nat i ∈ labels)
          then wrap (n + count_label (Z.of_nat i) labels) else n) <$> (s !! i).
Proof.
  revert s. induction labels as [|l labels IH]; intros s Hpos.
  - simpl. by destruct (s !! i).
  - cbn [foldl]. rewrite IH by (intros l' ?; apply Hpos; by right).
    assert (0 ≤ l) as Hl by (apply Hpos; left).
    unfold LabelDocCount_bump. rewrite count_label_cons.
    destruct (decide (i = Z.to_nat l)) as [->|Hne].
    + rewrite Z2Nat.id by done.
      destruct (s !! Z.to_nat l) as [n|] eqn:E.
      * rewrite list_lookup_insert_eq by (by apply lookup_lt_Some in E). simpl.
        rewrite (decide_True (P := l ∈ l :: labels)) by left.
        rewrite (decide_True (P := l = l)) by done.
        f_equal. unfold int_add. destruct (decide (l ∈ labels)).
        -- rewrite wrap_add_l. f_equal; lia.
        -- rewrite count_label_notin by done. f_equal; lia.
      * rewrite (proj2 (list_lookup_insert_None _ _ _ _)) by done. done.
    + rewrite list_lookup_insert_ne by done.
      assert (l ≠ Z.of_nat i) as Hne' by lia.
      destruct (s !! i) as [n|]; simpl; [|done].
      rewrite (decide_False (P := l = Z.of_nat i)) by done. f_equal.
      destruct (decide (Z.of_nat i ∈ labels)).
      * rewrite decide_True by (by right). f_equal; lia.
      * rewrite decide_False; [done|]. intros [?|?]%elem_of_cons; congruence.
Qed.

(** X6. After an [Add] with in-range labels on a well-formed corpus, the
    [LabelDocCount] of a label has grown by the number of times the label is
    listed (a label listed twice is counted twice; by one when the list has
    no duplicates), and the other labels keep theirs. *)
Theorem LabelDocCount_after_Add it id words labels dd :
  Bow_wf dd → Forall (in_range dd) labels →
  ∃ dd',
    Add conf it id words labels dd = Ret tt dd'
    ∧ ∀ l n, slice_get (LabelDocCount dd) l = Some n →
        (l ∈ labels →
           slice_get (LabelDocCount dd') l = Some (wrap (n + count_label l labels))
           ∧ 0 < count_label l labels
           ∧ (NoDup labels → count_label l labels = 1))
        ∧ (l ∉ labels → slice_get (LabelDocCount dd') l = Some n).
Proof.
  intros Hwf Hall. eexists. split; [apply Add_ok; by apply wf_accepts|].
  destruct (Add_done_counts conf it words labels dd) as (_ & _ & _ & ->).
  intros l n Hn. unfold slice_get in *. case_decide as Hl; [|done].
  rewrite foldl_LabelDocCount_bump_lookup, Hn, Z2Nat.id by
    (try done; intros l' Hl'; rewrite Forall_forall in Hall; by apply Hall).
  simpl. split.
  - intros Hin. rewrite decide_True by done. split; [done|].
    split; [by apply count_label_pos|]. intros Hnd. by apply count_label_NoDup.
  - intros Hnin. by rewrite decide_False.
Qed.

(** ** What a document adds to the counters of a word *)

Lemma incr_of_ones_count (ws : list string) w :
  incr_of w ((λ w, (w, 1)) <$> ws) = len (filter (λ w', w' = w) ws).
Proof.
  unfold len. induction ws as [|w0 ws IH]; [done|].
  rewrite fmap_cons, incr_of_cons, IH. simpl. destruct (decide (w0 = w)) as [->|Hne].
  - rewrite filter_cons_True by done. simpl. lia.
  - rewrite filter_cons_False by done. lia.
Qed.

Lemma tally_count (ws : list string) w :
  map_get (tally ws) w = wrap (len (filter (λ w', w' = w) ws)).
Proof.
  unfold tally. rewrite map_get_bump_list, fst_ones.
  unfold map_get. rewrite lookup_empty. simpl. case_decide as Hin.
  - by rewrite incr_of_ones_count.
  - rewrite <- incr_of_ones_count, incr_of_notin; [done|by rewrite fst_ones].
Qed.

(** X7. Training, word by word. On a corpus reached from [New] (with a
    vocabulary of fewer than 2^63 words), an [Add] with in-range labels
    returns, and for every word string: [WordDocCountOf] grows by
    [len(labels)] if the word is a kept token of the document; the count of
    the word under a label grows by (times the label is listed) x
    (occurrences of the word in the document); [LabelWordCount] of a listed
    label grows by (times listed) x (number of kept tokens). All other
    counts are unchanged, and a word that is not known counts 0. *)
Theorem Add_by_word note labelNames ops it id words labels :
  let dd := final_state (run conf ops (New note labelNames)) in
  Forall (in_range dd) labels →
  Z.of_nat (size (idxs (scan conf words dd).1.1)) ≤ int_max →
  ∃ dd',
    Add conf it id words labels dd = Ret tt dd'
    ∧ (∀ word,
         WordDocCountOf word dd' =
         if decide (word ∈ kept conf words ∧ labels ≠ [])
         then wrap (WordDocCountOf word dd + len labels) else WordDocCountOf word dd)
    ∧ (∀ l word,
         LWF_of l word dd' =
         if decide (word ∈ kept conf words ∧ l ∈ labels)
         then wrap (LWF_of l word dd
                    + count_label l labels
                      * wrap (len (filter (λ w, w = word) (kept conf words))))
         else LWF_of l word dd)
    ∧ (∀ l,
         map_get (LabelWordCount dd') l =
         if decide (l ∈ labels ∧ kept conf words ≠ [])
         then wrap (map_get (LabelWordCount dd) l
                    + count_label l labels * len (kept conf words))
         else map_get (LabelWordCount dd) l)
    ∧ (∀ word, idxs dd' !! word = None → WordDocCountOf word dd' = 0).
Proof.
  simpl. intros Hall Hmax.
  set (dd := final_state (run conf ops (New note labelNames))) in *.
  pose proof (run_wf conf note labelNames ops) as Hwf. fold dd in Hwf.
  destruct (run_consistent conf note labelNames ops) as [Hok Hfresh].
  { etrans; [|exact Hmax]. apply Nat2Z.inj_le, map_subseteq_size, scan_subseteq. }
  fold dd in Hok, Hfresh.
  eexists. split; [apply Add_ok; by apply wf_accepts|].
  split; [intros word; by apply WordDocCountOf_Add_done|]. split.
  { intros l word. rewrite (LWF_of_Add_done conf) by done. by rewrite tally_count. }
  split.
  { intros l. unfold map_get at 1. rewrite LabelWordCount_Add_done.
    by case_decide. }
  intros word Hw. unfold WordDocCountOf. by rewrite Hw.
Qed.

(** ** The IDs of new words *)

Lemma foldl_scan_word_new ws dd seq freqWord :
  (∀ w, w ∈ ws → skipped conf w = false ∧ idxs dd !! w = None) → NoDup ws →
  int_min ≤ WordCount dd → WordCount dd + len ws ≤ int_max →
  let r := foldl (scan_word conf) (dd, seq, freqWord) ws in
  r.1.2 = seq ++ seqZ (WordCount dd) (len ws)
  ∧ WordCount r.1.1 = WordCount dd + len ws
  ∧ ∀ (i : nat) w, ws !! i = Some w → idxs r.1.1 !! w = Some (WordCount dd + Z.of_nat i).
Proof.
  revert dd seq freqWord. induction ws as [|w ws IH]; intros dd seq freqWord Hnew Hnd Hlo Hhi.
  - simpl. rewrite app_nil_r. split; [done|]. split; [unfold len; simpl; lia|done].
  - apply NoDup_cons in Hnd as [Hw Hnd]. destruct (Hnew w) as [Hsk Hnone]; [left|].
    assert (len (w :: ws) = 1 + len ws) as Hlen by (unfold len; simpl; lia).
    rewrite Hlen in Hhi |- *.
    cbn [foldl]. rewrite scan_word_eq, Hsk.
    assert (resolve w dd = set_WordCount (WordCount dd + 1)
              (set_idxs (<[w := WordCount dd]> (idxs dd)) dd)) as Hres.
    { unfold resolve. rewrite Hnone. unfold int_add. rewrite wrap_small; [done|].
      unfold len in Hhi. lia. }
    rewrite Hres. simpl.
    assert (map_get (<[w := WordCount dd]> (idxs dd)) w = WordCount dd) as Hget
      by (unfold map_get; by rewrite lookup_insert_eq).
    rewrite !Hget.
    set (dd1 := set_WordCount _ _).
    destruct (IH dd1 (seq ++ [WordCount dd]) (bump freqWord (WordCount dd) 1))
      as (E1 & E2 & E3); try done.
    { intros w' Hw'. destruct (Hnew w') as [? ?]; [by right|]. split; [done|].
      unfold dd1. simpl. rewrite lookup_insert_ne; [done|]. by intros ->. }
    { unfold dd1. simpl. lia. }
    { unfold dd1. simpl. lia. }
    simpl in E1, E2, E3.
    split; [|split].
    + rewrite E1, <- app_assoc. f_equal. rewrite (seqZ_cons (WordCount dd)) by (unfold len; lia).
      simpl. do 2 f_equal; lia.
    + rewrite E2. lia.
    + intros [|i] w' Hi; simpl in Hi.
      * injection Hi as <-. rewrite Z.add_0_r.
        eapply lookup_weaken; [|apply foldl_scan_word_subseteq].
        unfold dd1. simpl. apply lookup_insert_eq.
      * rewrite (E3 i w' Hi). f_equal. lia.
Qed.

(** X8. Word IDs are dense and given in first-seen order: when the kept
    tokens of a document are new and pairwise distinct, the scan gives them
    the IDs [WordCount], [WordCount] + 1, ... in the order of the document,
    and [WordCount] grows by their number. *)
Theorem scan_new_words words dd :
  (∀ w, w ∈ kept conf words → idxs dd !! w = None) → NoDup (kept conf words) →
  int_min ≤ WordCount dd → WordCount dd + len (kept conf words) ≤ int_max →
  (scan conf words dd).1.2 = seqZ (WordCount dd) (len (kept conf words))
  ∧ WordCount (scan conf words dd).1.1 = WordCount dd + len (kept conf words)
  ∧ ∀ (i : nat) w, kept conf words !! i = Some w →
      idxs (scan conf words dd).1.1 !! w = Some (WordCount dd + Z.of_nat i).
Proof.
  intros Hnew Hnd Hlo Hhi. unfold scan. rewrite <- foldl_scan_word_kept.
  apply (foldl_scan_word_new (kept conf words) dd [] ∅); try done.
  intros w Hw. split; [|by apply Hnew]. by apply elem_of_kept in Hw as [_ ?].
Qed.

(** ** The priors *)

(** X9. On a corpus fresh from [New] (with at most 2^63 - 1 labels)
    [UpdatePL] changes nothing: the priors that [New] stores are already the
    smoothed priors of an empty corpus. *)
Theorem UpdatePL_New note labelNames :
  len labelNames ≤ int_max →
  UpdatePL (New note labelNames) = Ret tt (New note labelNames).
Proof.
  intros Hmax. assert (0 ≤ len labelNames) as Hpos by (unfold len; lia).
  assert (∀ l, 0 ≤ l < len labelNames →
            slice_get (LabelDocCount (New note labelNames)) l = Some 0) as Hldc.
  { intros l Hl. simpl. by rewrite slice_get_seqZ_fmap. }
  rewrite UpdatePL_ok.
  - f_equal.
    assert ((λ l, prior (New note labelNames)
                    (default 0 (slice_get (LabelDocCount (New note labelNames)) l)))
              <$> seqZ 0 (LabelCount (New note labelNames))
            = PL (New note labelNames)) as ->.
    { change (PL (New note labelNames))
        with ((λ _ : Z, fdiv (of_int 1) (of_int (len labelNames))) <$> seqZ 0 (len labelNames)).
      change (LabelCount (New note labelNames)) with (len labelNames).
      apply list_fmap_ext. intros i l Hl. apply lookup_seqZ in Hl as [-> Hi].
      rewrite Hldc by lia. simpl. unfold prior, int_add. simpl.
      by rewrite !wrap_small by (unfold int_min, int_max in *; lia). }
    generalize (New note labelNames). by intros [].
  - apply New_wf.
  - intros l n Hn.
    assert (0 ≤ l < len labelNames) as Hl.
    { simpl in Hn. unfold slice_get in Hn. case_decide; [|done].
      apply lookup_lt_Some in Hn. rewrite length_fmap, length_seqZ in Hn. lia. }
    rewrite Hldc in Hn by done. injection Hn as <-. simpl. unfold int_add. simpl.
    rewrite !wrap_small by (unfold int_min, int_max in *; lia). lia.
Qed.

(** X10. [UpdatePL] only depends on the counters and only writes [PL]: on
    a well-formed corpus whose labels pass its guard it returns, the corpus
    differs from the one before in [PL] only, and a second [UpdatePL]
    changes nothing. *)
Theorem UpdatePL_twice dd :
  Bow_wf dd → guard_ok dd →
  ∃ dd',
    UpdatePL dd = Ret tt dd'
    ∧ dd' = set_PL (PL dd') dd
    ∧ len (PL dd') = LabelCount dd
    ∧ UpdatePL dd' = Ret tt dd'.
Proof.
  intros Hwf Hg. pose proof (UpdatePL_ok dd Hwf Hg) as E.
  pose proof (UpdatePL_PL_only dd) as Hpl. rewrite E in Hpl. simpl in Hpl.
  pose proof (PL_only_wf _ _ Hpl Hwf) as Hwf'.
  eexists. split; [exact E|]. split; [done|]. split.
  { simpl. destruct Hwf' as (_ & _ & Hlen & _). exact Hlen. }
  rewrite UpdatePL_ok; [|done|by destruct dd]. by destruct dd.
Qed.

(** One label that fails the guard stops the loop of [UpdatePL]. *)
Lemma for_each_UpdatePL_label_fatal ls dd :
  (∀ l, l ∈ ls → 0 ≤ l < len (PL dd) ∧ 0 ≤ l < len (LabelDocCount dd)) →
  Exists (λ l, ∃ n, slice_get (LabelDocCount dd) l = Some n
                    ∧ int_add n 1 > int_add (DocCount dd) (LabelCount dd)) ls →
  ∃ dd', for_each UpdatePL_label ls dd = Panic Fatal dd'.
Proof.
  revert dd. induction ls as [|l ls IH]; intros dd Hls Hex; [by apply Exists_nil in Hex|].
  destruct (Hls l) as [Hpl Hldc]; [left|].
  destruct (slice_get_Some _ _ Hldc) as (n & Hn & _).
  simpl. unfold UpdatePL_label at 1. rewrite Hn. case_decide as Hguard; [eauto|].
  unfold slice_set. rewrite decide_True by done.
  apply IH.
  - intros l' Hl'. simpl. unfold len. rewrite length_insert. apply Hls. by right.
  - simpl. apply Exists_cons in Hex as [(n' & Hn' & Hbad)|Hex]; [|done].
    rewrite Hn in Hn'. injection Hn' as <-. done.
Qed.

(** X11. The guard of [UpdatePL]: on a well-formed corpus in which some
    label has [LabelDocCount[l] + 1 > DocCount + LabelCount], [UpdatePL]
    panics with its own message, and so does every [Predict], whatever the
    document. *)
Theorem UpdatePL_guard dd l n :
  Bow_wf dd → in_range dd l →
  slice_get (LabelDocCount dd) l = Some n →
  int_add n 1 > int_add (DocCount dd) (LabelCount dd) →
  (∃ dd', UpdatePL dd = Panic Fatal dd')
  ∧ ∀ it words, ∃ dd', Predict conf it words dd = Panic Fatal dd'.
Proof.
  intros Hwf Hl Hn Hbad.
  assert (∀ d, Bow_wf d → LabelDocCount d = LabelDocCount dd → DocCount d = DocCount dd →
               LabelCount d = LabelCount dd → ∃ d', UpdatePL d = Panic Fatal d') as Hgen.
  { intros d (_ & Hldc & Hpl & _) E1 E2 E3. unfold UpdatePL.
    apply for_each_UpdatePL_label_fatal.
    - intros l' Hl'%elem_of_seqZ. rewrite Hldc, Hpl. lia.
    - apply Exists_exists. exists l. split; [apply elem_of_seqZ; unfold in_range in Hl; lia|].
      exists n. rewrite E1, E2, E3. done. }
  split; [by apply Hgen|]. intros it words.
  pose proof (scan_frame conf words dd) as Hfr. unfold Predict.
  destruct (scan conf words dd) as [[dd1 seq] freqWord]. simpl in Hfr.
  destruct (Hgen dd1) as [d' E]; try (rewrite Hfr; by destruct dd).
  exists d'. unfold bind, PLD, bind. by rewrite E.
Qed.

(** ** The label that [Predict] returns *)

Lemma slice_get_nat {A} (s : list A) (i : nat) : slice_get s (Z.of_nat i) = s !! i.
Proof. unfold slice_get. rewrite decide_True by lia. by rewrite Nat2Z.id. Qed.

(** The scan of the labels 0, ..., k - 1 keeps the first label that no
    other label of the prefix beats. *)
Lemma foldl_Predict_max_prefix (pld : list float64) (k : nat) :
  ordered_values pld → (k ≤ length pld)%nat →
  ∃ m : nat,
    foldl (Predict_max pld) (Some 0) (seqZ 0 (Z.of_nat k)) = Some (Z.of_nat m)
    ∧ (m < k ∨ m = 0)%nat
    ∧ (∀ l x y, (l < k)%nat → pld !! l = Some x → pld !! m = Some y → fgt x y = false)
    ∧ (∀ l x y, (l < m)%nat → pld !! l = Some x → pld !! m = Some y → fgt y x = true).
Proof.
  intros (Hirr & Htr & Hneg). induction k as [|k IH]; intros Hk.
  - exists 0%nat. simpl. split; [done|]. split; [by right|]. split; intros; lia.
  - destruct IH as (m & E & Hm & Ha & Hb); [lia|].
    rewrite seqZ_S, foldl_snoc, E, Z.add_0_l. cbn [Predict_max].
    rewrite !slice_get_nat.
    destruct (lookup_lt_is_Some_2 pld k) as [x Hx]; [lia|].
    destruct (lookup_lt_is_Some_2 pld m) as [y Hy]; [lia|].
    rewrite Hx, Hy.
    assert (x ∈ pld) as Hxin by (by eapply list_elem_of_lookup_2).
    assert (y ∈ pld) as Hyin by (by eapply list_elem_of_lookup_2).
    destruct (fgt x y) eqn:Hgt.
    + exists k. split; [done|]. split; [left; lia|]. split.
      * intros l x' y' Hl Hx' Hy'. rewrite Hx in Hy'. injection Hy' as <-.
        assert (x' ∈ pld) as Hx'in by (by eapply list_elem_of_lookup_2).
        destruct (decide (l = k)) as [->|Hne].
        -- rewrite Hx in Hx'. injection Hx' as <-. by apply Hirr.
        -- destruct (fgt x' x) eqn:Hgt'; [|done].
           assert (fgt x' y = true) as Hbad by (by apply (Htr x' x y)).
           rewrite (Ha l x' y ltac:(lia) Hx' Hy) in Hbad. done.
      * intros l x' y' Hl Hx' Hy'. rewrite Hx in Hy'. injection Hy' as <-.
        assert (x' ∈ pld) as Hx'in by (by eapply list_elem_of_lookup_2).
        destruct (Hneg x y x' Hxin Hyin Hx'in Hgt) as [?|Hbad]; [done|].
        rewrite (Ha l x' y Hl Hx' Hy) in Hbad. done.
    + exists m. split; [done|]. split; [destruct Hm; [left; lia|by right]|]. split.
      * intros l x' y' Hl Hx' Hy'. rewrite Hy in Hy'. injection Hy' as <-.
        destruct (decide (l = k)) as [->|Hne].
        -- rewrite Hx in Hx'. by injection Hx' as <-.
        -- apply (Ha l x' y); [lia|done|done].
      * exact Hb.
Qed.

Lemma foldl_PLD_label_length it dd wordFreq ls r sum r' sum' :
  foldl (PLD_label it dd wordFreq) (Some (r, sum)) ls = Some (r', sum') →
  length r' = (length r + length ls)%nat.
Proof.
  revert r sum. induction ls as [|l ls IH]; intros r sum E; simpl in E.
  - injection E as <- _. simpl. lia.
  - destruct (slice_get (PL dd) l) as [p|].
    + apply IH in E. rewrite length_app in E. simpl in *. lia.
    + exfalso. clear IH. induction ls as [|l' ls IH]; simpl in E; [done|]. by apply IH.
Qed.

(** What a returning [Predict] has computed. *)
Lemma Predict_Ret_inv it words dd r pld dd' :
  Predict conf it words dd = Ret (r, pld) dd' →
  foldl (Predict_max pld) (Some 0) (seqZ 0 (LabelCount dd')) = Some r
  ∧ length pld = Z.to_nat (LabelCount dd').
Proof.
  unfold Predict. destruct (scan conf words dd) as [[dd1 seq] freqWord].
  unfold bind. destruct (PLD it freqWord dd1) as [pld0 dd2|p dd2] eqn:EP; [|done].
  destruct (foldl _ _ _) as [r0|] eqn:EM; [|done]. intros [= <- <- <-].
  split; [done|]. unfold PLD, bind in EP.
  destruct (UpdatePL dd1) as [[] dd3|p dd3]; [|done]. case_decide; [done|].
  destruct (foldl _ _ _) as [[rs sum]|] eqn:EF; [|done]. injection EP as <- <-.
  apply foldl_PLD_label_length in EF. rewrite length_fmap, EF, length_seqZ. simpl. lia.
Qed.

Lemma foldl_Predict_max_elem (pld : list float64) ls m r :
  foldl (Predict_max pld) (Some m) ls = Some r → r = m ∨ r ∈ ls.
Proof.
  revert m. induction ls as [|l ls IH]; intros m E; simpl in E.
  - injection E as <-. by left.
  - destruct (slice_get pld l) as [x|], (slice_get pld m) as [y|];
      try (exfalso; clear IH; induction ls as [|l' ls IH]; simpl in E; [done|by apply IH]).
    destruct (IH _ E) as [->|Hin].
    + destruct (fgt x y); [right; left|by left].
    + right. by right.
Qed.

(** X12. On a well-formed corpus with at least one label on which the guard
    of [UpdatePL] holds, [Predict] returns a label of the corpus and one
    posterior per label. Where [>] orders the posteriors, the label returned
    has a posterior no other beats, and strictly beats every label with a
    smaller ID: ties go to the lowest label. *)
Theorem Predict_choice it words dd :
  Bow_wf dd → guard_ok dd → 0 < LabelCount dd →
  ∃ r pld dd',
    Predict conf it words dd = Ret (r, pld) dd'
    ∧ len pld = LabelCount dd
    ∧ in_range dd r
    ∧ (ordered_values pld →
       ∀ l x y, slice_get pld l = Some x → slice_get pld r = Some y →
                fgt x y = false ∧ (l < r → fgt y x = true)).
Proof.
  intros Hwf Hg Hpos.
  destruct (Predict_ok conf it words dd Hwf Hg) as ([r pld] & E & _).
  pose proof (Predict_final_counts conf it words dd) as (_ & _ & Hlc).
  rewrite E in Hlc. simpl in Hlc.
  destruct (Predict_Ret_inv _ _ _ _ _ _ E) as [Hmax Hlen]. rewrite Hlc in Hmax, Hlen.
  eexists r, pld, _. split; [exact E|]. split; [unfold len; lia|]. split.
  { destruct (foldl_Predict_max_elem _ _ _ _ Hmax) as [->|Hin].
    - unfold in_range. lia.
    - apply elem_of_seqZ in Hin. unfold in_range. lia. }
  intros Hord l x y Hx Hy.
  destruct (foldl_Predict_max_prefix pld (Z.to_nat (LabelCount dd)) Hord ltac:(lia))
    as (m & Em & _ & Ha & Hb).
  rewrite Z2Nat.id in Em by lia. rewrite Hmax in Em. injection Em as ->.
  rewrite slice_get_nat in Hy.
  assert (0 ≤ l ∧ (Z.to_nat l < length pld)%nat) as [Hl0 Hl].
  { unfold slice_get in Hx. case_decide; [|done]. split; [done|].
    apply lookup_lt_is_Some. eauto. }
  rewrite <- (Z2Nat.id l Hl0), slice_get_nat in Hx. split.
  - apply (Ha (Z.to_nat l)); [lia|done|done].
  - intros Hlt. apply (Hb (Z.to_nat l)); [lia|done|done].
Qed.

(** X13. A corpus without labels: [Predict] returns label 0 and no posterior,
    whatever the document. *)
Theorem Predict_no_label it words dd :
  LabelCount dd = 0 →
  ∃ dd', Predict conf it words dd = Ret (0, []) dd'.
Proof.
  intros Hlc. unfold Predict.
  destruct (scan conf words dd) as [[dd1 seq] freqWord] eqn:Es.
  assert (LabelCount dd1 = 0) as Hlc1.
  { pose proof (scan_frame conf words dd) as Hf. rewrite Es in Hf. simpl in Hf.
    rewrite Hf. exact Hlc. }
  unfold bind, PLD, bind, UpdatePL. rewrite Hlc1. simpl. rewrite Hlc1. simpl.
  rewrite Hlc1. simpl. eauto.
Qed.

(** ** Save *)

Lemma updateWords_frame it dd :
  final_state (updateWords it dd) = set_Words (Words (final_state (updateWords it dd))) dd.
Proof.
  unfold updateWords.
  apply (for_each_final (λ dd', dd' = set_Words (Words dd') dd)); [|done].
  intros e dd' Hdd'. unfold updateWords_entry.
  destruct (slice_set _ _ _); simpl; [|done]. rewrite Hdd'. by destruct dd.
Qed.

Lemma updateWords_Words it dd :
  vocab_ok dd →
  ∃ ws, updateWords it dd = Ret tt (set_Words ws dd)
        ∧ len ws = WordCount dd
        ∧ (∀ i w, ws !! i = Some w ↔ idxs dd !! w = Some (Z.of_nat i))
        ∧ NoDup ws.
Proof.
  intros Hok. destruct (updateWords_ok it dd Hok) as (dd' & E & Hi & Hwc & Hwo & Hlen).
  pose proof (updateWords_frame it dd) as Hfr. rewrite E in Hfr. simpl in Hfr.
  destruct Hok as (Hsz & Hrg & Hinj & Hsur).
  unfold Words_ok in Hwo. rewrite Hi in Hwo.
  exists (Words dd'). split; [by rewrite E, Hfr at 1|]. split; [done|]. split.
  - intros i w. split; [apply Hwo|]. intros Hw.
    destruct (lookup_lt_is_Some_2 (Words dd') i) as [w' Hw'].
    { specialize (Hrg _ _ Hw). unfold len in Hlen. lia. }
    by rewrite (Hinj w w' _ Hw (Hwo _ _ Hw')).
  - apply NoDup_alt. intros i j w Hi' Hj'.
    apply Hwo in Hi', Hj'. rewrite Hi' in Hj'. injection Hj' as Hij. lia.
Qed.

Lemma Words_unique dd (ws1 ws2 : list string) :
  (∀ i w, ws1 !! i = Some w ↔ idxs dd !! w = Some (Z.of_nat i)) →
  (∀ i w, ws2 !! i = Some w ↔ idxs dd !! w = Some (Z.of_nat i)) →
  ws1 = ws2.
Proof.
  intros H1 H2. apply list_eq. intros i.
  destruct (ws1 !! i) as [w1|] eqn:E1.
  - symmetry. apply H2. by apply H1.
  - destruct (ws2 !! i) as [w2|] eqn:E2; [|done].
    apply H2, H1 in E2. congruence.
Qed.

(** X14. On a corpus whose vocabulary is consistent, [Save] returns, changes
    [Words] only, and leaves in it exactly the known words, each at the
    position of its ID and nowhere else. *)
Theorem Save_Words it outFile io_ok dd :
  vocab_ok dd →
  ∃ ws, Save it outFile io_ok dd = Ret io_ok (set_Words ws dd)
        ∧ len ws = WordCount dd
        ∧ (∀ i w, ws !! i = Some w ↔ idxs dd !! w = Some (Z.of_nat i))
        ∧ NoDup ws.
Proof.
  intros Hok. destruct (updateWords_Words it dd Hok) as (ws & E & H).
  exists ws. split; [|done]. unfold Save, bind. by rewrite E.
Qed.

(** X15. The corpus that [Save] leaves does not depend on the order in which
    the map [idxs] is iterated, and saving it again changes nothing. *)
Theorem Save_order_free it1 it2 outFile io_ok dd :
  vocab_ok dd →
  ∃ dd', Save it1 outFile io_ok dd = Ret io_ok dd'
         ∧ Save it2 outFile io_ok dd = Ret io_ok dd'
         ∧ Save it2 outFile io_ok dd' = Ret io_ok dd'.
Proof.
  intros Hok.
  destruct (updateWords_Words it1 dd Hok) as (ws1 & E1 & _ & H1 & _).
  destruct (updateWords_Words it2 dd Hok) as (ws2 & E2 & _ & H2 & _).
  destruct (updateWords_Words it2 (set_Words ws1 dd)) as (ws3 & E3 & _ & H3 & _).
  { by apply (vocab_ok_ext dd). }
  simpl in H3.
  rewrite <- (Words_unique dd ws1 ws2 H1 H2) in E2.
  rewrite <- (Words_unique dd ws1 ws3 H1 H3) in E3.
  exists (set_Words ws1 dd). unfold Save, bind. rewrite E1, E2, E3.
  split; [done|]. split; [done|]. by destruct dd.
Qed.

Lemma for_each_updateWords_entry_out es dd e :
  e ∈ es → ¬ (0 ≤ e.2 < len (Words dd)) →
  ∃ dd', for_each updateWords_entry es dd = Panic IndexOutOfRange dd'
         ∧ dd' = set_Words (Words dd') dd.
Proof.
  revert dd. induction es as [|e0 es IH]; intros dd Hin Hout.
  { by apply elem_of_nil in Hin. }
  simpl. unfold updateWords_entry, slice_set.
  destruct (decide (0 ≤ e0.2 < len (Words dd))) as [Hr|Hr].
  - apply elem_of_cons in Hin as [->|Hin]; [done|].
    destruct (IH (set_Words (<[Z.to_nat e0.2 := e0.1]> (Words dd)) dd) Hin)
      as (dd' & E & Hdd').
    { simpl. unfold len in *. by rewrite length_insert. }
    exists dd'. split; [done|]. rewrite Hdd' at 1. by destruct dd.
  - exists dd. split; [done|]. by destruct dd.
Qed.

Lemma updateWords_out it dd w i :
  idxs dd !! w = Some i → ¬ (0 ≤ i < Z.of_nat (size (idxs dd))) →
  ∃ dd', updateWords it dd = Panic IndexOutOfRange dd' ∧ dd' = set_Words (Words dd') dd.
Proof.
  intros Hw Hout. unfold updateWords.
  destruct (for_each_updateWords_entry_out (range_str it 0 (idxs dd))
              (set_Words (replicate (size (idxs dd)) EmptyString) dd) (w, i))
    as (dd' & E & Hdd').
  - rewrite (range_str_perm it 0 (idxs dd)). by apply elem_of_map_to_list.
  - simpl. unfold len. by rewrite length_replicate.
  - exists dd'. split; [done|]. rewrite Hdd' at 1. by destruct dd.
Qed.

(** X16. When some word has an ID outside [0, len(idxs)), [Save] panics with
    an index out of range before the file is created, whatever the iteration
    order; only [Words] has changed by then. *)
Theorem Save_out_of_range it outFile io_ok dd w i :
  idxs dd !! w = Some i → ¬ (0 ≤ i < Z.of_nat (size (idxs dd))) →
  ∃ dd', Save it outFile io_ok dd = Panic IndexOutOfRange dd'
         ∧ dd' = set_Words (Words dd') dd.
Proof.
  intros Hw Hout. destruct (updateWords_out it dd w i Hw Hout) as (dd' & E & Hdd').
  exists dd'. split; [|done]. unfold Save, bind. by rewrite E.
Qed.

(** ** Load *)

Lemma Load_idxs_notin i ws (m : gmap string Z) w :
  w ∉ ws → Load_idxs i ws m !! w = m !! w.
Proof.
  revert i m. induction ws as [|w0 ws IH]; intros i m Hw; [done|].
  apply not_elem_of_cons in Hw as [Hne Hw]. simpl.
  rewrite IH by done. by rewrite lookup_insert_ne.
Qed.

(** The last position of a word wins. *)
Lemma Load_idxs_last i ws (m : gmap string Z) w k :
  ws !! k = Some w → (∀ k', (k < k')%nat → ws !! k' ≠ Some w) →
  Load_idxs i ws m !! w = Some (i + Z.of_nat k).
Proof.
  revert i m k. induction ws as [|w0 ws IH]; intros i m k Hk Hlast; [done|].
  destruct k as [|k]; simpl in *.
  - injection Hk as ->. rewrite Load_idxs_notin.
    + rewrite lookup_insert_eq. f_equal. lia.
    + intros Hin. apply list_elem_of_lookup in Hin as [k' Hk'].
      by apply (Hlast (S k')); [lia|].
  - rewrite (IH _ _ k Hk).
    + f_equal. lia.
    + intros k' Hlt. apply (Hlast (S k')). lia.
Qed.

Lemma Load_idxs_Some i ws (m : gmap string Z) w j :
  Load_idxs i ws m !! w = Some j →
  ((w ∉ ws) ∧ m !! w = Some j)
  ∨ ∃ k, ws !! k = Some w ∧ j = i + Z.of_nat k
         ∧ ∀ k', (k < k')%nat → ws !! k' ≠ Some w.
Proof.
  revert i m. induction ws as [|w0 ws IH]; intros i m E; simpl in E.
  { left. split; [apply not_elem_of_nil|done]. }
  apply IH in E as [[Hnot E]|(k & Hk & -> & Hlast)].
  - destruct (decide (w = w0)) as [->|Hne].
    + rewrite lookup_insert_eq in E. injection E as <-. right. exists 0%nat.
      split; [done|]. split; [lia|]. intros [|k'] Hlt; [lia|]. simpl.
      intros Hk'. apply Hnot. by eapply list_elem_of_lookup_2.
    + rewrite lookup_insert_ne in E by done. left. split; [|done].
      by apply not_elem_of_cons.
  - right. exists (S k). split; [done|]. split; [lia|].
    intros [|k'] Hlt; [lia|]. simpl. apply Hlast. lia.
Qed.

(** X17. [Load] fails exactly when the file cannot be read or decoded. What
    it returns is the decoded record with a fresh index, in which every word
    of [Words] has the last position at which it occurs, and no other word
    has an ID. *)
Theorem Load_spec readFile unmarshal inFile :
  match Load readFile unmarshal inFile with
  | inl ReadFileError => readFile inFile = None
  | inl UnmarshalError => ∃ bytes, readFile inFile = Some bytes ∧ unmarshal bytes = None
  | inr dd =>
      ∃ bytes d,
        readFile inFile = Some bytes ∧ unmarshal bytes = Some d
        ∧ dd = set_idxs (idxs dd) d
        ∧ ∀ w k, idxs dd !! w = Some k
                 ↔ 0 ≤ k ∧ Words d !! Z.to_nat k = Some w
                   ∧ ∀ k', (Z.to_nat k < k')%nat → Words d !! k' ≠ Some w
  end.
Proof.
  unfold Load. destruct (readFile inFile) as [bytes|]; [|done].
  destruct (unmarshal bytes) as [d|] eqn:Eu; [|by exists bytes].
  exists bytes, d. split; [done|]. split; [done|]. split; [by destruct d|].
  intros w k. simpl. split.
  - intros E. apply Load_idxs_Some in E as [[_ E]|(k0 & Hk0 & -> & Hlast)]; [done|].
    rewrite Z.add_0_l, Nat2Z.id. split; [lia|]. done.
  - intros (Hk & Hw & Hlast). rewrite (Load_idxs_last 0 _ _ w (Z.to_nat k) Hw Hlast).
    f_equal. lia.
Qed.

Lemma Load_idxs_Words dd :
  vocab_ok dd → len (Words dd) = WordCount dd →
  (∀ i w, Words dd !! i = Some w ↔ idxs dd !! w = Some (Z.of_nat i)) →
  NoDup (Words dd) →
  Load_idxs 0 (Words dd) ∅ = idxs dd.
Proof.
  intros (Hsz & Hrg & Hinj & Hsur) Hlen Hws Hnd. apply map_eq. intros w.
  destruct (idxs dd !! w) as [i|] eqn:E.
  - specialize (Hrg _ _ E).
    assert (Words dd !! Z.to_nat i = Some w) as Hw.
    { apply Hws. rewrite E. f_equal. lia. }
    rewrite (Load_idxs_last 0 _ _ w (Z.to_nat i) Hw).
    + f_equal. lia.
    + intros k' Hlt Hk'. pose proof (NoDup_lookup _ _ _ _ Hnd Hw Hk'). lia.
  - rewrite Load_idxs_notin; [done|]. intros Hin.
    apply list_elem_of_lookup in Hin as [k Hk]. apply Hws in Hk. congruence.
Qed.

(** X18. Saving and loading again gives back the corpus that [Save] left:
    when the decoder returns the exported fields that were saved, [Load]
    rebuilds the index [idxs] that the saved corpus had. *)
Theorem Save_Load it outFile io_ok readFile unmarshal inFile bytes d dd b dd' :
  vocab_ok dd →
  Save it outFile io_ok dd = Ret b dd' →
  readFile inFile = Some bytes → unmarshal bytes = Some d →
  set_idxs ∅ d = set_idxs ∅ dd' →
  Load readFile unmarshal inFile = inr dd'.
Proof.
  intros Hok ES Hr Hu Hd.
  destruct (updateWords_Words it dd Hok) as (ws & E & Hlen & Hws & Hnd).
  unfold Save, bind in ES. rewrite E in ES. injection ES as _ <-.
  unfold Load. rewrite Hr, Hu. f_equal.
  assert (Words d = ws) as HW by (apply (f_equal Words) in Hd; exact Hd).
  pose proof (Load_idxs_Words (set_Words ws dd)) as HL. simpl in HL.
  rewrite HW, HL; [| |done|done|done].
  - destruct d, dd. simpl in *. by injection Hd as -> -> -> -> -> -> -> -> -> -> ->.
  - by apply (vocab_ok_ext dd).
Qed.

Lemma size_Load_idxs_le i ws (m : gmap string Z) :
  (size (Load_idxs i ws m) ≤ size m + length ws)%nat.
Proof.
  revert i m. induction ws as [|w0 ws IH]; intros i m; simpl; [lia|].
  etrans; [apply IH|]. rewrite map_size_insert. destruct (m !! w0); simpl; lia.
Qed.

Lemma size_Load_idxs_NoDup i ws (m : gmap string Z) :
  NoDup ws → (∀ w, w ∈ ws → m !! w = None) →
  size (Load_idxs i ws m) = (size m + length ws)%nat.
Proof.
  revert i m. induction ws as [|w0 ws IH]; intros i m Hnd Hm; simpl; [lia|].
  apply NoDup_cons in Hnd as [Hw0 Hnd].
  rewrite IH, map_size_insert_None; [lia| |done|].
  - apply Hm. by left.
  - intros w Hw. rewrite lookup_insert_ne by (by intros ->). apply Hm. by right.
Qed.

Lemma size_Load_idxs_lt i ws (m : gmap string Z) :
  (∃ w, w ∈ ws ∧ is_Some (m !! w)) ∨ ¬ NoDup ws →
  (size (Load_idxs i ws m) < size m + length ws)%nat.
Proof.
  revert i m. induction ws as [|w0 ws IH]; intros i m H.
  { exfalso. destruct H as [(w & Hw & _)|H]; [by apply elem_of_nil in Hw|].
    apply H. constructor. }
  simpl. destruct (m !! w0) as [j|] eqn:E0.
  { pose proof (size_Load_idxs_le (i + 1) ws (<[w0:=i]> m)) as Hle.
    rewrite map_size_insert_Some in Hle by eauto. lia. }
  assert ((∃ w, w ∈ ws ∧ is_Some (<[w0:=i]> m !! w)) ∨ ¬ NoDup ws) as H'.
  { destruct H as [(w & Hw & Hs)|H].
    - left. exists w. apply elem_of_cons in Hw as [->|Hw].
      + rewrite E0 in Hs. by destruct Hs.
      + split; [done|]. destruct (decide (w = w0)) as [->|Hne].
        * rewrite lookup_insert_eq. eauto.
        * by rewrite lookup_insert_ne.
    - destruct (decide (w0 ∈ ws)) as [Hin|Hnin].
      + left. exists w0. split; [done|]. rewrite lookup_insert_eq. eauto.
      + right. intros Hnd. apply H. by apply NoDup_cons. }
  specialize (IH (i + 1) _ H'). rewrite map_size_insert_None in IH by done. lia.
Qed.

(** X19. A file whose [Words] has no duplicate and whose [WordCount] is the
    length of [Words] loads into a corpus with a consistent vocabulary: the
    word at position [i] has ID [i], and the IDs are 0, ..., WordCount - 1. *)
Theorem Load_consistent readFile unmarshal inFile dd :
  Load readFile unmarshal inFile = inr dd →
  NoDup (Words dd) → WordCount dd = len (Words dd) →
  vocab_ok dd ∧ Words_ok dd.
Proof.
  unfold Load. destruct (readFile inFile) as [bytes|]; [|done].
  destruct (unmarshal bytes) as [d|]; [|done]. intros [= <-]. simpl.
  intros Hnd Hwc.
  assert (∀ i w, Words d !! i = Some w →
                 Load_idxs 0 (Words d) ∅ !! w = Some (Z.of_nat i)) as Hfwd.
  { intros i w Hw. rewrite (Load_idxs_last 0 _ _ w i Hw); [f_equal; lia|].
    intros k' Hlt Hk'. pose proof (NoDup_lookup _ _ _ _ Hnd Hw Hk'). lia. }
  assert (∀ w i, Load_idxs 0 (Words d) ∅ !! w = Some i →
                 0 ≤ i ∧ Words d !! Z.to_nat i = Some w) as Hbwd.
  { intros w i E. apply Load_idxs_Some in E as [[_ E]|(k & Hk & -> & _)]; [done|].
    rewrite Z.add_0_l, Nat2Z.id. split; [lia|done]. }
  split; [|exact Hfwd]. unfold vocab_ok. simpl. split; [|split; [|split]].
  - rewrite Hwc, size_Load_idxs_NoDup; [|done|done]. rewrite map_size_empty.
    unfold len. lia.
  - intros w i E. apply Hbwd in E as [Hi E]. apply lookup_lt_Some in E.
    rewrite Hwc. unfold len. lia.
  - intros w1 w2 i E1 E2. apply Hbwd in E1 as [_ E1], E2 as [_ E2]. congruence.
  - intros i Hi. rewrite Hwc in Hi. unfold len in Hi.
    destruct (lookup_lt_is_Some_2 (Words d) (Z.to_nat i)) as [w Hw]; [lia|].
    exists w. rewrite (Hfwd _ _ Hw). f_equal. lia.
Qed.

(** X20. A file in which a word is listed twice loads without error, but the
    corpus loaded cannot be saved: [Save] panics with an index out of
    range. *)
Theorem Load_duplicate readFile unmarshal inFile dd it outFile io_ok :
  Load readFile unmarshal inFile = inr dd →
  ¬ NoDup (Words dd) →
  ∃ dd', Save it outFile io_ok dd = Panic IndexOutOfRange dd'.
Proof.
  unfold Load. destruct (readFile inFile) as [bytes|]; [|done].
  destruct (unmarshal bytes) as [d|]; [|done]. intros [= <-]. simpl. intros Hdup.
  pose proof (size_Load_idxs_lt 0 (Words d) ∅ (or_intror Hdup)) as Hsz.
  rewrite map_size_empty in Hsz.
  destruct (Words d) as [|w0 ws] eqn:EW using rev_ind.
  { exfalso. apply Hdup. constructor. }
  clear IHws. rewrite length_app in Hsz. simpl in Hsz.
  set (dd := set_idxs _ d).
  destruct (updateWords_out it dd w0 (Z.of_nat (length ws))) as (dd' & E & _).
  - unfold dd. simpl. rewrite (Load_idxs_last 0 _ _ w0 (length ws)).
    + f_equal.
    + by rewrite lookup_app_r, Nat.sub_diag.
    + intros k' Hlt Hk'. apply lookup_lt_Some in Hk'.
      rewrite length_app in Hk'. simpl in Hk'. lia.
  - unfold dd. simpl. lia.
  - exists dd'. unfold Save, bind. by rewrite E.
Qed.

(** ** Predicting again, and predicting an empty document *)

Lemma Predict_result it words dd :
  Bow_wf dd → guard_ok dd →
  let dd1 := (scan conf words dd).1.1 in
  let dd2 := final_state (UpdatePL dd1) in
  ∃ r, Predict conf it words dd
       = Ret (r, PLD_spec (λ l, (range_int it (Z.to_nat l) (scan conf words dd).2).*1) dd2) dd2
       ∧ UpdatePL dd1 = Ret tt dd2 ∧ UpdatePL dd2 = Ret tt dd2
       ∧ Bow_wf dd2 ∧ guard_ok dd2.
Proof.
  intros Hwf Hguard. pose proof (scan_frame conf words dd) as Hfr.
  destruct (Predict_ok conf it words dd Hwf Hguard) as ([r pld] & E & Hret).
  simpl in *. set (dd1 := (scan conf words dd).1.1) in *.
  assert (Bow_wf dd1) as Hwf1 by (rewrite Hfr; by destruct dd).
  assert (guard_ok dd1) as Hguard1 by (rewrite Hfr; by destruct dd).
  pose proof (UpdatePL_ok dd1 Hwf1 Hguard1) as Hup.
  pose proof (UpdatePL_PL_only dd1) as Hpl.
  pose proof (PL_only_wf _ _ Hpl Hwf1) as Hwf2.
  set (dd2 := final_state (UpdatePL dd1)) in *.
  assert (guard_ok dd2) as Hguard2.
  { destruct Hpl as [-> _]. by destruct dd1. }
  exists r. split; [|split; [|split; [|done]]].
  - rewrite E. f_equal. f_equal.
    pose proof (PLD_ok it (scan conf words dd).2 dd1 Hwf1 Hret) as Hpld.
    fold dd2 in Hpld. unfold Predict in E. fold dd1 in E.
    destruct (scan conf words dd) as [[dd1' seq] freqWord]. simpl in *.
    subst dd1. unfold bind in E. rewrite Hpld in E.
    destruct (foldl _ _ _); [|done]. by injection E as _ <-.
  - unfold dd2. by rewrite Hup.
  - rewrite (UpdatePL_ok dd2 Hwf2 Hguard2). unfold dd2. rewrite Hup. simpl.
    by destruct dd1.
Qed.

(** X21. On a well-formed corpus on which the guard of [UpdatePL] holds,
    [Predict] returns; predicting the same document again (the maps iterated
    in the same order) returns the same label and posteriors and leaves the
    corpus as the first call left it. *)
Theorem Predict_twice it words dd :
  Bow_wf dd → guard_ok dd →
  ∃ r dd', Predict conf it words dd = Ret r dd'
           ∧ Predict conf it words dd' = Ret r dd'.
Proof.
  intros Hwf Hg.
  destruct (Predict_result it words dd Hwf Hg) as (r & E & Hup1 & Hup2 & Hwf2 & Hg2).
  set (dd1 := (scan conf words dd).1.1) in *.
  set (dd2 := final_state (UpdatePL dd1)) in *.
  eexists _, dd2. split; [exact E|].
  assert (scan conf words dd2 = (dd2, (scan conf words dd).1.2, (scan conf words dd).2)) as Es.
  { apply scan_rescan. fold dd1. unfold dd2.
    destruct (UpdatePL_PL_only dd1) as [-> _]. by destruct dd1. }
  destruct (Predict_result it words dd2 Hwf2 Hg2) as (r' & E' & _).
  rewrite Es in E'. simpl in E'. rewrite Hup2 in E'. simpl in E'.
  destruct (Predict_Ret_inv _ _ _ _ _ _ E) as [H1 _].
  destruct (Predict_Ret_inv _ _ _ _ _ _ E') as [H2 _].
  rewrite H1 in H2. injection H2 as <-. exact E'.
Qed.

(** X22. A document none of whose tokens is kept: the posterior that
    [Predict] returns is made of the priors alone, each passed through
    exp(ln p) and divided by their sum; no word count enters, and the
    vocabulary does not change. *)
Theorem Predict_no_token it words dd :
  kept conf words = [] → Bow_wf dd → guard_ok dd →
  ∃ r dd',
    UpdatePL dd = Ret tt dd'
    ∧ Predict conf it words dd
      = Ret (r, let scores := (λ p, fexp (flog p)) <$> PL dd' in
                (λ x, fdiv x (foldl fadd (of_int 0) scores)) <$> scores) dd'.
Proof.
  intros Hk Hwf Hg.
  destruct (Predict_result it words dd Hwf Hg) as (r & E & Hup1 & _ & Hwf2 & _).
  assert (scan conf words dd = (dd, [], ∅)) as Es.
  { rewrite scan_known, Hk; [done|]. intros w Hw Hs.
    assert (w ∈ kept conf words) as Hin by (by apply elem_of_kept).
    rewrite Hk in Hin. by apply elem_of_nil in Hin. }
  rewrite Es in E, Hup1, Hwf2. simpl in E, Hup1, Hwf2.
  set (dd' := final_state (UpdatePL dd)) in *.
  exists r, dd'. split; [done|]. rewrite E. f_equal. f_equal.
  unfold PLD_spec. simpl.
  assert ((λ lp : Z * float64,
             fexp (foldl fadd (flog lp.2)
                     (PWL dd' lp.1 <$> (range_int it (Z.to_nat lp.1) ∅).*1)))
          <$> zip (seqZ 0 (LabelCount dd')) (PL dd')
          = (λ p, fexp (flog p)) <$> PL dd') as ->; [|done].
  rewrite <- (snd_zip (seqZ 0 (LabelCount dd')) (PL dd')) at 2.
  - rewrite <- list_fmap_compose. apply list_fmap_ext. intros i [l p] _. simpl.
    by rewrite range_int_empty.
  - destruct Hwf2 as (_ & _ & Hlen & _). unfold len in Hlen.
    rewrite length_seqZ. lia.
Qed.

(** ** Predicting before any document was added *)

Lemma fmap_const_replicate {A B} (g : A → B) (c : B) (l : list A) :
  (∀ x, x ∈ l → g x = c) → g <$> l = replicate (length l) c.
Proof.
  induction l as [|x l IH]; intros H; [done|]. simpl. rewrite H by (by left).
  f_equal. apply IH. intros y Hy. apply H. by right.
Qed.

Lemma foldl_Predict_max_const (pld : list float64) v ls :
  (∀ l, l ∈ ls → slice_get pld l = Some v ∧ slice_get pld 0 = Some v) →
  fgt v v = false →
  foldl (Predict_max pld) (Some 0) ls = Some 0.
Proof.
  intros H Hv. induction ls as [|l ls IH]; [done|]. simpl.
  destruct (H l) as [-> ->]; [by left|]. rewrite Hv. apply IH.
  intros l' Hl'. apply H. by right.
Qed.

(** X23. On a corpus just made by [New], [Predict] returns whatever the
    document is; all the posteriors it returns are the same value, and the
    label is 0 unless that value compares greater than itself. *)
Theorem Predict_untrained it words note labelNames :
  len labelNames ≤ int_max →
  ∃ r v dd',
    Predict conf it words (New note labelNames)
    = Ret (r, replicate (length labelNames) v) dd'
    ∧ (fgt v v = false → r = 0).
Proof.
  intros Hmax. set (dd0 := New note labelNames).
  assert (0 ≤ len labelNames) as Hpos by (unfold len; lia).
  pose proof (New_wf note labelNames) as Hwf. fold dd0 in Hwf.
  assert (guard_ok dd0) as Hg.
  { apply (counted_guard_ok 0); [done|lia|simpl; lia|apply New_counted]. }
  destruct (Predict_result it words dd0 Hwf Hg) as (r & E & Hup1 & _ & Hwf2 & _).
  pose proof (scan_frame conf words dd0) as Hfr. simpl in Hfr.
  set (f := (scan conf words dd0).2) in *.
  set (dd1 := (scan conf words dd0).1.1) in *.
  assert (Bow_wf dd1) as Hwf1 by (rewrite Hfr; by destruct dd0).
  assert (guard_ok dd1) as Hg1 by (rewrite Hfr; by destruct dd0).
  rewrite (UpdatePL_ok dd1 Hwf1 Hg1) in E, Hup1, Hwf2. simpl in E, Hwf2. clear Hup1.
  set (pl := (λ l, prior dd1 (default 0 (slice_get (LabelDocCount dd1) l)))
               <$> seqZ 0 (LabelCount dd1)) in *.
  set (dd2 := set_PL pl dd1) in *.
  assert (LabelCount dd1 = len labelNames) as Hlc by (by rewrite Hfr).
  assert (LabelDocCount dd1 = (λ _, 0) <$> seqZ 0 (len labelNames)) as Hldc
    by (by rewrite Hfr).
  set (p0 := fdiv (of_int (int_add 0 1))
               (of_int (int_add (DocCount dd1) (LabelCount dd1)))).
  assert (pl = replicate (length labelNames) p0) as Hpl.
  { unfold pl. rewrite (fmap_const_replicate _ p0).
    - rewrite length_seqZ, Hlc. unfold len. by rewrite Nat2Z.id.
    - intros l Hl. apply elem_of_seqZ in Hl.
      rewrite Hldc, slice_get_seqZ_fmap by lia. done. }
  set (c0 := flog (fdiv (of_int (int_add 0 1))
                     (of_int (int_add 0 (WordCount dd1))))).
  assert (∀ l w, PWL dd2 l w = c0) as Hpwl.
  { intros l w. unfold PWL, c0. f_equal. f_equal.
    - f_equal. f_equal. unfold LWF_get, dd2. simpl. rewrite Hfr. simpl.
      destruct (foldl _ _ _ !! l) as [m|] eqn:El; simpl; [|done].
      assert (m = ∅) as ->; [|done].
      revert El. generalize (seqZ 0 (len labelNames)).
      intros ls. induction ls as [|l' ls IH] using rev_ind; [done|].
      rewrite foldl_snoc. destruct (decide (l' = l)) as [->|Hne].
      + rewrite lookup_insert_eq. by intros [= <-].
      + by rewrite lookup_insert_ne.
    - f_equal. f_equal. unfold dd2. simpl. by rewrite Hfr. }
  set (s0 := fexp (foldl fadd (flog p0) (replicate (size f) c0))).
  set (scores := replicate (length labelNames) s0).
  assert (PLD_spec (λ l, (range_int it (Z.to_nat l) f).*1) dd2
          = replicate (length labelNames) (fdiv s0 (foldl fadd (of_int 0) scores))) as Hpld.
  { unfold PLD_spec. simpl.
    assert (∀ l, length (range_int it (Z.to_nat l) f).*1 = size f) as Hklen.
    { intros l. rewrite length_fmap, (range_int_perm it _ f). apply length_map_to_list. }
    assert ((λ lp : Z * float64,
               fexp (foldl fadd (flog lp.2)
                       (PWL dd2 lp.1 <$> (range_int it (Z.to_nat lp.1) f).*1)))
            <$> zip (seqZ 0 (LabelCount dd1)) pl = scores) as ->.
    2:{ rewrite (fmap_const_replicate _ (fdiv s0 (foldl fadd (of_int 0) scores))).
        - unfold scores at 1. by rewrite length_replicate.
        - intros x Hx. by apply elem_of_replicate in Hx as [-> _]. }
    rewrite (fmap_const_replicate _ s0).
    - rewrite length_zip, length_seqZ, Hlc, Hpl, length_replicate.
      unfold len. by rewrite Nat2Z.id, Nat.min_id.
    - intros [l p] Hin. apply elem_of_zip_r in Hin. simpl in *.
      rewrite Hpl in Hin. apply elem_of_replicate in Hin as [-> _].
      unfold s0. f_equal. f_equal.
      rewrite (fmap_const_replicate _ c0) by (intros; apply Hpwl).
      by rewrite Hklen. }
  rewrite Hpld in E.
  exists r, (fdiv s0 (foldl fadd (of_int 0) scores)), dd2. split; [done|].
  intros Hv. destruct (Predict_Ret_inv _ _ _ _ _ _ E) as [Hmaxr _].
  rewrite (foldl_Predict_max_const _ (fdiv s0 (foldl fadd (of_int 0) scores))) in Hmaxr;
    [by injection Hmaxr|..|done].
  intros l Hl. apply elem_of_seqZ in Hl. change (LabelCount dd2) with (LabelCount dd1) in Hl.
  rewrite Hlc in Hl. unfold len in Hl. unfold slice_get.
  rewrite !decide_True by lia.
  rewrite !lookup_replicate_2 by lia. done.
Qed.

End Further.

(** * Instances of the further properties *)

Lemma trained_guard_ok : guard_ok trained.
Proof.
  apply (counted_guard_ok 2); [apply trained_wf|lia|vm_compute; discriminate|].
  split; [reflexivity|]. intros [|[|i]] c Hc; vm_compute in Hc; [| |done];
    injection Hc as <-; lia.
Qed.

Lemma trained_vocab_ok : vocab_ok trained.
Proof.
  apply (run_consistent (FL := symbolic_float) makeDefaultConfig "" ["spam"; "ham"] two_adds).
  vm_compute. discriminate.
Qed.

Lemma UseStopWords_off_witness :
  let c := {| UseStopWords := false; StopWords := ["buy"]; StopWordClasses := ["ch"] |} in
  UseStopWords c = false
  ∧ Add c canonical_iter "d3" ["buy"; "cheap"] [0] trained
    = Add makeDefaultConfig canonical_iter "d3" ["buy"; "cheap"] [0] trained.
Proof.
  simpl. split; [reflexivity|].
  apply (UseStopWords_off (FL := symbolic_float)
           {| UseStopWords := false; StopWords := ["buy"]; StopWordClasses := ["ch"] |}
           canonical_iter "d3" ["buy"; "cheap"] [0] trained eq_refl).
Defined.

Lemma Add_no_token_witness :
  kept makeDefaultConfig [""; ""] = [] ∧ Bow_wf trained ∧ Forall (in_range trained) [1]
  ∧ ∃ dd', Add makeDefaultConfig canonical_iter "d3" [""; ""] [1] trained = Ret tt dd'
           ∧ DocCount dd' = 3 ∧ LabelDocCount dd' = [1; 2]
           ∧ WordDocCount dd' = WordDocCount trained.
Proof.
  assert (Forall (in_range trained) [1]) as Hall.
  { constructor; [vm_compute; by split|constructor]. }
  split; [reflexivity|]. split; [apply trained_wf|]. split; [done|].
  eexists. split.
  - apply (Add_no_token makeDefaultConfig canonical_iter "d3" [""; ""] [1] trained
             eq_refl trained_wf Hall).
  - split; [vm_compute; reflexivity|]. split; [vm_compute; reflexivity|].
    vm_compute. reflexivity.
Defined.

Lemma LabelDocCount_after_Add_witness :
  Bow_wf trained ∧ Forall (in_range trained) [0; 0]
  ∧ ∃ dd', Add makeDefaultConfig canonical_iter "d3" ["buy"] [0; 0] trained = Ret tt dd'
           ∧ slice_get (LabelDocCount dd') 0 = Some 3
           ∧ slice_get (LabelDocCount dd') 1 = Some 1.
Proof.
  assert (Forall (in_range trained) [0; 0]) as Hall.
  { repeat (constructor; [vm_compute; by split|]). constructor. }
  split; [apply trained_wf|]. split; [done|].
  destruct (LabelDocCount_after_Add makeDefaultConfig canonical_iter "d3" ["buy"] [0; 0]
              trained trained_wf Hall) as (dd' & E & H).
  exists dd'. split; [done|]. split.
  - destruct (H 0 1 eq_refl) as [Hin _]. destruct Hin as [-> _]; [by left|reflexivity].
  - destruct (H 1 1 eq_refl) as [_ Hout]. apply Hout.
    intros Hin. apply elem_of_cons in Hin as [Hin|Hin]; [discriminate|].
    apply elem_of_cons in Hin as [Hin|Hin]; [discriminate|]. by apply elem_of_nil in Hin.
Defined.

Lemma Add_by_word_witness :
  let dd := final_state (run makeDefaultConfig two_adds (New (FL := symbolic_float) "" ["spam"; "ham"])) in
  Forall (in_range dd) [0]
  ∧ Z.of_nat (size (idxs (scan makeDefaultConfig ["buy"; "cheap"; "buy"] dd).1.1)) ≤ int_max
  ∧ ∃ dd', Add makeDefaultConfig canonical_iter "d3" ["buy"; "cheap"; "buy"] [0] dd = Ret tt dd'
           ∧ WordDocCountOf "buy" dd' = 2
           ∧ LWF_of 0 "buy" dd' = 4
           ∧ map_get (LabelWordCount dd') 0 = 6.
Proof.
  simpl.
  set (dd := final_state (run makeDefaultConfig two_adds (New (FL := symbolic_float) "" ["spam"; "ham"]))).
  assert (Forall (in_range dd) [0]) as Hall.
  { constructor; [vm_compute; by split|constructor]. }
  assert (Z.of_nat (size (idxs (scan makeDefaultConfig ["buy"; "cheap"; "buy"] dd).1.1))
          ≤ int_max) as Hmax by (vm_compute; discriminate).
  split; [done|]. split; [done|].
  destruct (Add_by_word (FL := symbolic_float) makeDefaultConfig "" ["spam"; "ham"] two_adds
              canonical_iter "d3" ["buy"; "cheap"; "buy"] [0] Hall Hmax)
    as (dd' & E & _).
  exists dd'. split; [done|].
  apply (f_equal final_state) in E. simpl in E. rewrite <- E.
  repeat split.
Defined.

Lemma scan_new_words_witness :
  (∀ w, w ∈ kept makeDefaultConfig ["buy"; ""; "now"] → idxs spam_ham !! w = None)
  ∧ NoDup (kept makeDefaultConfig ["buy"; ""; "now"])
  ∧ int_min ≤ WordCount spam_ham
  ∧ WordCount spam_ham + len (kept makeDefaultConfig ["buy"; ""; "now"]) ≤ int_max
  ∧ (scan makeDefaultConfig ["buy"; ""; "now"] spam_ham).1.2 = [0; 1]
  ∧ idxs (scan makeDefaultConfig ["buy"; ""; "now"] spam_ham).1.1 !! "now" = Some 1.
Proof.
  assert (∀ w, w ∈ kept makeDefaultConfig ["buy"; ""; "now"] → idxs spam_ham !! w = None)
    as Hnew by (intros w _; apply lookup_empty).
  assert (NoDup (kept makeDefaultConfig ["buy"; ""; "now"])) as Hnd.
  { change (kept makeDefaultConfig ["buy"; ""; "now"]) with ["buy"; "now"].
    apply NoDup_cons. split; [|apply NoDup_singleton].
    intros Hin. apply list_elem_of_singleton in Hin. discriminate Hin. }
  assert (int_min ≤ WordCount spam_ham) as Hlo by (vm_compute; discriminate).
  assert (WordCount spam_ham + len (kept makeDefaultConfig ["buy"; ""; "now"]) ≤ int_max)
    as Hhi by (vm_compute; discriminate).
  split; [done|]. split; [done|]. split; [done|]. split; [done|].
  destruct (scan_new_words (FL := symbolic_float) makeDefaultConfig ["buy"; ""; "now"]
              spam_ham Hnew Hnd Hlo Hhi) as (Hseq & _ & Hids).
  split; [exact Hseq|]. apply (Hids 1%nat "now"). reflexivity.
Defined.

Lemma UpdatePL_New_witness :
  len ["spam"; "ham"] ≤ int_max ∧ UpdatePL spam_ham = Ret tt spam_ham.
Proof.
  assert (len ["spam"; "ham"] ≤ int_max) as Hmax by (vm_compute; discriminate).
  split; [done|]. apply (UpdatePL_New (FL := symbolic_float) "" ["spam"; "ham"] Hmax).
Defined.

Lemma UpdatePL_twice_witness :
  Bow_wf trained ∧ guard_ok trained
  ∧ ∃ dd', UpdatePL trained = Ret tt dd' ∧ UpdatePL dd' = Ret tt dd'
           ∧ slice_get (PL dd') 1 = Some (FDiv (FInt 2) (FInt 4)).
Proof.
  split; [apply trained_wf|]. split; [apply trained_guard_ok|].
  destruct (UpdatePL_twice trained trained_wf trained_guard_ok) as (dd' & E & _ & _ & E').
  exists dd'. split; [done|]. split; [done|].
  apply (f_equal final_state) in E. simpl in E. rewrite <- E. reflexivity.
Defined.

Lemma UpdatePL_guard_witness :
  let dd := final_state (Add makeDefaultConfig canonical_iter "d1" ["buy"] [0; 0]
                           (New (FL := symbolic_float) "" ["spam"])) in
  Bow_wf dd ∧ in_range dd 0 ∧ slice_get (LabelDocCount dd) 0 = Some 2
  ∧ int_add 2 1 > int_add (DocCount dd) (LabelCount dd)
  ∧ (∃ dd', UpdatePL dd = Panic Fatal dd')
  ∧ ∃ dd', Predict makeDefaultConfig canonical_iter ["buy"] dd = Panic Fatal dd'.
Proof.
  simpl.
  set (dd := final_state (Add makeDefaultConfig canonical_iter "d1" ["buy"] [0; 0]
                            (New (FL := symbolic_float) "" ["spam"]))).
  assert (Bow_wf dd) as Hwf by (apply Add_final_wf, New_wf).
  assert (in_range dd 0) as Hr by (vm_compute; by split).
  assert (slice_get (LabelDocCount dd) 0 = Some 2) as Hn by reflexivity.
  assert (int_add 2 1 > int_add (DocCount dd) (LabelCount dd)) as Hbad by reflexivity.
  split; [done|]. split; [done|]. split; [done|]. split; [done|].
  destruct (UpdatePL_guard makeDefaultConfig dd 0 2 Hwf Hr Hn Hbad) as [Hup Hpred].
  split; [exact Hup|]. apply Hpred.
Defined.

Lemma rational_ordered (pld : list rat) :
  (∀ x, x ∈ pld → ∃ n d, x = Num n d ∧ 0 < d) →
  ordered_values (FL := rational_float) pld.
Proof.
  intros Hnum. unfold ordered_values. simpl. split; [|split].
  - intros x Hx. destruct (Hnum x Hx) as (a & b & -> & Hb). simpl.
    rewrite Z.ltb_irrefl. by rewrite andb_false_r.
  - intros x y z Hx Hy Hz.
    destruct (Hnum x Hx) as (a & b & -> & Hb), (Hnum y Hy) as (c & d & -> & Hd),
      (Hnum z Hz) as (e & f & -> & Hf). simpl.
    rewrite !andb_true_iff, !Z.ltb_lt. intros [_ H1] [_ H2].
    split; [done|]. nia.
  - intros x y z Hx Hy Hz.
    destruct (Hnum x Hx) as (a & b & -> & Hb), (Hnum y Hy) as (c & d & -> & Hd),
      (Hnum z Hz) as (e & f & -> & Hf). simpl.
    rewrite !andb_true_iff, !Z.ltb_lt. intros [_ H1].
    destruct (decide (e * b < a * f)) as [H2|H2]; [by left|].
    right. split; [done|]. nia.
Qed.

Lemma tied_guard_ok : guard_ok tied.
Proof.
  apply (counted_guard_ok 2); [apply run_wf|lia|vm_compute; discriminate|].
  split; [reflexivity|]. intros [|[|[|i]]] c Hc; vm_compute in Hc; [| | |done];
    injection Hc as <-; lia.
Qed.

Lemma Predict_choice_witness :
  Bow_wf tied ∧ guard_ok tied ∧ 0 < LabelCount tied
  ∧ ∃ pld dd',
      Predict makeDefaultConfig canonical_iter ["cheap"; "now"] tied = Ret (1, pld) dd'
      ∧ pld = [Num 40500 184500; Num 162000 415125; Num 162000 415125]
      ∧ ordered_values pld
      ∧ ∀ l x y, slice_get pld l = Some x → slice_get pld 1 = Some y →
                 fgt x y = false ∧ (l < 1 → fgt y x = true).
Proof.
  assert (Bow_wf tied) as Hwf by apply run_wf.
  assert (0 < LabelCount tied) as Hpos by reflexivity.
  split; [exact Hwf|]. split; [apply tied_guard_ok|]. split; [exact Hpos|].
  destruct (Predict_choice makeDefaultConfig canonical_iter ["cheap"; "now"] tied
              Hwf tied_guard_ok Hpos) as (r & pld & dd' & E & _ & _ & Harg).
  assert (∃ D, Predict makeDefaultConfig canonical_iter ["cheap"; "now"] tied
               = Ret (1, [Num 40500 184500; Num 162000 415125; Num 162000 415125]) D)
    as [D E0] by (eexists; vm_compute; reflexivity).
  rewrite E in E0. injection E0 as Hr Hpld _. subst r pld.
  eexists _, dd'. split; [exact E|]. split; [reflexivity|].
  assert (∀ x : rat, x ∈ [Num 40500 184500; Num 162000 415125; Num 162000 415125] →
                     ∃ n d, x = Num n d ∧ 0 < d) as Hnum.
  { intros x Hx.
    repeat (apply elem_of_cons in Hx as [->|Hx]; [eexists _, _; split; [reflexivity|lia]|]).
    apply elem_of_nil in Hx. destruct Hx. }
  split; [exact (rational_ordered _ Hnum)|]. exact (Harg (rational_ordered _ Hnum)).
Defined.

Lemma Predict_no_label_witness :
  LabelCount (New (FL := symbolic_float) "" []) = 0
  ∧ ∃ dd', Predict makeDefaultConfig canonical_iter ["buy"] (New (FL := symbolic_float) "" [])
           = Ret (0, []) dd'.
Proof.
  split; [reflexivity|].
  apply (Predict_no_label (FL := symbolic_float) makeDefaultConfig canonical_iter ["buy"]
           (New "" []) eq_refl).
Defined.

Lemma Save_Words_witness :
  vocab_ok trained
  ∧ ∃ ws, Save canonical_iter "bow.json" true trained = Ret true (set_Words ws trained)
          ∧ ws = ["buy"; "now"; "hello"; "friend"].
Proof.
  split; [apply trained_vocab_ok|].
  destruct (Save_Words canonical_iter "bow.json" true trained trained_vocab_ok)
    as (ws & E & _).
  exists ws. split; [done|].
  apply (f_equal final_state) in E. apply (f_equal Words) in E. simpl in E.
  rewrite <- E. reflexivity.
Defined.

Lemma Save_order_free_witness :
  vocab_ok trained
  ∧ ∃ dd', Save canonical_iter "bow.json" true trained = Ret true dd'
           ∧ Save canonical_iter "bow.json" true dd' = Ret true dd'.
Proof.
  split; [apply trained_vocab_ok|].
  destruct (Save_order_free canonical_iter canonical_iter "bow.json" true trained
              trained_vocab_ok) as (dd' & E & _ & E').
  exists dd'. split; [exact E|exact E'].
Defined.

Lemma Save_out_of_range_witness :
  let dd := set_idxs {["buy" := 5]} spam_ham in
  idxs dd !! "buy" = Some 5 ∧ ¬ (0 ≤ 5 < Z.of_nat (size (idxs dd)))
  ∧ ∃ dd', Save canonical_iter "bow.json" true dd = Panic IndexOutOfRange dd'.
Proof.
  simpl. set (dd := set_idxs {["buy" := 5]} spam_ham).
  assert (idxs dd !! "buy" = Some 5) as Hw by (vm_compute; reflexivity).
  assert (¬ (0 ≤ 5 < Z.of_nat (size (idxs dd)))) as Hout.
  { intros [_ H]. vm_compute in H. discriminate H. }
  split; [exact Hw|]. split; [exact Hout|].
  destruct (Save_out_of_range canonical_iter "bow.json" true dd "buy" 5 Hw Hout)
    as (dd' & E & _).
  exists dd'. exact E.
Defined.

Lemma Save_Load_witness :
  let dd' := final_state (Save canonical_iter "bow.json" true trained) in
  let readFile := λ _ : string, Some "bytes" in
  let unmarshal := λ _ : string, Some (set_idxs ∅ dd') in
  vocab_ok trained
  ∧ Save canonical_iter "bow.json" true trained = Ret true dd'
  ∧ Load readFile unmarshal "bow.json" = inr dd'
  ∧ idxs dd' !! "friend" = Some 3.
Proof.
  simpl. set (dd' := final_state (Save canonical_iter "bow.json" true trained)).
  assert (Save canonical_iter "bow.json" true trained = Ret true dd') as ES.
  { destruct (updateWords_Words canonical_iter trained trained_vocab_ok) as (ws & E & _).
    unfold dd', Save, bind. rewrite E. reflexivity. }
  assert (∀ x : @Bow symbolic_float, set_idxs ∅ (set_idxs ∅ x) = set_idxs ∅ x) as Hd
    by (intros []; reflexivity).
  split; [apply trained_vocab_ok|]. split; [exact ES|].
  split; [|vm_compute; reflexivity].
  apply (Save_Load canonical_iter "bow.json" true (λ _, Some "bytes")
           (λ _, Some (set_idxs ∅ dd')) "bow.json" "bytes" (set_idxs ∅ dd') trained true dd'
           trained_vocab_ok ES eq_refl eq_refl (Hd dd')).
Defined.

Lemma Load_consistent_witness :
  let d := set_WordCount 2 (set_Words ["buy"; "now"] spam_ham) in
  ∃ dd, Load (λ _, Some "bytes") (λ _, Some d) "bow.json" = inr dd
        ∧ NoDup (Words dd) ∧ WordCount dd = len (Words dd)
        ∧ vocab_ok dd ∧ Words_ok dd ∧ idxs dd !! "now" = Some 1.
Proof.
  simpl. eexists. split; [reflexivity|].
  match goal with |- NoDup (Words ?x) ∧ _ => set (dd := x) end.
  assert (NoDup (Words dd)) as Hnd.
  { change (Words dd) with ["buy"; "now"].
    apply NoDup_cons. split; [|apply NoDup_singleton].
    intros Hin. apply list_elem_of_singleton in Hin. discriminate Hin. }
  assert (WordCount dd = len (Words dd)) as Hwc by reflexivity.
  split; [exact Hnd|]. split; [exact Hwc|].
  destruct (Load_consistent (FL := symbolic_float) (λ _, Some "bytes")
              (λ _, Some (set_WordCount 2 (set_Words ["buy"; "now"] spam_ham)))
              "bow.json" dd eq_refl Hnd Hwc) as [Hok Hws].
  split; [exact Hok|]. split; [exact Hws|]. vm_compute. reflexivity.
Defined.

Lemma Load_duplicate_witness :
  let d := set_WordCount 2 (set_Words ["buy"; "buy"] spam_ham) in
  ∃ dd dd', Load (λ _, Some "bytes") (λ _, Some d) "bow.json" = inr dd
            ∧ ¬ NoDup (Words dd)
            ∧ Save canonical_iter "bow.json" true dd = Panic IndexOutOfRange dd'.
Proof.
  simpl.
  set (dd := set_idxs (Load_idxs 0 ["buy"; "buy"] ∅)
               (set_WordCount 2 (set_Words ["buy"; "buy"] spam_ham))).
  assert (¬ NoDup (Words dd)) as Hdup.
  { change (Words dd) with ["buy"; "buy"]. intros H. apply NoDup_cons in H as [H _].
    apply H. by left. }
  destruct (Load_duplicate (FL := symbolic_float) (λ _, Some "bytes")
              (λ _, Some (set_WordCount 2 (set_Words ["buy"; "buy"] spam_ham)))
              "bow.json" dd canonical_iter "bow.json" true eq_refl Hdup) as [dd' E].
  exists dd, dd'. split; [reflexivity|]. split; [exact Hdup|]. exact E.
Defined.

Lemma Predict_twice_witness :
  Bow_wf trained ∧ guard_ok trained
  ∧ ∃ r dd', Predict makeDefaultConfig canonical_iter ["buy"; "cheap"] trained = Ret r dd'
             ∧ Predict makeDefaultConfig canonical_iter ["buy"; "cheap"] dd' = Ret r dd'
             ∧ WordCount dd' = 5.
Proof.
  split; [apply trained_wf|]. split; [apply trained_guard_ok|].
  destruct (Predict_twice makeDefaultConfig canonical_iter ["buy"; "cheap"] trained
              trained_wf trained_guard_ok) as (r & dd' & E & E').
  exists r, dd'. split; [exact E|]. split; [exact E'|].
  apply (f_equal final_state) in E. simpl in E. rewrite <- E. vm_compute. reflexivity.
Defined.

Lemma Predict_no_token_witness :
  kept makeDefaultConfig [""] = [] ∧ Bow_wf trained ∧ guard_ok trained
  ∧ ∃ r dd',
      UpdatePL trained = Ret tt dd'
      ∧ Predict makeDefaultConfig canonical_iter [""] trained
        = Ret (r, let scores := (λ p, fexp (flog p)) <$> PL dd' in
                  (λ x, fdiv x (foldl fadd (of_int 0) scores)) <$> scores) dd'.
Proof.
  split; [reflexivity|]. split; [apply trained_wf|]. split; [apply trained_guard_ok|].
  apply (Predict_no_token makeDefaultConfig canonical_iter [""] trained eq_refl
           trained_wf trained_guard_ok).
Defined.

Lemma Predict_untrained_witness :
  len ["spam"; "ham"] ≤ int_max
  ∧ ∃ v dd', Predict makeDefaultConfig canonical_iter ["buy"; "cheap"] spam_ham
             = Ret (0, [v; v]) dd'.
Proof.
  assert (len ["spam"; "ham"] ≤ int_max) as Hmax by (vm_compute; discriminate).
  split; [exact Hmax|].
  destruct (Predict_untrained (FL := symbolic_float) makeDefaultConfig canonical_iter
              ["buy"; "cheap"] "" ["spam"; "ham"] Hmax) as (r & v & dd' & E & Hr).
  exists v, dd'. rewrite <- (Hr eq_refl). exact E.
Defined.
